(** * Multi-layer type analysis (MLTA): indirect-call resolution

    A shallow embedding of the call-graph pass of the ESSS checker
    (CallGraph.cc: class [MLTA]) and the properties of its resolver.

    The LLVM IR is a finite table of values; every pointer of the source
    ([Value *], [Function *], [Type *]) becomes an identifier or a term,
    every [std::map] a [gmap], every [std::set] a [gset].  Code that can
    stop on a failed assertion returns in the [res] monad. *)

From stdpp Require Import gmap strings list fin_maps sets sorting.

(* ===================================================================== *)
(** ** Outcomes *)
(* ===================================================================== *)

(** [Ret a]: the call returned [a].  [Crash why]: the process stopped, on a
    failed assertion of the source or of the LLVM accessor it calls, on a
    null pointer, or on a read past the end of an operand list.
    [NoFuel]: the bound on loop iterations given to the model ran out; the
    theorems on termination show that it never happens with the stated
    bound. *)
Inductive fault : Type :=
| FailedAssertion
| NullPointer
| OutOfBounds.

Inductive res (A : Type) : Type :=
| Ret (a : A)
| Crash (why : fault)
| NoFuel.
Arguments Ret {A} a.
Arguments Crash {A} why.
Arguments NoFuel {A}.

#[export] Instance res_ret : MRet res := @Ret.
#[export] Instance res_bind : MBind res := λ A B f m,
  match m with
  | Ret a => f a
  | Crash why => Crash why
  | NoFuel => NoFuel
  end.

(** [returns P r]: the call ran to its end, normally with a result in [P] or
    by a failed assertion; it did not run out of fuel. *)
Definition returns {A} (P : A → Prop) (r : res A) : Prop :=
  match r with
  | Ret a => P a
  | Crash _ => True
  | NoFuel => False
  end.

(** [yields P r]: the call returned, with a result in [P]. *)
Definition yields {A} (P : A → Prop) (r : res A) : Prop :=
  match r with
  | Ret a => P a
  | Crash _ | NoFuel => False
  end.

(** [terminates r]: [r] is a definite outcome of the source. *)
Definition terminates {A} (r : res A) : Prop := returns (λ _, True) r.

(** [on_return P r]: whatever [r] returned is in [P]. *)
Definition on_return {A} (P : A → Prop) (r : res A) : Prop :=
  match r with
  | Ret a => P a
  | Crash _ | NoFuel => True
  end.

(* ===================================================================== *)
(** ** The IR facade *)
(* ===================================================================== *)

Definition LLVMContext := positive.
Definition ModuleId := positive.
Definition DataLayout := positive.
Definition FuncId := positive.
Definition Value := positive.

(** [llvm::Type].  A type is unique in its [LLVMContext], so that pointer
    equality of [Type *] is equality of these terms; the leaves carry the
    context.  A struct type is identified by its context and name, its body
    is kept by the IR ([struct_body]). *)
Inductive Ty : Type :=
| VoidTy (C : LLVMContext)
| IntegerTy (C : LLVMContext) (BitWidth : N)
| PointerTy (ElementType : Ty)
| StructTy (C : LLVMContext) (Name : string)
| ArrayTy (ElementType : Ty) (NumElements : N)
| VectorTy (ElementType : Ty) (NumElements : N)
| FunctionTy (C : LLVMContext) (sig : positive)
| OtherTy (C : LLVMContext) (k : positive).

#[export] Instance Ty_eq_dec : EqDecision Ty.
Proof. solve_decision. Defined.

Definition isPointerTy (T : Ty) : bool :=
  match T with PointerTy _ => true | _ => false end.
Definition isStructTy (T : Ty) : bool :=
  match T with StructTy _ _ => true | _ => false end.
Definition isArrayTy (T : Ty) : bool :=
  match T with ArrayTy _ _ => true | _ => false end.
Definition isVectorTy (T : Ty) : bool :=
  match T with VectorTy _ _ => true | _ => false end.
Definition isIntegerTy (T : Ty) : bool :=
  match T with IntegerTy _ _ => true | _ => false end.
Definition isFunctionTy (T : Ty) : bool :=
  match T with FunctionTy _ _ => true | _ => false end.

(** Read only under [isStructTy] / [isIntegerTy], as in the source. *)
Definition getStructName (T : Ty) : string :=
  match T with StructTy _ n => n | _ => EmptyString end.
Definition getIntegerBitWidth (T : Ty) : N :=
  match T with IntegerTy _ w => w | _ => 0%N end.

(** [Type::getPointerElementType] asserts that the type is a pointer. *)
Definition getPointerElementType (T : Ty) : res Ty :=
  match T with PointerTy E => Ret E | _ => Crash FailedAssertion end.

(** The operators and instructions the pass looks at.  [KGEP], [KBitCast]
    and [KPtrToInt] are LLVM's [GEPOperator], [BitCastOperator] and
    [PtrToIntOperator]: an instruction or a constant expression. *)
Inductive Kind : Type :=
| KFunction (F : FuncId)
| KGlobalVariable (Initializer : option Value)
| KArgument
| KInlineAsm
| KConstantPointerNull
| KConstantInt (BitWidth : N) (ZExtValue : Z)
| KConstantData
| KConstantAggregate (ops : list Value)
| KGEP (PointerOperand : Value) (SourceElementType : Ty)
       (idx0 : Value) (idxs : list Value)
| KBitCast (op0 : Value)
| KPtrToInt (op0 : Value)
| KCast (op0 : Value)
| KLoad (PointerOperand : Value)
| KStore (ValueOperand PointerOperand : Value)
| KCall (FTy : Ty) (args : list Value) (CalledOperand : Value)
| KPHI (incoming : list Value)
| KSelect (Condition TrueValue FalseValue : Value)
| KUnary (op0 : Value)
| KOther (ops : list Value).

(** A value: what it is, its type, and for an instruction the function it
    stands in ([Instruction::getFunction]); [parent] is [None] for
    everything that is no instruction. *)
Record Node : Type := {
  kind : Kind;
  type : Ty;
  parent : option FuncId;
}.

(** [llvm::Function], as far as the pass reads it. *)
Record FunctionInfo : Type := {
  Args : list Value;
  ReturnType : Ty;
  isVarArg : bool;
  isIntrinsic : bool;
  isDeclaration : bool;
  getParent : ModuleId;
  getGUID : N;
  instructions : list Value;
}.

(** The program under analysis.  [values] is finite, as an LLVM module is;
    an identifier outside of it stands for an opaque value. *)
Record IR : Type := {
  values : gmap Value Node;
  func : FuncId → FunctionInfo;
  struct_body : LLVMContext → string → list Ty;
}.

Definition opaque : Node :=
  {| kind := KOther []; type := VoidTy 1%positive; parent := None |}.

Definition node (ir : IR) (V : Value) : Node :=
  default opaque (values ir !! V).

Definition getType (ir : IR) (V : Value) : Ty := type (node ir V).

(** [User::operands], in operand order (a call's callee is its last
    operand). *)
Definition operands (k : Kind) : list Value :=
  match k with
  | KGlobalVariable (Some i) => [i]
  | KConstantAggregate ops | KOther ops | KPHI ops => ops
  | KGEP po _ i0 rest => po :: i0 :: rest
  | KBitCast o | KPtrToInt o | KCast o | KLoad o | KUnary o => [o]
  | KStore v p => [v; p]
  | KCall _ args callee => args ++ [callee]
  | KSelect c t f => [c; t; f]
  | _ => []
  end.

(** [Value::users]: one entry for every use of [V]. *)
Definition users (ir : IR) (V : Value) : list Value :=
  flat_map (λ un : Value * Node,
              replicate (length (filter (λ o, o = V) (operands (kind un.2)))) un.1)
           (map_to_list (values ir)).

Definition isCompositeType (T : Ty) : bool :=
  if isStructTy T || isArrayTy T || isVectorTy T then true else false.

(* ===================================================================== *)
(** ** What the pass takes from outside of CallGraph.cc *)
(* ===================================================================== *)

(** The hash functions of Common.cc, the per-module tables the pass's
    constructor fills, and the LLVM queries that have no model here. *)
Class Host : Type := {
  typeHash : Ty → DataLayout → N;
  typeIdxHash : Ty → DataLayout → Z → N;
  callHash : Value → N;
  funcHash : FuncId → N;
  DLMap : ModuleId → DataLayout;
  Int8PtrTy : ModuleId → Ty;
  IntPtrTy : ModuleId → Ty;
  getGEPIndicesForOffset : DataLayout → Ty → N → Z → list Z;
  stripPointerCasts : Value → Value;
  GlobalFuncs : N → option FuncId;
}.

(** The compile-time switches [SOUND_MODE] and [MLTA_FIELD_INSENSITIVE]
    ([#ifdef]); the third macro of the pass, the bound [MAX_TYPE_LAYER], is
    an argument of the resolver. *)
Record Config : Type := {
  SOUND_MODE : bool;
  MLTA_FIELD_INSENSITIVE : bool;
}.

Definition typeidx_t : Type := Ty * Z.
Definition hashidx_t : Type := N * Z.
Abbreviation FuncSet := (gset FuncId).

Definition typeidx_c (T : Ty) (Idx : Z) : typeidx_t := (T, Idx).
Definition hashidx_c (Hash : N) (Idx : Z) : hashidx_t := (Hash, Idx).

(** Conversion to a 32-bit [int], as [vector<int>::push_back] does to a
    64-bit index. *)
Definition to_int (z : Z) : Z :=
  ((z + 2 ^ 31) `mod` 2 ^ 32 - 2 ^ 31)%Z.

(** [ConstantInt::getSExtValue] of a constant of [w] bits whose
    zero-extended value is [z]. *)
Definition getSExtValue (w : N) (z : Z) : Z :=
  if decide (w = 0%N) then 0%Z
  else if decide (z < 2 ^ (Z.of_N w - 1))%Z then z else (z - 2 ^ Z.of_N w)%Z.

Section Signature.
Context `{!Host}.

(** [MLTA::fuzzyTypeMatch] *)
Fixpoint peelPointers (Ty1 Ty2 : Ty) : Ty * Ty :=
  match Ty1, Ty2 with
  | PointerTy E1, PointerTy E2 => peelPointers E1 E2
  | _, _ => (Ty1, Ty2)
  end.

Definition fuzzyTypeMatch (Ty1 Ty2 : Ty) (M1 M2 : ModuleId) : bool :=
  if decide (Ty1 = Ty2) then true
  else
    let '(Ty1, Ty2) := peelPointers Ty1 Ty2 in
    if isStructTy Ty1 && isStructTy Ty2
       && bool_decide (getStructName Ty1 = getStructName Ty2) then true
    else if isIntegerTy Ty1 && isIntegerTy Ty2
       && bool_decide (getIntegerBitWidth Ty1 = getIntegerBitWidth Ty2) then true
    else if (bool_decide (Ty1 = Int8PtrTy M1)
             && (isPointerTy Ty2 || bool_decide (Ty2 = IntPtrTy M2)))
            || (bool_decide (Ty2 = Int8PtrTy M1)
                && (isPointerTy Ty1 || bool_decide (Ty1 = IntPtrTy M2)))
    then true
    else false.

End Signature.

(* ===================================================================== *)
(** ** The state of the pass *)
(* ===================================================================== *)

(** The tables of [MLTA] and of the [GlobalContext] it points to.  Reading
    a [std::map] with [operator[]] is a lookup with the empty set as default
    (the empty entry it leaves behind changes no later read). *)
Record MLTA : Type := {
  typeIdxFuncsMap : gmap N (gmap Z FuncSet);
  typeIdxPropMap : gmap N (gmap Z (gset hashidx_t));
  typeCapSet : gset N;
  typeEscapeSet : gset N;
  VTableFuncsMap : gmap Value FuncSet;
  AliasStructPtrMap : gmap FuncId (gmap Value Value);
  MatchedFuncsMap : gmap N FuncSet;
  sigFuncsMap : gmap N FuncSet;
  AddressTakenFuncs : list FuncId;
}.

Definition set_typeIdxFuncsMap (m : gmap N (gmap Z FuncSet)) (st : MLTA) : MLTA :=
  {| typeIdxFuncsMap := m; typeIdxPropMap := typeIdxPropMap st;
     typeCapSet := typeCapSet st; typeEscapeSet := typeEscapeSet st;
     VTableFuncsMap := VTableFuncsMap st;
     AliasStructPtrMap := AliasStructPtrMap st;
     MatchedFuncsMap := MatchedFuncsMap st; sigFuncsMap := sigFuncsMap st;
     AddressTakenFuncs := AddressTakenFuncs st |}.

Definition set_typeIdxPropMap (m : gmap N (gmap Z (gset hashidx_t))) (st : MLTA) : MLTA :=
  {| typeIdxFuncsMap := typeIdxFuncsMap st; typeIdxPropMap := m;
     typeCapSet := typeCapSet st; typeEscapeSet := typeEscapeSet st;
     VTableFuncsMap := VTableFuncsMap st;
     AliasStructPtrMap := AliasStructPtrMap st;
     MatchedFuncsMap := MatchedFuncsMap st; sigFuncsMap := sigFuncsMap st;
     AddressTakenFuncs := AddressTakenFuncs st |}.

Definition set_typeCapSet (s : gset N) (st : MLTA) : MLTA :=
  {| typeIdxFuncsMap := typeIdxFuncsMap st; typeIdxPropMap := typeIdxPropMap st;
     typeCapSet := s; typeEscapeSet := typeEscapeSet st;
     VTableFuncsMap := VTableFuncsMap st;
     AliasStructPtrMap := AliasStructPtrMap st;
     MatchedFuncsMap := MatchedFuncsMap st; sigFuncsMap := sigFuncsMap st;
     AddressTakenFuncs := AddressTakenFuncs st |}.

Definition set_typeEscapeSet (s : gset N) (st : MLTA) : MLTA :=
  {| typeIdxFuncsMap := typeIdxFuncsMap st; typeIdxPropMap := typeIdxPropMap st;
     typeCapSet := typeCapSet st; typeEscapeSet := s;
     VTableFuncsMap := VTableFuncsMap st;
     AliasStructPtrMap := AliasStructPtrMap st;
     MatchedFuncsMap := MatchedFuncsMap st; sigFuncsMap := sigFuncsMap st;
     AddressTakenFuncs := AddressTakenFuncs st |}.

Definition set_VTableFuncsMap (m : gmap Value FuncSet) (st : MLTA) : MLTA :=
  {| typeIdxFuncsMap := typeIdxFuncsMap st; typeIdxPropMap := typeIdxPropMap st;
     typeCapSet := typeCapSet st; typeEscapeSet := typeEscapeSet st;
     VTableFuncsMap := m;
     AliasStructPtrMap := AliasStructPtrMap st;
     MatchedFuncsMap := MatchedFuncsMap st; sigFuncsMap := sigFuncsMap st;
     AddressTakenFuncs := AddressTakenFuncs st |}.

Definition set_AliasStructPtrMap (m : gmap FuncId (gmap Value Value)) (st : MLTA) : MLTA :=
  {| typeIdxFuncsMap := typeIdxFuncsMap st; typeIdxPropMap := typeIdxPropMap st;
     typeCapSet := typeCapSet st; typeEscapeSet := typeEscapeSet st;
     VTableFuncsMap := VTableFuncsMap st;
     AliasStructPtrMap := m;
     MatchedFuncsMap := MatchedFuncsMap st; sigFuncsMap := sigFuncsMap st;
     AddressTakenFuncs := AddressTakenFuncs st |}.

Definition set_MatchedFuncsMap (m : gmap N FuncSet) (st : MLTA) : MLTA :=
  {| typeIdxFuncsMap := typeIdxFuncsMap st; typeIdxPropMap := typeIdxPropMap st;
     typeCapSet := typeCapSet st; typeEscapeSet := typeEscapeSet st;
     VTableFuncsMap := VTableFuncsMap st;
     AliasStructPtrMap := AliasStructPtrMap st;
     MatchedFuncsMap := m; sigFuncsMap := sigFuncsMap st;
     AddressTakenFuncs := AddressTakenFuncs st |}.

(** [m[h][i]] for the two-level tables. *)
Definition at2 {A} `{Empty A} (m : gmap N (gmap Z A)) (h : N) (i : Z) : A :=
  default ∅ (default ∅ (m !! h) !! i).

(** [m[h][i].insert(x)] *)
Definition insert2 {A} `{Countable A} (m : gmap N (gmap Z (gset A)))
    (h : N) (i : Z) (x : A) : gmap N (gmap Z (gset A)) :=
  <[h := <[i := {[x]} ∪ at2 m h i]> (default ∅ (m !! h))]> m.

(* ===================================================================== *)
(** ** Signature matching *)
(* ===================================================================== *)

Section SignatureMatch.
Context `{!Host}.
Variable ir : IR.

(** The argument loop of [findCalleesWithType] (lines 134-148): [FI] runs
    over the formal parameters of [F], [AI] starts at [CB->arg_begin()] and
    is advanced with it; [AI] is the position it has reached.  The loop has
    no test of [AI] against [arg_end()]: a read at a position that is not
    below [CB->arg_size()] is [Crash OutOfBounds]. *)
Fixpoint matchArgs (formals actuals : list Value) (AI : nat)
    (CalleeM CallerM : ModuleId) : res bool :=
  match formals with
  | [] => Ret true
  | FI :: formals =>
      match actuals !! AI with
      | None => Crash OutOfBounds
      | Some A =>
          let DefinedTy := getType ir FI in
          let ActualTy := getType ir A in
          if fuzzyTypeMatch DefinedTy ActualTy CalleeM CallerM
          then matchArgs formals actuals (S AI) CalleeM CallerM
          else Ret false
      end
  end.

(** One round of the loop over [AddressTakenFuncs] (lines 110-161);
    [caller] is [CI->getFunction()]. *)
Definition matchCallee (CI : Value) (args : list Value)
    (caller : option FuncId) (S : FuncSet) (F : FuncId) : res FuncSet :=
  let Fn := func ir F in
  if negb (isVarArg Fn) && bool_decide (length (Args Fn) ≠ length args)
  then Ret S
  else if isIntrinsic Fn then Ret S
  else if bool_decide (callHash CI = funcHash F) then Ret ({[F]} ∪ S)
  else
    let CalleeM := getParent Fn in
    match caller with
    | None => Crash NullPointer
    | Some caller =>
        let CallerM := getParent (func ir caller) in
        Matched ← matchArgs (Args Fn) args 0 CalleeM CallerM;
        let Matched :=
          if (Matched : bool)
          then fuzzyTypeMatch (ReturnType Fn) (getType ir CI) CalleeM CallerM
          else false in
        Ret (if Matched then {[F]} ∪ S else S)
    end.

Fixpoint matchCallees (CI : Value) (args : list Value)
    (caller : option FuncId) (S : FuncSet) (Fs : list FuncId) : res FuncSet :=
  match Fs with
  | [] => Ret S
  | F :: Fs =>
      S ← matchCallee CI args caller S F;
      matchCallees CI args caller S Fs
  end.

Definition isInlineAsm (callee : Value) : bool :=
  match kind (node ir callee) with KInlineAsm => true | _ => false end.

(** [MLTA::findCalleesWithType]: the set [S] is passed by reference, the
    result is its value at the return together with the state. *)
Definition findCalleesWithType (st : MLTA) (CI : Value) (S : FuncSet)
    : res (FuncSet * MLTA) :=
  match kind (node ir CI) with
  | KCall _ args callee =>
      if isInlineAsm callee then Ret (S, st)
      else
        let CIH := callHash CI in
        match MatchedFuncsMap st !! CIH with
        | Some cached => Ret (cached ∪ S, st)
        | None =>
            S ← matchCallees CI args (parent (node ir CI)) S
                  (AddressTakenFuncs st);
            Ret (S, set_MatchedFuncsMap (<[CIH := S]> (MatchedFuncsMap st)) st)
        end
  | _ => Crash FailedAssertion
  end.

(** [MLTA::collectAliasStructPtr] *)
Definition asCastInst (n : Node) : option Value :=
  match parent n, kind n with
  | Some _, (KBitCast o | KPtrToInt o | KCast o) => Some o
  | _, _ => None
  end.

Definition isCallInst (n : Node) : bool :=
  match kind n with KCall _ _ _ => true | _ => false end.

(** The tests of lines 628-643: [Some FromV] when the instruction [I] of
    [F] is a cast of the call result [FromV], of type [i8*], to a pointer
    to a composite type. *)
Definition aliasCast (F : FuncId) (I : Value) : option Value :=
  match asCastInst (node ir I) with
  | Some FromV =>
      if negb (isCallInst (node ir FromV)) then None
      else
        let FromTy := getType ir FromV in
        let ToTy := getType ir I in
        if bool_decide (Int8PtrTy (getParent (func ir F)) ≠ FromTy) then None
        else
          match ToTy with
          | PointerTy E => if isCompositeType E then Some FromV else None
          | _ => None
          end
  | None => None
  end.

Definition collectAliasStep (F : FuncId)
    (acc : gmap Value Value * gset Value) (I : Value)
    : gmap Value Value * gset Value :=
  let '(AliasMap, ToErase) := acc in
  match aliasCast F I with
  | Some FromV =>
      if bool_decide (is_Some (AliasMap !! FromV))
      then (AliasMap, {[FromV]} ∪ ToErase)
      else (<[FromV := I]> AliasMap, ToErase)
  | None => acc
  end.

Definition collectAliasStructPtr (st : MLTA) (F : FuncId) : MLTA :=
  let AliasMap := default ∅ (AliasStructPtrMap st !! F) in
  let '(AliasMap, ToErase) :=
    foldl (collectAliasStep F) (AliasMap, ∅) (instructions (func ir F)) in
  let AliasMap := foldr delete AliasMap (elements ToErase) in
  set_AliasStructPtrMap (<[F := AliasMap]> (AliasStructPtrMap st)) st.

End SignatureMatch.

(* ===================================================================== *)
(** ** The layer walker *)
(* ===================================================================== *)

Section LayerWalker.
Context `{!Host}.
Variable cfg : Config.
Variable ir : IR.

(** The bound on the depth of a walk through the values: every nested call
    of [getBaseType] and [nextLayerBaseType] has put one more value of the
    table into [Visited]. *)
Definition value_fuel : nat := S (size (values ir)).

(** [MLTA::recoverBaseType] *)
Definition recoverBaseType (st : MLTA) (V : Value) : option Value :=
  match parent (node ir V) with
  | Some F => default ∅ (AliasStructPtrMap st !! F) !! V
  | None => None
  end.

Definition asConstantInt (V : Value) : option (N * Z) :=
  match kind (node ir V) with
  | KConstantInt w z => Some (w, z)
  | _ => None
  end.

Definition isBitCastOperator (V : Value) : bool :=
  match kind (node ir V) with KBitCast _ => true | _ => false end.

(** [StructType::getElementType(unsigned)], called with an [int]. *)
Definition getElementType (body : list Ty) (Idx : Z) : res Ty :=
  match body !! Z.to_nat (Idx `mod` 2 ^ 32) with
  | Some T => Ret T
  | None => Crash FailedAssertion
  end.

(** [MLTA::getBaseType] and [MLTA::_getPhiBaseType].  [Visited] is passed
    by reference: it comes back with the result. *)
Fixpoint getPhiBaseType
    (rec : option Value → gset Value → res (option Ty * gset Value))
    (incoming : list Value) (Visited : gset Value)
    : res (option Ty * gset Value) :=
  match incoming with
  | [] => Ret (None, Visited)
  | IV :: incoming =>
      '(BTy, Visited) ← rec (Some IV) Visited;
      match BTy with
      | Some T => Ret (Some T, Visited)
      | None => getPhiBaseType rec incoming Visited
      end
  end.

Fixpoint getBaseType (fuel : nat) (st : MLTA) (V : option Value)
    (Visited : gset Value) : res (option Ty * gset Value) :=
  match fuel with
  | O => NoFuel
  | S fuel =>
      match V with
      | None => Ret (None, Visited)
      | Some V =>
          if decide (V ∈ Visited) then Ret (None, Visited)
          else
            let Visited := {[V]} ∪ Visited in
            let T := getType ir V in
            if isCompositeType T then Ret (Some T, Visited)
            else
              here ← match T with
                     | PointerTy ETy =>
                         if isCompositeType ETy then Ret (Some ETy)
                         else
                           match recoverBaseType st V with
                           | Some BV =>
                               E ← getPointerElementType (getType ir BV);
                               Ret (Some E)
                           | None => Ret None
                           end
                     | _ => Ret None
                     end;
              match here with
              | Some T' => Ret (Some T', Visited)
              | None =>
                  match kind (node ir V) with
                  | KBitCast op0 => getBaseType fuel st (Some op0) Visited
                  | KSelect _ TrueValue _ =>
                      getBaseType fuel st (Some TrueValue) Visited
                  | KPHI incoming =>
                      getPhiBaseType (getBaseType fuel st) incoming Visited
                  | KLoad PO => getBaseType fuel st (Some PO) Visited
                  | _ => Ret (None, Visited)
                  end
              end
      end
  end.

(** [MLTA::getGEPLayerTypes], in its three parts. *)

(** Lines 846-896: the element type the walk starts from and the indices
    it follows; [None] is the [return false] of [SOUND_MODE]. *)
Definition gepIndices (st : MLTA) (GEP PO : Value) (ETy : Ty)
    (idx0 : Value) (idxs : list Value) : res (option (Ty * list Z)) :=
  start ← match asConstantInt idx0 with
          | Some (w, z) =>
              if decide (getSExtValue w z ≠ 0%Z)
              then
                match recoverBaseType st PO with
                | Some BV =>
                    ETy ← getPointerElementType (getType ir BV);
                    match parent (node ir PO) with
                    | Some F =>
                        let DL := DLMap (getParent (func ir F)) in
                        Ret (Some (ETy, to_int <$>
                                          getGEPIndicesForOffset DL ETy w z))
                    | None => Crash NullPointer
                    end
                | None =>
                    if isStructTy ETy
                       && existsb isBitCastOperator (users ir GEP)
                       && SOUND_MODE cfg
                    then Ret None
                    else Ret (Some (ETy, []))
                end
              else Ret (Some (ETy, []))
          | None => Ret (Some (ETy, []))
          end;
  match start with
  | None => Ret None
  | Some (ETy, []) =>
      Ret (Some (ETy,
                 (λ i, match asConstantInt i with
                       | Some (w, z) => to_int (getSExtValue w z)
                       | None => (-1)%Z
                       end) <$> (idx0 :: idxs)))
  | Some (ETy, Indices) => Ret (Some (ETy, Indices))
  end.

(** Lines 899-922: one layer for every index after the first. *)
Fixpoint gepWalk (ETy : Ty) (Indices : list Z) (TmpTyList : list typeidx_t)
    : res (Ty * list typeidx_t) :=
  match Indices with
  | [] => Ret (ETy, TmpTyList)
  | Idx :: Indices =>
      let TmpTyList :=
        typeidx_c ETy (if MLTA_FIELD_INSENSITIVE cfg then 0%Z else Idx)
        :: TmpTyList in
      SubTy ← match ETy with
              | StructTy C n => getElementType (struct_body ir C n) Idx
              | ArrayTy E _ | VectorTy E _ => Ret E
              | _ => Crash FailedAssertion
              end;
      gepWalk SubTy Indices TmpTyList
  end.

(** Lines 927-942: a cast of the GEP to a pointer to the first field. *)
Definition firstFieldLayers (GEP : Value) (ETy : Ty) : list typeidx_t :=
  match ETy with
  | StructTy C n =>
      match struct_body ir C n with
      | Ty0 :: _ =>
          flat_map (λ U,
            match kind (node ir U), getType ir U with
            | KBitCast _, PointerTy ToTy =>
                if decide (Ty0 = ToTy) then [typeidx_c ETy 0%Z] else []
            | _, _ => []
            end) (users ir GEP)
      | [] => []
      end
  | _ => []
  end.

Definition getGEPLayerTypes (st : MLTA) (GEP PO : Value) (ETy : Ty)
    (idx0 : Value) (idxs : list Value) (TyList : list typeidx_t)
    : res (bool * list typeidx_t) :=
  start ← gepIndices st GEP PO ETy idx0 idxs;
  match start with
  | None => Ret (false, TyList)
  | Some (ETy, Indices) =>
      '(ETy, TmpTyList) ← gepWalk ETy (tail Indices) [];
      let TmpTyList := firstFieldLayers GEP ETy ++ TmpTyList in
      match TmpTyList with
      | [] => Ret (false, TyList)
      | _ => Ret (true, TyList ++ TmpTyList)
      end
  end.

(** [MLTA::nextLayerBaseType].  [TyList], [NextV] and [Visited] are passed
    by reference; the result is the returned flag and their values at the
    return. *)
Definition layer : Type :=
  bool * list typeidx_t * option Value * gset Value.

(** The loop over the incoming values of a PHI node (lines 998-1007);
    [acc] holds [ret], [NTyList], [NextV] and [NVisited]. *)
Fixpoint phiIncoming
    (rec : option Value → list typeidx_t → option Value → gset Value
           → res layer)
    (incoming : list Value) (TyList : list typeidx_t) (Visited : gset Value)
    (acc : layer) : res layer :=
  match incoming with
  | [] => Ret acc
  | IV :: incoming =>
      r ← rec (Some IV) TyList (Some IV) Visited;
      if decide (length TyList < length r.1.1.2)
      then Ret r
      else phiIncoming rec incoming TyList Visited r
  end.

Fixpoint nextLayerBaseType (fuel : nat) (st : MLTA) (V : option Value)
    (TyList : list typeidx_t) (NextV : option Value) (Visited : gset Value)
    : res layer :=
  match fuel with
  | O => NoFuel
  | S fuel =>
      match V with
      | None => Ret (false, TyList, None, Visited)
      | Some V =>
          match kind (node ir V) with
          | KArgument => Ret (false, TyList, Some V, Visited)
          | k =>
              if decide (V ∈ Visited) then Ret (false, TyList, Some V, Visited)
              else
                let Visited := {[V]} ∪ Visited in
                match k with
                | KGEP PO ETy idx0 idxs =>
                    '(ret, TyList) ←
                      getGEPLayerTypes st V PO ETy idx0 idxs TyList;
                    Ret (ret, TyList, if (ret : bool) then Some PO else None, Visited)
                | KLoad PO =>
                    nextLayerBaseType fuel st (Some PO) TyList (Some PO) Visited
                | KBitCast op0 =>
                    nextLayerBaseType fuel st (Some op0) TyList (Some op0) Visited
                | KPHI incoming =>
                    phiIncoming (nextLayerBaseType fuel st) incoming
                                TyList Visited (false, [], NextV, ∅)
                | KSelect _ TrueValue _ =>
                    nextLayerBaseType fuel st (Some TrueValue) TyList
                                      (Some TrueValue) Visited
                | KUnary op0 =>
                    nextLayerBaseType fuel st (Some op0) TyList (Some op0) Visited
                | _ => Ret (false, TyList, None, Visited)
                end
          end
      end
  end.

(** The loop of [getBaseTypeChain] (lines 748-750). *)
Fixpoint chainLoop (n : nat) (st : MLTA) (CV : option Value)
    (TyList : list typeidx_t) (NextV : option Value) (Visited : gset Value)
    : res (list typeidx_t * option Value) :=
  match n with
  | O => NoFuel
  | S n =>
      '(ret, TyList, NextV, Visited) ←
        nextLayerBaseType value_fuel st CV TyList NextV Visited;
      if (ret : bool) then chainLoop n st NextV TyList NextV Visited
      else Ret (TyList, NextV)
  end.

Definition isArgument (V : Value) : bool :=
  match kind (node ir V) with KArgument => true | _ => false end.

(** Lines 756-772 *)
Definition chainComplete (NextV : option Value) : bool :=
  match NextV with
  | None => false
  | Some NV =>
      if isArgument NV && isPointerTy (getType ir NV) then false
      else
        negb (existsb (λ U, match kind (node ir U) with
                            | KStore _ PO => bool_decide (NV = PO)
                            | _ => false
                            end) (users ir NV))
  end.

(** [MLTA::getBaseTypeChain]: the chain and [Complete] are passed by
    reference; the function always returns [true]. *)
Definition getBaseTypeChain (st : MLTA) (Chain : list typeidx_t)
    (V : option Value) (DL : DataLayout)
    : res (list typeidx_t * bool * MLTA) :=
  '(BTy, _) ← getBaseType value_fuel st V ∅;
  let Chain :=
    match BTy with
    | Some T => Chain ++ [typeidx_c T 0%Z]
    | None => Chain
    end in
  '(TyList, NextV) ← chainLoop value_fuel st V [] None ∅;
  let Chain := Chain ++ TyList in
  let Complete := chainComplete NextV in
  let st :=
    match last Chain with
    | Some back =>
        if Complete then st
        else set_typeCapSet ({[typeHash back.1 DL]} ∪ typeCapSet st) st
    | None => st
    end in
  Ret (Chain, Complete, st).

(** [MLTA::escapeType] *)
Definition escapeType (st : MLTA) (V : Value) (DL : DataLayout) : res MLTA :=
  '(TyChain, _, st) ← getBaseTypeChain st [] (Some V) DL;
  Ret (set_typeEscapeSet
         (list_to_set ((λ T : typeidx_t, typeIdxHash T.1 DL T.2) <$> TyChain)
          ∪ typeEscapeSet st) st).

(** [MLTA::confineTargetFunction] *)
Definition confineTargetFunction (st : MLTA) (V : Value) (F : FuncId)
    (DL : DataLayout) : res MLTA :=
  if isIntrinsic (func ir F) then Ret st
  else
    '(TyChain, Complete, st) ← getBaseTypeChain st [] (Some V) DL;
    let st :=
      set_typeIdxFuncsMap
        (foldl (λ m (TI : typeidx_t), insert2 m (typeHash TI.1 DL) TI.2 F)
               (typeIdxFuncsMap st) TyChain) st in
    Ret (if (Complete : bool) then st
         else
           match last TyChain with
           | Some back =>
               set_typeCapSet ({[typeHash back.1 DL]} ∪ typeCapSet st) st
           | None => set_typeCapSet ({[funcHash F]} ∪ typeCapSet st) st
           end).

(** [MLTA::propagateType] *)
Definition propagateType (st : MLTA) (ToV : Value) (FromTy : Ty)
    (DL : DataLayout) (Idx : Z) : res MLTA :=
  '(TyChain, _, st) ← getBaseTypeChain st [] (Some ToV) DL;
  Ret (set_typeIdxPropMap
         (foldl (λ m (T : typeidx_t),
                   if bool_decide (typeHash T.1 DL = typeHash FromTy DL)
                      && bool_decide (T.2 = Idx)
                   then m
                   else insert2 m (typeHash T.1 DL) T.2
                                (hashidx_c (typeHash FromTy DL) Idx))
                (typeIdxPropMap st) TyChain) st).

End LayerWalker.

Arguments value_fuel ir : simpl never.

(* ===================================================================== *)
(** ** The resolver *)
(* ===================================================================== *)

(** The order of [std::set<pair<size_t, int>>]. *)
Definition hashidx_le (a b : hashidx_t) : Prop :=
  (a.1 < b.1)%N ∨ (a.1 = b.1 ∧ (a.2 ≤ b.2)%Z).

#[export] Instance hashidx_le_dec : RelDecision hashidx_le.
Proof. intros a b. unfold hashidx_le. apply _. Defined.

(** The elements of a [set<hashidx_t>] in the order a range-for visits
    them. *)
Definition in_order (X : gset hashidx_t) : list hashidx_t :=
  merge_sort hashidx_le (elements X).

(** Every edge target of the propagation graph. *)
Definition propTargets (m : gmap N (gmap Z (gset hashidx_t))) : gset hashidx_t :=
  ⋃ ((λ hm : N * gmap Z (gset hashidx_t), ⋃ (snd <$> map_to_list hm.2))
       <$> map_to_list m).

(** A bound on the number of rounds of the loop of [getDependentTypes]:
    a type-index pair is expanded once, and an expansion appends at most
    the targets of two entries of the graph to the work list. *)
Definition prop_fuel (m : gmap N (gmap Z (gset hashidx_t))) : nat :=
  let n := size (propTargets m) in
  S (S (S n * S (2 * n))).
Arguments prop_fuel m : simpl never.

Section Resolver.
Context `{!Host}.
Variable cfg : Config.
Variable ir : IR.
Variable MAX_TYPE_LAYER : Z.

(** [MLTA::intersectFuncSets (FS1, FS2, FS)]: the value of [FS] at the
    return. *)
Definition intersectFuncSets (FS1 FS2 : FuncSet) : FuncSet :=
  filter (λ F, F ∈ FS2) FS1.

(** [MLTA::getTargetsWithLayerType]: [FS] is passed by reference and is
    only added to when [Idx] is [-1]. *)
Definition getTargetsWithLayerType (st : MLTA) (TyHash : N) (Idx : Z)
    (FS : FuncSet) : FuncSet :=
  if decide (Idx = (-1)%Z)
  then FS ∪ ⋃ (snd <$> map_to_list (default ∅ (typeIdxFuncsMap st !! TyHash)))
  else at2 (typeIdxFuncsMap st) TyHash Idx
       ∪ at2 (typeIdxFuncsMap st) TyHash (-1)%Z.

(** The loop of [MLTA::getDependentTypes] (lines 1037-1053) over the work
    list [LT]. *)
Fixpoint dependentLoop (n : nat) (st : MLTA) (LT : list hashidx_t)
    (Visited PropSet : gset hashidx_t) : res (gset hashidx_t) :=
  match n with
  | O => NoFuel
  | S n =>
      match LT with
      | [] => Ret PropSet
      | TI :: LT =>
          if decide (TI ∈ Visited) then dependentLoop n st LT Visited PropSet
          else
            let Visited := {[TI]} ∪ Visited in
            let here := at2 (typeIdxPropMap st) TI.1 TI.2 in
            let any := at2 (typeIdxPropMap st) TI.1 (-1)%Z in
            dependentLoop n st (LT ++ in_order here ++ in_order any)
                          Visited (PropSet ∪ here ∪ any)
      end
  end.

(** [MLTA::getDependentTypes]: [PropSet] is passed by reference. *)
Definition getDependentTypes (st : MLTA) (T : Ty) (Idx : Z)
    (PropSet : gset hashidx_t) (DL : DataLayout) : res (gset hashidx_t) :=
  dependentLoop (prop_fuel (typeIdxPropMap st)) st
                [hashidx_c (typeHash T DL) Idx] ∅ PropSet.

(** The local variables of [findCalleesWithMLTA] that live across the
    rounds of its loops, with the cache. *)
Record Walk : Type := {
  FS : FuncSet;
  FS1 : FuncSet;
  FS2 : FuncSet;
  PrevLayerTy : Ty;
  CV : option Value;
  LayerNo : Z;
  ContinueNextLayer : bool;
  Matched : gmap N FuncSet;
}.

(** Lines 1196-1201: the targets of the dependent types are added to
    [FS1]; [FS2] is the scratch set. *)
Definition addDependentTargets (st : MLTA) (Props : list hashidx_t)
    (FS1 FS2 : FuncSet) : FuncSet * FuncSet :=
  foldl (λ (acc : FuncSet * FuncSet) (Pr : hashidx_t),
           let FS2 := getTargetsWithLayerType st Pr.1 Pr.2 acc.2 in
           (acc.1 ∪ FS2, FS2))
        (FS1, FS2) Props.

(** One round of the loop over [TyList] (lines 1146-1219), from the
    increment of [LayerNo] on.  The flag is [false] when the round ends in
    a [break]. *)
Definition layerStep (st : MLTA) (DL : DataLayout) (NextV : option Value)
    (TyIdx : typeidx_t) (w : Walk) : res (Walk * bool) :=
  let LayerNo' := (LayerNo w + 1)%Z in
  let TyIdxHash := typeIdxHash TyIdx.1 DL TyIdx.2 in
  let TyIdxHash_1 := typeIdxHash TyIdx.1 DL (-1)%Z in
  found ←
    match Matched w !! TyIdxHash with
    | Some cached => Ret (Some (cached, FS2 w, Matched w))
    | None =>
        if SOUND_MODE cfg
           && (bool_decide (TyIdxHash ∈ typeEscapeSet st)
               || bool_decide (TyIdxHash_1 ∈ typeEscapeSet st))
        then Ret None
        else
          let FS1' :=
            getTargetsWithLayerType st (typeHash TyIdx.1 DL) TyIdx.2
                                    (FS1 w) in
          PropSet ← getDependentTypes st TyIdx.1 TyIdx.2 ∅ DL;
          let '(FS1', FS2') :=
            addDependentTargets st (in_order PropSet) FS1' (FS2 w) in
          Ret (Some (FS1', FS2', <[TyIdxHash := FS1']> (Matched w)))
    end;
  match found with
  | None =>
      Ret ({| FS := FS w; FS1 := FS1 w; FS2 := FS2 w;
              PrevLayerTy := PrevLayerTy w; CV := CV w;
              LayerNo := LayerNo';
              ContinueNextLayer := ContinueNextLayer w;
              Matched := Matched w |}, false)
  | Some (FS1', _, Matched') =>
      let FS2' := intersectFuncSets FS1' (FS w) in
      if SOUND_MODE cfg
         && bool_decide (typeHash TyIdx.1 DL ∈ typeCapSet st)
      then
        Ret ({| FS := FS2'; FS1 := FS1'; FS2 := FS2';
                PrevLayerTy := PrevLayerTy w; CV := NextV;
                LayerNo := LayerNo';
                ContinueNextLayer := false;
                Matched := Matched' |}, false)
      else
        Ret ({| FS := FS2'; FS1 := FS1'; FS2 := FS2';
                PrevLayerTy := TyIdx.1; CV := NextV;
                LayerNo := LayerNo';
                ContinueNextLayer := ContinueNextLayer w;
                Matched := Matched' |}, true)
  end.

(** The loop over [TyList] (lines 1142-1220).  A [break] ends the loop
    with the state it has reached. *)
Fixpoint forLayers (st : MLTA) (DL : DataLayout) (NextV : option Value)
    (TyList : list typeidx_t) (w : Walk) : res Walk :=
  match TyList with
  | [] => Ret w
  | TyIdx :: TyList =>
      if decide (MAX_TYPE_LAYER ≤ LayerNo w)%Z then Ret w
      else
        '(w, go) ← layerStep st DL NextV TyIdx w;
        if (go : bool) then forLayers st DL NextV TyList w else Ret w
  end.

(** The loop [while (ContinueNextLayer)] (lines 1121-1222).  [TyList] is
    empty at the head of every round. *)
Fixpoint whileLayers (n : nat) (st : MLTA) (DL : DataLayout)
    (NextV : option Value) (w : Walk) : res Walk :=
  match n with
  | O => NoFuel
  | S n =>
      if negb (ContinueNextLayer w) then Ret w
      else if decide (MAX_TYPE_LAYER ≤ LayerNo w)%Z then Ret w
      else if SOUND_MODE cfg
              && bool_decide (typeHash (PrevLayerTy w) DL ∈ typeCapSet st)
      then Ret w
      else
        '(_, TyList, NextV, _) ←
          nextLayerBaseType cfg ir (value_fuel ir) st (CV w) [] NextV ∅;
        match TyList with
        | [] => Ret w
        | _ =>
            w ← forLayers st DL NextV TyList w;
            whileLayers n st DL NextV w
        end
  end.

(** The number of rounds of [whileLayers]: every round but the last adds
    at least one to [LayerNo], which starts at 1. *)
Definition layer_fuel : nat := S (Z.to_nat (MAX_TYPE_LAYER)).

(** [MLTA::findCalleesWithMLTA]: the returned flag, the value of [FS] at
    the return and the state (only its cache can have changed). *)
Definition findCalleesWithMLTA (st : MLTA) (CI : Value)
    : res (bool * FuncSet * MLTA) :=
  match kind (node ir CI) with
  | KCall FTy _ CalledOperand =>
      let seed := default ∅ (sigFuncsMap st !! callHash CI) in
      if decide (seed = ∅) then Ret (false, seed, st)
      else
        match parent (node ir CI) with
        | None => Crash NullPointer
        | Some caller =>
            let DL := DLMap (getParent (func ir caller)) in
            w ← whileLayers layer_fuel st DL None
                  {| FS := seed; FS1 := ∅; FS2 := ∅;
                     PrevLayerTy := FTy; CV := Some CalledOperand;
                     LayerNo := 1; ContinueNextLayer := true;
                     Matched := MatchedFuncsMap st |};
            Ret (true, FS w, set_MatchedFuncsMap (Matched w) st)
        end
  | _ => Crash FailedAssertion
  end.

End Resolver.

Arguments layer_fuel MAX_TYPE_LAYER : simpl never.

(* ===================================================================== *)
(** ** The type-flow collector: confinement *)
(* ===================================================================== *)

Section Collector.
Context `{!Host}.
Variable cfg : Config.
Variable ir : IR.

Definition asFunction (V : Value) : option FuncId :=
  match kind (node ir V) with KFunction F => Some F | _ => None end.

(** [dyn_cast<User>]: arguments and inline assembly are no users. *)
Definition asUser (V : Value) : option Value :=
  match kind (node ir V) with
  | KArgument | KInlineAsm => None
  | _ => Some V
  end.

Definition isConstantPointerNull (V : Value) : bool :=
  match kind (node ir V) with KConstantPointerNull => true | _ => false end.

Definition isGlobalVariable (V : Value) : bool :=
  match kind (node ir V) with KGlobalVariable _ => true | _ => false end.

(** The climb through the containers of a function found in an
    initializer (lines 405-437); [m] is [typeIdxFuncsMap]. *)
Fixpoint confineContainers (n : nat) (DL : DataLayout)
    (ContainersMap : gmap Value (Value * Z)) (FoundF : FuncId)
    (CV : Value) (Visited : gset Value) (m : gmap N (gmap Z FuncSet))
    : res (gmap N (gmap Z FuncSet)) :=
  match n with
  | O => NoFuel
  | S n =>
      match ContainersMap !! CV with
      | None => Ret m
      | Some Container =>
          let CTy := getType ir Container.1 in
          let TyH := typeHash CTy DL in
          let m :=
            insert2 m TyH
              (if MLTA_FIELD_INSENSITIVE cfg then 0%Z else Container.2)
              FoundF in
          let Visited := {[CV]} ∪ Visited in
          if decide (Container.1 ∈ Visited) then Ret m
          else confineContainers n DL ContainersMap FoundF Container.1
                                 Visited m
      end
  end.

(** The state of the walk of [typeConfineInInitializer]: the work list
    [LU] (a null pointer is [None]), [ContainersMap], and the tables. *)
Definition initState : Type :=
  list (option Value) * gmap Value (Value * Z) * MLTA.

(** [LU.push_back (dyn_cast<User> (V))] *)
Definition pushUser (LU : list (option Value)) (V : Value)
    : list (option Value) :=
  LU ++ [asUser V].

(** What the body of the operand loop decides for an operand [O] of [U]
    (lines 334-400), before the function it has found is confined: the
    function, the work list and the tables. *)
Definition classifyOperand (GV : Value) (DL : DataLayout) (U Opnd : Value)
    (LU : list (option Value)) (st : MLTA)
    : res (option FuncId * list (option Value) * MLTA) :=
  let OTy := getType ir Opnd in
  match kind (node ir Opnd) with
  | KFunction F => Ret (Some F, LU, st)
  | k =>
      if isCompositeType OTy then Ret (None, pushUser LU Opnd, st)
      else
        match k with
        | KPtrToInt op0 =>
            match asFunction op0 with
            | Some F => Ret (Some F, LU, st)
            | None => Ret (None, pushUser LU op0, st)
            end
        | KBitCast op0 =>
            match asFunction op0 with
            | Some CF =>
                let st :=
                  if isStructTy (getType ir U) then st
                  else
                    set_VTableFuncsMap
                      (<[GV := {[CF]} ∪ default ∅ (VTableFuncsMap st !! GV)]>
                         (VTableFuncsMap st)) st in
                Ret (Some CF, LU, st)
            | None => Ret (None, pushUser LU op0, st)
            end
        | _ =>
            match OTy with
            | PointerTy T =>
                if isConstantPointerNull Opnd then Ret (None, LU, st)
                else
                  match asUser Opnd with
                  | None => Crash FailedAssertion
                  | Some _ =>
                      let st :=
                        if isGlobalVariable Opnd && isStructTy T
                        then set_typeCapSet
                               ({[typeHash T DL]} ∪ typeCapSet st) st
                        else st in
                      Ret (None, pushUser LU Opnd, st)
                  end
            | _ => Ret (None, LU, st)
            end
        end
  end.

(** The loop over the operands of [U] (lines 326-439); [No] is the
    operand number of the head of [ops]. *)
Fixpoint initOperands (GV : Value) (DL : DataLayout) (U : Value)
    (ops : list Value) (No : nat) (s : initState) : res initState :=
  match ops with
  | [] => Ret s
  | Opnd :: ops =>
      let '(LU, ContainersMap, st) := s in
      let ContainersMap := <[Opnd := (U, Z.of_nat No)]> ContainersMap in
      '(FoundF, LU, st) ← classifyOperand GV DL U Opnd LU st;
      st ← match FoundF with
           | Some F =>
               if isIntrinsic (func ir F) then Ret st
               else
                 m ← confineContainers (S (size ContainersMap)) DL
                       ContainersMap F Opnd ∅ (typeIdxFuncsMap st);
                 Ret (set_typeIdxFuncsMap m st)
           | None => Ret st
           end;
      initOperands GV DL U ops (S No) (LU, ContainersMap, st)
  end.

(** The loop over the work list (lines 308-440). *)
Fixpoint initLoop (n : nat) (GV : Value) (DL : DataLayout)
    (Visited : gset Value) (s : initState) : res MLTA :=
  match n with
  | O => NoFuel
  | S n =>
      let '(LU, ContainersMap, st) := s in
      match LU with
      | [] => Ret st
      | None :: _ => Crash NullPointer
      | Some U :: LU =>
          if decide (U ∈ Visited)
          then initLoop n GV DL Visited (LU, ContainersMap, st)
          else
            let Visited := {[U]} ∪ Visited in
            let UTy := getType ir U in
            let ops := operands (kind (node ir U)) in
            if isFunctionTy UTy then Crash FailedAssertion
            else
              match UTy, ops with
              | StructTy C name, [] =>
                  initLoop n GV DL Visited (LU, ContainersMap, st)
              | StructTy C name, _ :: _ =>
                  if decide (length (struct_body ir C name) = length ops)
                  then
                    s ← initOperands GV DL U ops 0 (LU, ContainersMap, st);
                    initLoop n GV DL Visited s
                  else Crash FailedAssertion
              | _, _ =>
                  s ← initOperands GV DL U ops 0 (LU, ContainersMap, st);
                  initLoop n GV DL Visited s
              end
      end
  end.

(** A bound on the rounds of [initLoop]: a user is expanded once, and its
    expansion appends at most one entry for each of its operands. *)
Definition init_fuel : nat :=
  S (S (sum_list_with
          (λ vn : Value * Node, S (length (operands (kind vn.2))))
          (map_to_list (values ir)))).

(** [MLTA::typeConfineInInitializer]: the returned flag and the state. *)
Definition typeConfineInInitializer (st : MLTA) (GV : Value)
    (DL : DataLayout) : res (bool * MLTA) :=
  match kind (node ir GV) with
  | KGlobalVariable (Some Ini) =>
      match kind (node ir Ini) with
      | KConstantAggregate _ =>
          st ← initLoop init_fuel GV DL ∅ ([Some Ini], ∅, st);
          Ret (true, st)
      | _ => Ret (false, st)
      end
  | _ => Crash FailedAssertion
  end.

(** [MLTA::getBaseFunction] *)
Fixpoint baseFunctionLoop (n : nat) (CV : Value) : res (option FuncId) :=
  match n with
  | O => NoFuel
  | S n =>
      match kind (node ir CV) with
      | KBitCast op0 =>
          match asFunction op0 with
          | Some F =>
              if isIntrinsic (func ir F) then baseFunctionLoop n op0
              else Ret (Some F)
          | None => baseFunctionLoop n op0
          end
      | _ => Ret None
      end
  end.

Definition getBaseFunction (V : Value) : res (option FuncId) :=
  match asFunction V with
  | Some F =>
      if isIntrinsic (func ir F) then baseFunctionLoop (value_fuel ir) V
      else Ret (Some F)
  | None => baseFunctionLoop (value_fuel ir) V
  end.

(** [getParamByArgNo], whose argument number is a [uint8_t]. *)
Definition getParamByArgNo (F : FuncId) (ArgNo : nat) : option Value :=
  Args (func ir F) !! (ArgNo `mod` 256)%nat.

(** [CallBase::isIndirectCall] *)
Definition isConstant (V : Value) : bool :=
  match kind (node ir V) with
  | KFunction _ | KGlobalVariable _ | KConstantPointerNull
  | KConstantInt _ _ | KConstantData | KConstantAggregate _ => true
  | KGEP _ _ _ _ | KBitCast _ | KPtrToInt _ =>
      bool_decide (parent (node ir V) = None)
  | _ => false
  end.

Definition isIndirectCall (callee : Value) : bool :=
  if bool_decide (is_Some (asFunction callee)) || isConstant callee
  then false
  else negb (isInlineAsm ir callee).

Definition isStoreOrBitCast (U : Value) : bool :=
  match kind (node ir U) with
  | KStore _ _ | KBitCast _ => true
  | _ => false
  end.

Fixpoint confineAll (st : MLTA) (Vs : list Value) (F : FuncId)
    (DL : DataLayout) : res MLTA :=
  match Vs with
  | [] => Ret st
  | V :: Vs =>
      st ← confineTargetFunction cfg ir st V F DL;
      confineAll st Vs F DL
  end.

(** The loop over the operands of a call (lines 468-496). *)
Fixpoint confineCallOperands (st : MLTA) (callee : Value)
    (ops : list Value) (No : nat) (DL : DataLayout) : res MLTA :=
  match ops with
  | [] => Ret st
  | Opnd :: ops =>
      st ←
        match asFunction Opnd with
        | Some F =>
            if isIntrinsic (func ir F) then Ret st
            else if isIndirectCall callee
            then confineTargetFunction cfg ir st Opnd F DL
            else
              match asFunction callee with
              | None => Ret st
              | Some CF =>
                  let CF :=
                    if isDeclaration (func ir CF)
                    then GlobalFuncs (getGUID (func ir CF))
                    else Some CF in
                  match CF with
                  | None => Ret st
                  | Some CF =>
                      match getParamByArgNo CF No with
                      | Some Arg =>
                          confineAll st
                            (filter (λ U, isStoreOrBitCast U = true)
                                    (users ir Arg)) F DL
                      | None => Ret st
                      end
                  end
              end
        | None => Ret st
        end;
      confineCallOperands st callee ops (S No) DL
  end.

(** One instruction of [typeConfineInFunction] (lines 453-497). *)
Definition confineInstruction (st : MLTA) (F : FuncId) (I : Value)
    (DL : DataLayout) : res MLTA :=
  match kind (node ir I) with
  | KStore VO PO =>
      CF ← getBaseFunction (stripPointerCasts VO);
      match CF with
      | None => Ret st
      | Some CF =>
          if isIntrinsic (func ir F) then Ret st
          else confineTargetFunction cfg ir st PO CF DL
      end
  | KCall _ args callee =>
      confineCallOperands st callee (args ++ [callee]) 0 DL
  | _ => Ret st
  end.

Fixpoint confineInstructions (st : MLTA) (F : FuncId) (Is : list Value)
    (DL : DataLayout) : res MLTA :=
  match Is with
  | [] => Ret st
  | Inst :: Is =>
      st ← confineInstruction st F Inst DL;
      confineInstructions st F Is DL
  end.

(** [MLTA::typeConfineInFunction] *)
Definition typeConfineInFunction (st : MLTA) (F : FuncId) (DL : DataLayout)
    : res (bool * MLTA) :=
  st ← confineInstructions st F (instructions (func ir F)) DL;
  Ret (true, st).

(** The collection phase, as far as it writes [typeIdxFuncsMap]: the
    caller of the pass runs the two confinement passes over the globals
    and the functions of every module, in some order, and collects the
    alias map of a function before it confines in it. *)
Inductive CollectStep : Type :=
| ConfineInInitializer (GV : Value) (DL : DataLayout)
| ConfineInFunction (F : FuncId) (DL : DataLayout)
| CollectAlias (F : FuncId).

Fixpoint collect (st : MLTA) (steps : list CollectStep) : res MLTA :=
  match steps with
  | [] => Ret st
  | ConfineInInitializer GV DL :: steps =>
      '(_, st) ← typeConfineInInitializer st GV DL;
      collect st steps
  | ConfineInFunction F DL :: steps =>
      '(_, st) ← typeConfineInFunction st F DL;
      collect st steps
  | CollectAlias F :: steps =>
      collect (collectAliasStructPtr ir st F) steps
  end.

End Collector.

Arguments init_fuel ir : simpl never.

(* ===================================================================== *)
(** ** The type-flow collector: propagation *)
(* ===================================================================== *)

Section Propagation.
Context `{!Host}.
Variable cfg : Config.
Variable ir : IR.

(** [Function::getName], which only this pass reads, and the default that
    the declaration of [propagateType] in MLTA.h gives to its parameter
    [Idx]. *)
Variable getName : FuncId → string.
Variable DefaultIdx : Z.

(** [MLTA::getFuncPtrType] *)
Definition getFuncPtrType (V : Value) : option Ty :=
  match getType ir V with
  | PointerTy ETy => if isFunctionTy ETy then Some ETy else None
  | _ => None
  end.

(** [MLTA::getVTable].  The recursion follows the operands with no set of
    visited values; [n] bounds its depth. *)
Fixpoint getVTable (n : nat) (st : MLTA) (V : Value) : res (option Value) :=
  match n with
  | O => NoFuel
  | S n =>
      match kind (node ir V) with
      | KBitCast op0 => getVTable n st op0
      | KGEP PO _ _ _ => getVTable n st PO
      | _ =>
          if bool_decide (is_Some (VTableFuncsMap st !! V)) then Ret (Some V)
          else Ret None
      end
  end.

(** [User::getOperand], which asserts that the operand exists. *)
Definition getOperand (U : Value) (i : nat) : res Value :=
  match operands (kind (node ir U)) !! i with
  | Some Opnd => Ret Opnd
  | None => Crash FailedAssertion
  end.

Definition isConstantAggregate (V : Value) : bool :=
  match kind (node ir V) with KConstantAggregate _ => true | _ => false end.

Definition isConstantData (V : Value) : bool :=
  match kind (node ir V) with
  | KConstantPointerNull | KConstantInt _ _ | KConstantData => true
  | _ => false
  end.

(** Lines 513-529: the pointer operand and the value operand of a store,
    or of a call of the intrinsic that copies a struct. *)
Definition propOperands (Inst : Value) : res (option (Value * Value)) :=
  match kind (node ir Inst) with
  | KStore VO PO => Ret (Some (PO, VO))
  | KCall _ _ CV =>
      match asFunction ir CV with
      | Some CF =>
          if bool_decide (getName CF = "llvm.memcpy.p0i8.p0i8.i64")
          then
            PO ← getOperand Inst 0;
            VO ← getOperand Inst 1;
            Ret (Some (PO, VO))
          else Ret None
      | None => Ret None
      end
  | _ => Ret None
  end.

(** The loop of lines 545-547. *)
Fixpoint propagateLayers (st : MLTA) (PO : Value) (TyList : list typeidx_t)
    (DL : DataLayout) : res MLTA :=
  match TyList with
  | [] => Ret st
  | TyIdx :: TyList =>
      st ← propagateType cfg ir st PO TyIdx.1 DL TyIdx.2;
      propagateLayers st PO TyList DL
  end.

(** Lines 531-577.  The flag is [true] when the round of the loop over the
    instructions ends here, in a [continue]. *)
Definition propagateValue (st : MLTA) (PO VO : Value) (DL : DataLayout)
    : res (MLTA * bool) :=
  if isConstantAggregate VO || isConstantData VO then Ret (st, true)
  else
    '(_, TyList, _, _) ←
      nextLayerBaseType cfg ir (value_fuel ir) st (Some VO) [] None ∅;
    match TyList with
    | _ :: _ =>
        st ← propagateLayers st PO TyList DL;
        Ret (st, true)
    | [] =>
        '(BTy, _) ← getBaseType ir (value_fuel ir) st (Some VO) ∅;
        match BTy with
        | Some BTy =>
            st ← propagateType cfg ir st PO BTy DL DefaultIdx;
            Ret (st, true)
        | None =>
            match getFuncPtrType (stripPointerCasts VO) with
            | Some FTy =>
                BF ← getBaseFunction ir VO;
                match BF with
                | None =>
                    st ← propagateType cfg ir st PO FTy DL DefaultIdx;
                    Ret (st, true)
                | Some _ => Ret (st, true)
                end
            | None =>
                if negb (isPointerTy (getType ir VO)) then Ret (st, true)
                else
                  st ← escapeType cfg ir st PO DL;
                  Ret (st, false)
            end
        end
    end.

(** Lines 581-593: the casts an instruction adds to [CastSet]. *)
Definition castsOf (Inst : Value) : gset Value :=
  (if bool_decide (is_Some (asCastInst (node ir Inst))) then {[Inst]} else ∅)
  ∪ list_to_set (filter (λ Opnd, isBitCastOperator ir Opnd = true)
                        (operands (kind (node ir Inst)))).

(** One round of the loop over the instructions (lines 511-593). *)
Definition propInstruction (DL : DataLayout) (acc : MLTA * gset Value)
    (Inst : Value) : res (MLTA * gset Value) :=
  let '(st, CastSet) := acc in
  pv ← propOperands Inst;
  '(st, skip) ←
    match pv with
    | Some (PO, VO) => propagateValue st PO VO DL
    | None => Ret (st, false)
    end;
  Ret (st, if (skip : bool) then CastSet else castsOf Inst ∪ CastSet).

Fixpoint propInstructions (DL : DataLayout) (acc : MLTA * gset Value)
    (Is : list Value) : res (MLTA * gset Value) :=
  match Is with
  | [] => Ret acc
  | Inst :: Is =>
      acc ← propInstruction DL acc Inst;
      propInstructions DL acc Is
  end.

(** One round of the loop over [CastSet] (lines 596-613): the types are
    read, and nothing is done with them (line 610 is a comment). *)
Definition castStep (Cast : Value) : res unit :=
  op0 ← getOperand Cast 0;
  let FromTy := getType ir op0 in
  let ToTy := getType ir Cast in
  if isPointerTy FromTy && isPointerTy ToTy
  then
    EFromTy ← getPointerElementType FromTy;
    EToTy ← getPointerElementType ToTy;
    Ret ()
  else Ret ().

Fixpoint castLoop (Casts : list Value) : res unit :=
  match Casts with
  | [] => Ret ()
  | Cast :: Casts => _ ← castStep Cast; castLoop Casts
  end.

(** [MLTA::typePropInFunction]: the returned flag and the state. *)
Definition typePropInFunction (st : MLTA) (F : FuncId) (DL : DataLayout)
    : res (bool * MLTA) :=
  '(st, CastSet) ← propInstructions DL (st, ∅) (instructions (func ir F));
  _ ← castLoop (elements CastSet);
  Ret (true, st).

End Propagation.

(* ===================================================================== *)
(** ** Concrete programs *)
(* ===================================================================== *)

(** A host for the concrete programs below: structural hashes, one
    [LLVMContext] for each module (as [loadModule] of esss.cpp creates
    them), 64-bit pointers. *)
Fixpoint strCode (s : string) : N :=
  match s with
  | EmptyString => 0%N
  | String c s => (Ascii.N_of_ascii c + 256 * strCode s)%N
  end.

Fixpoint tyCode (T : Ty) : N :=
  match T with
  | VoidTy _ => 1
  | IntegerTy _ w => 2 + 8 * w
  | PointerTy E => 3 + 8 * tyCode E
  | StructTy _ n => 4 + 8 * strCode n
  | ArrayTy E n => 5 + 8 * (tyCode E * 64 + n)
  | VectorTy E n => 6 + 8 * (tyCode E * 64 + n)
  | FunctionTy _ s => 7 + 8 * Npos s
  | OtherTy _ k => 8 * Npos k
  end%N.

Definition toyHost : Host := {|
  typeHash T _ := tyCode T;
  typeIdxHash T _ i := (tyCode T * 1024 + Z.to_N (i + 1))%N;
  callHash _ := 7%N;
  funcHash F := (100 + Npos F)%N;
  DLMap _ := 1%positive;
  Int8PtrTy M := PointerTy (IntegerTy M 8);
  IntPtrTy M := IntegerTy M 64;
  getGEPIndicesForOffset _ _ _ _ := [];
  stripPointerCasts V := V;
  GlobalFuncs _ := None;
|}.

Section Programs.
Local Open Scope positive_scope.

Definition mkNode (k : Kind) (t : Ty) (p : option FuncId) : Node :=
  {| kind := k; type := t; parent := p |}.

Definition i8 : Ty := IntegerTy 1 8.
Definition i32 : Ty := IntegerTy 1 32.
Definition i64 : Ty := IntegerTy 1 64.
Definition fnTy : Ty := FunctionTy 1 1.
Definition fnPtr : Ty := PointerTy fnTy.
Definition tS : Ty := StructTy 1 "S".
Definition tA : Ty := StructTy 1 "A".
Definition tR : Ty := StructTy 1 "R".
Definition tV : Ty := StructTy 1 "V".

Definition toyBodies (C : LLVMContext) (n : string) : list Ty :=
  if decide (n = "S") then [i32; tA; i32]
  else if decide (n = "A") then [i32; i32; fnPtr]
  else if decide (n = "R") then [PointerTy tS]
  else if decide (n = "V") then [fnPtr; fnPtr]
  else [].

Definition plainFunction (args : list Value) (va : bool) (insts : list Value)
    : FunctionInfo :=
  {| Args := args; ReturnType := i32; isVarArg := va; isIntrinsic := false;
     isDeclaration := false; getParent := 1%positive; getGUID := 0%N;
     instructions := insts |}.

Definition emptyMLTA : MLTA :=
  {| typeIdxFuncsMap := ∅; typeIdxPropMap := ∅; typeCapSet := ∅;
     typeEscapeSet := ∅; VTableFuncsMap := ∅; AliasStructPtrMap := ∅;
     MatchedFuncsMap := ∅; sigFuncsMap := ∅; AddressTakenFuncs := [] |}.

(** *** Types of two modules

    The callee lives in module 1 and the caller in module 2, each with a
    context of its own: [i8*] as module 1 has it, and the pointer-sized
    integer [i64] as module 2 has it. *)
Definition calleeModule : ModuleId := 1.
Definition callerModule : ModuleId := 2.
Definition calleeI8Ptr : Ty := PointerTy (IntegerTy 1 8).
Definition callerIntPtr : Ty := IntegerTy 2 64.

(** *** A call through two nested structs

    In function 10:
<<
      %5 = getelementptr %R, %R* %6, i64 0, i32 0      ; %6 an argument
      %4 = load %S*, %S** %5
      %3 = getelementptr %S, %S* %4, i64 0, i32 1, i32 2
      %2 = load i32()*, i32()** %3
      %1 = call i32 %2()
>>
    with [%S = { i32, %A, i32 }], [%A = { i32, i32, i32()* }] and
    [%R = { %S* }].  The layers of the callee are (A, 2), (S, 1) and
    then (R, 0). *)
Definition nestedIR : IR := {|
  values := list_to_map [
    (1%positive, mkNode (KCall fnTy [] 2) i32 (Some 10%positive));
    (2%positive, mkNode (KLoad 3) fnPtr (Some 10%positive));
    (3%positive, mkNode (KGEP 4 tS 20 [21%positive; 22%positive])
                        (PointerTy fnPtr) (Some 10%positive));
    (4%positive, mkNode (KLoad 5) (PointerTy tS) (Some 10%positive));
    (5%positive, mkNode (KGEP 6 tR 20 [20%positive])
                        (PointerTy (PointerTy tS)) (Some 10%positive));
    (6%positive, mkNode KArgument (PointerTy tR) None);
    (20%positive, mkNode (KConstantInt 64 0%Z) i64 None);
    (21%positive, mkNode (KConstantInt 32 1%Z) i32 None);
    (22%positive, mkNode (KConstantInt 32 2%Z) i32 None)];
  func := λ _, plainFunction [] false [5; 4; 3; 2; 1]%positive;
  struct_body := toyBodies;
|}.

Definition nestedCall : Value := 1.
Definition nestedCallee : Value := 2.
Definition nestedBase : Value := 4.
Definition f101 : FuncId := 101.
Definition f102 : FuncId := 102.

Definition soundSensitive : Config :=
  {| SOUND_MODE := true; MLTA_FIELD_INSENSITIVE := false |}.

Definition soundInsensitive : Config :=
  {| SOUND_MODE := true; MLTA_FIELD_INSENSITIVE := true |}.

(** The tables after a collection in which functions 101 and 102 were
    stored into field 2 of [%A], function 101 into field 0 of [%R], and
    field 1 of [%S] escaped; 101, 102 and 103 have the signature of the
    call. *)
Definition nestedTables : MLTA :=
  {| typeIdxFuncsMap :=
       {[ tyCode tA := {[ 2%Z := {[ 101%positive; 102%positive ]} ]};
          tyCode tR := {[ 0%Z := {[ 101%positive ]} ]} ]};
     typeIdxPropMap := ∅;
     typeCapSet := ∅;
     typeEscapeSet := {[ (tyCode tS * 1024 + 2)%N ]};
     VTableFuncsMap := ∅;
     AliasStructPtrMap := ∅;
     MatchedFuncsMap := ∅;
     sigFuncsMap := {[ 7%N := {[ 101%positive; 102%positive; 103%positive ]} ]};
     AddressTakenFuncs := [101%positive; 102%positive; 103%positive] |}.

(** The locals of [findCalleesWithMLTA] on [nestedCall] after the layer
    (A, 2): the walk has reached [nestedBase]. *)
Definition nestedWalk : Walk :=
  {| FS := {[ 101; 102 ]}; FS1 := {[ 101; 102 ]}; FS2 := {[ 101; 102 ]};
     PrevLayerTy := tA; CV := Some 4; LayerNo := 2%Z;
     ContinueNextLayer := true;
     Matched := {[ (tyCode tA * 1024 + 3)%N := {[ 101; 102 ]} ]} |}.

(** The same tables without a function of the call's signature. *)
Definition noSeedTables : MLTA :=
  {| typeIdxFuncsMap := typeIdxFuncsMap nestedTables;
     typeIdxPropMap := ∅; typeCapSet := ∅; typeEscapeSet := ∅;
     VTableFuncsMap := ∅; AliasStructPtrMap := ∅; MatchedFuncsMap := ∅;
     sigFuncsMap := ∅; AddressTakenFuncs := [] |}.

(** *** A variadic callee with more parameters than the call has arguments

    Function 201 is [i32 (i32, i32, ...)], its parameters are the values
    61 and 62; the call [%50 = call i32 %52(i32 %51)] in function 10 has
    one argument. *)
Definition varargIR : IR := {|
  values := list_to_map [
    (50%positive, mkNode (KCall fnTy [51%positive] 52) i32 (Some 10%positive));
    (51%positive, mkNode KArgument i32 None);
    (52%positive, mkNode KArgument fnPtr None);
    (61%positive, mkNode KArgument i32 None);
    (62%positive, mkNode KArgument i32 None)];
  func := λ F, if decide (F = 201%positive)
               then plainFunction [61; 62]%positive true []
               else plainFunction [] false [50%positive];
  struct_body := toyBodies;
|}.

Definition varargCall : Value := 50.

Definition varargTables : MLTA :=
  {| typeIdxFuncsMap := ∅; typeIdxPropMap := ∅; typeCapSet := ∅;
     typeEscapeSet := ∅; VTableFuncsMap := ∅; AliasStructPtrMap := ∅;
     MatchedFuncsMap := ∅; sigFuncsMap := ∅;
     AddressTakenFuncs := [201%positive] |}.

Definition varargCallee : FuncId := 201.

(** *** A table of two functions, and a store into its second field

<<
      @30 = global %V { i32()* @101, i32()* @102 }
      define i32 @10(%V* %8) {
        %7 = getelementptr %V, %V* %8, i64 0, i32 1
        store i32()* @102, i32()** %7
      }
>>
    with [%V = { i32()*, i32()* }]; the values 41 and 42 are the
    functions 101 and 102. *)
Definition confineIR : IR := {|
  values := list_to_map [
    (30, mkNode (KGlobalVariable (Some 31)) (PointerTy tV) None);
    (31, mkNode (KConstantAggregate [41; 42]) tV None);
    (41, mkNode (KFunction 101) fnPtr None);
    (42, mkNode (KFunction 102) fnPtr None);
    (7, mkNode (KGEP 8 tV 20 [21]) (PointerTy fnPtr) (Some 10));
    (8, mkNode KArgument (PointerTy tV) None);
    (9, mkNode (KStore 42 7) (VoidTy 1) (Some 10));
    (20, mkNode (KConstantInt 64 0%Z) i64 None);
    (21, mkNode (KConstantInt 32 1%Z) i32 None)];
  func := λ F, if decide (F = 10) then plainFunction [8] false [7; 9]
               else plainFunction [] false [];
  struct_body := toyBodies;
|}.

Definition confineSteps : list CollectStep :=
  [ConfineInInitializer 30 1; CollectAlias 10; ConfineInFunction 10 1].

(** *** Two casts of one allocation

    In function 10 the call 70 returns [i8*]; 71 casts it to [%S*], 72
    casts it to [%R*]; the call 73 is cast once, by 74. *)
Definition aliasIR : IR := {|
  values := list_to_map [
    (70, mkNode (KCall fnTy [] 79) (PointerTy i8) (Some 10));
    (71, mkNode (KBitCast 70) (PointerTy tS) (Some 10));
    (72, mkNode (KBitCast 70) (PointerTy tR) (Some 10));
    (73, mkNode (KCall fnTy [] 79) (PointerTy i8) (Some 10));
    (74, mkNode (KBitCast 73) (PointerTy tS) (Some 10));
    (79, mkNode KArgument fnPtr None)];
  func := λ _, plainFunction [79] false [70; 71; 72; 73; 74];
  struct_body := toyBodies;
|}.

Definition aliasFunction : FuncId := 10.
Definition allocCastTwice : Value := 70.
Definition firstCast : Value := 71.
Definition allocCastOnce : Value := 73.
Definition onlyCast : Value := 74.

End Programs.

Section MorePrograms.
Local Open Scope positive_scope.

(** The locals of [findCalleesWithMLTA] on [nestedCall] at the head of
    the walk. *)
Definition nestedStart : Walk :=
  {| FS := {[ 101; 102; 103 ]}; FS1 := ∅; FS2 := ∅;
     PrevLayerTy := fnTy; CV := Some nestedCallee; LayerNo := 1%Z;
     ContinueNextLayer := true; Matched := ∅ |}.

(** The tables of [nestedTables] after a propagation in which values of
    type [%R] were stored into field 1 of [%S], and values of type [%V]
    into field 0 of [%R]; and the tables before the second of the two. *)
Definition flowTables : MLTA :=
  {| typeIdxFuncsMap := typeIdxFuncsMap nestedTables;
     typeIdxPropMap :=
       {[ tyCode tS := {[ 1%Z := {[ (tyCode tR, 0%Z) ]} ]};
          tyCode tR := {[ 0%Z := {[ (tyCode tV, (-1)%Z) ]} ]} ]};
     typeCapSet := ∅; typeEscapeSet := ∅;
     VTableFuncsMap := ∅; AliasStructPtrMap := ∅; MatchedFuncsMap := ∅;
     sigFuncsMap := sigFuncsMap nestedTables;
     AddressTakenFuncs := AddressTakenFuncs nestedTables |}.

Definition flowTablesBefore : MLTA :=
  {| typeIdxFuncsMap := typeIdxFuncsMap nestedTables;
     typeIdxPropMap :=
       {[ tyCode tS := {[ 1%Z := {[ (tyCode tR, 0%Z) ]} ]} ]};
     typeCapSet := ∅; typeEscapeSet := ∅;
     VTableFuncsMap := ∅; AliasStructPtrMap := ∅; MatchedFuncsMap := ∅;
     sigFuncsMap := sigFuncsMap nestedTables;
     AddressTakenFuncs := AddressTakenFuncs nestedTables |}.

(** *** A function pointer copied from one struct to another

<<
      define i32 @10(%V* %8, %A* %11) {
        %7 = getelementptr %V, %V* %8, i64 0, i32 1
        %12 = getelementptr %A, %A* %11, i64 0, i32 2
        %13 = load i32()*, i32()** %12
        store i32()* %13, i32()** %7
      }
>>
    Field 2 of [%A] flows into field 1 of [%V]. *)
Definition flowIR : IR := {|
  values := list_to_map [
    (7, mkNode (KGEP 8 tV 20 [21]) (PointerTy fnPtr) (Some 10));
    (8, mkNode KArgument (PointerTy tV) None);
    (11, mkNode KArgument (PointerTy tA) None);
    (12, mkNode (KGEP 11 tA 20 [22]) (PointerTy fnPtr) (Some 10));
    (13, mkNode (KLoad 12) fnPtr (Some 10));
    (14, mkNode (KStore 13 7) (VoidTy 1) (Some 10));
    (20, mkNode (KConstantInt 64 0%Z) i64 None);
    (21, mkNode (KConstantInt 32 1%Z) i32 None);
    (22, mkNode (KConstantInt 32 2%Z) i32 None)];
  func := λ F, if decide (F = 10) then plainFunction [8; 11] false [7; 12; 13; 14]
               else plainFunction [] false [];
  struct_body := toyBodies;
|}.

Definition flowFunction : FuncId := 10.
Definition flowStore : Value := 14.
Definition flowSlot : Value := 7.
Definition flowSlotBase : Value := 8.
Definition flowLoad : Value := 13.
Definition flowField : Value := 12.
Definition flowFieldBase : Value := 11.
Definition two32 : Value := 22.
Definition noNames (F : FuncId) : string := "".
Definition anyField : Z := (-1)%Z.

(** *** Casts of a function and of a table of functions

    The global 30 is a table of one entry, the function 101 (the value
    41) cast to [i8*] (45).  The value 46 is a cast of 45; 47 is a GEP to
    the entry of the table and 48 a cast of that GEP. *)
Definition castIR : IR := {|
  values := list_to_map [
    (30, mkNode (KGlobalVariable (Some 31))
                (PointerTy (ArrayTy (PointerTy i8) 1)) None);
    (31, mkNode (KConstantAggregate [45]) (ArrayTy (PointerTy i8) 1) None);
    (41, mkNode (KFunction 101) fnPtr None);
    (45, mkNode (KBitCast 41) (PointerTy i8) None);
    (46, mkNode (KBitCast 45) (PointerTy i64) None);
    (47, mkNode (KGEP 30 (ArrayTy (PointerTy i8) 1) 20 [20])
                (PointerTy (PointerTy i8)) None);
    (48, mkNode (KBitCast 47) (PointerTy i64) None);
    (20, mkNode (KConstantInt 64 0%Z) i64 None)];
  func := λ _, plainFunction [] false [];
  struct_body := toyBodies;
|}.

Definition castTable : Value := 30.
Definition castOfCast : Value := 46.
Definition castOfEntry : Value := 48.

(** The tables after the initializer pass over the table of [castIR], as
    far as [getVTable] reads them. *)
Definition castTables : MLTA :=
  {| typeIdxFuncsMap := ∅; typeIdxPropMap := ∅; typeCapSet := ∅;
     typeEscapeSet := ∅; VTableFuncsMap := {[ castTable := {[ f101 ]} ]};
     AliasStructPtrMap := ∅; MatchedFuncsMap := ∅; sigFuncsMap := ∅;
     AddressTakenFuncs := [] |}.

(** The rank of a value of the concrete programs: its number. *)
Definition byNumber (V : Value) : nat := Pos.to_nat V.

(** *** A table of functions, a store into it, and a call through it

    The program of [confineIR], and in function 11 a call through field 1
    of [%V]:
<<
      define i32 @11(%V* %18) {
        %17 = getelementptr %V, %V* %18, i64 0, i32 1
        %16 = load i32()*, i32()** %17
        %15 = call i32 %16()
      }
>> *)
Definition tableIR : IR := {|
  values := list_to_map [
    (30, mkNode (KGlobalVariable (Some 31)) (PointerTy tV) None);
    (31, mkNode (KConstantAggregate [41; 42]) tV None);
    (41, mkNode (KFunction 101) fnPtr None);
    (42, mkNode (KFunction 102) fnPtr None);
    (7, mkNode (KGEP 8 tV 20 [21]) (PointerTy fnPtr) (Some 10));
    (8, mkNode KArgument (PointerTy tV) None);
    (9, mkNode (KStore 42 7) (VoidTy 1) (Some 10));
    (15, mkNode (KCall fnTy [] 16) i32 (Some 11));
    (16, mkNode (KLoad 17) fnPtr (Some 11));
    (17, mkNode (KGEP 18 tV 20 [21]) (PointerTy fnPtr) (Some 11));
    (18, mkNode KArgument (PointerTy tV) None);
    (20, mkNode (KConstantInt 64 0%Z) i64 None);
    (21, mkNode (KConstantInt 32 1%Z) i32 None)];
  func := λ F, if decide (F = 10) then plainFunction [8] false [7; 9]
               else if decide (F = 11) then plainFunction [18] false [17; 16; 15]
               else plainFunction [] false [];
  struct_body := toyBodies;
|}.

Definition tableCall : Value := 15.
Definition tableCallee : Value := 16.
Definition tableField : Value := 17.
Definition tableArg : Value := 18.
Definition tableCaller : FuncId := 11.

(** Before the collection: functions 101, 102 and 103 have the signature
    of the call. *)
Definition tableSeed : MLTA :=
  {| typeIdxFuncsMap := ∅; typeIdxPropMap := ∅; typeCapSet := ∅;
     typeEscapeSet := ∅; VTableFuncsMap := ∅; AliasStructPtrMap := ∅;
     MatchedFuncsMap := ∅;
     sigFuncsMap := {[ 7%N := {[ 101; 102; 103 ]} ]};
     AddressTakenFuncs := [101; 102; 103] |}.

Definition tableSteps : list CollectStep :=
  [ConfineInInitializer 30 1; ConfineInFunction 10 1].

(** After the collection: the entries of the table under their fields,
    and [%V] capped by the store through an argument. *)
Definition tableTables : MLTA :=
  {| typeIdxFuncsMap :=
       {[ tyCode tV := {[ 0%Z := {[ 101 ]}; 1%Z := {[ 102 ]} ]} ]};
     typeIdxPropMap := ∅; typeCapSet := {[ tyCode tV ]};
     typeEscapeSet := ∅; VTableFuncsMap := ∅; AliasStructPtrMap := ∅;
     MatchedFuncsMap := ∅;
     sigFuncsMap := {[ 7%N := {[ 101; 102; 103 ]} ]};
     AddressTakenFuncs := [101; 102; 103] |}.

(** *** A pointer of unknown type stored into a field

<<
      define void @10(%V* %8, i8* %19) {
        %7 = getelementptr %V, %V* %8, i64 0, i32 1
        store i8* %19, i8** %7
      }
>> *)
Definition escapeIR : IR := {|
  values := list_to_map [
    (7, mkNode (KGEP 8 tV 20 [21]) (PointerTy (PointerTy i8)) (Some 10));
    (8, mkNode KArgument (PointerTy tV) None);
    (19, mkNode KArgument (PointerTy i8) None);
    (23, mkNode (KStore 19 7) (VoidTy 1) (Some 10));
    (20, mkNode (KConstantInt 64 0%Z) i64 None);
    (21, mkNode (KConstantInt 32 1%Z) i32 None)];
  func := λ F, if decide (F = 10) then plainFunction [8; 19] false [7; 23]
               else plainFunction [] false [];
  struct_body := toyBodies;
|}.

Definition escapeFunction : FuncId := 10.
Definition escapeStore : Value := 23.
Definition escapeSlot : Value := 7.
Definition escapeBase : Value := 8.
Definition escapePointer : Value := 19.

Definition unsoundSensitive : Config :=
  {| SOUND_MODE := false; MLTA_FIELD_INSENSITIVE := false |}.

(** The tables of [nestedTables] with [%A] capped, and the walk on
    [nestedCall] when it has reached the layer (A, 2) from the start. *)
Definition cappedTables : MLTA :=
  set_typeCapSet {[ tyCode tA ]} nestedTables.


(** The global of [confineIR], its initializer and the second entry of
    the table. *)
Definition confineGlobal : Value := 30.
Definition confineInit : Value := 31.
Definition secondEntry : Value := 42.
Definition confineFunction : FuncId := 10.
Definition confineStore : Value := 9.
Definition confineSlot : Value := 7.
Definition confineBase : Value := 8.
Definition zero64 : Value := 20.
Definition one32 : Value := 21.

End MorePrograms.

(* ===================================================================== *)
(** ** Vocabulary of the statements *)
(* ===================================================================== *)

Section Vocabulary.
Context `{!Host}.

(** The casts of the call result [src] that [collectAliasStructPtr] takes
    into account in [F], in instruction order. *)
Definition aliasCastsOf (ir : IR) (F : FuncId) (src : Value) : list Value :=
  filter (λ I, aliasCast ir F I = Some src) (instructions (func ir F)).

(** [AliasStructPtrMap[F]] *)
Definition aliasMapOf (st : MLTA) (F : FuncId) : gmap Value Value :=
  default ∅ (AliasStructPtrMap st !! F).

(** The layer-1 seed of a call. *)
Definition seedOf (st : MLTA) (CI : Value) : FuncSet :=
  default ∅ (sigFuncsMap st !! callHash CI).

(** An edge of the graph [typeIdxPropMap] as [getDependentTypes] follows
    it: from [(h, j)] to every pair stored under [(h, j)] or under
    [(h, -1)]. *)
Definition propEdge (st : MLTA) (a b : hashidx_t) : Prop :=
  b ∈ at2 (typeIdxPropMap st) a.1 a.2
  ∨ b ∈ at2 (typeIdxPropMap st) a.1 (-1)%Z.

(** The number of values of the program that a walk has not visited. *)
Definition unvisited (ir : IR) (Visited : gset Value) : nat :=
  size (dom (values ir) ∖ Visited).

(** What the walk of an initializer can still append to its work list:
    one entry for a user it has not expanded, and one for each of its
    operands. *)
Definition expansionWeight (ir : IR) (Visited : gset Value) : nat :=
  sum_list_with
    (λ vn : Value * Node,
       if decide (vn.1 ∈ Visited) then 0
       else S (length (operands (kind vn.2))))
    (map_to_list (values ir)).

(** Every layer in the list has field index 0. *)
Definition allIndexZero (l : list typeidx_t) : Prop :=
  Forall (λ T : typeidx_t, T.2 = 0%Z) l.

(** No function is recorded under a field index other than 0. *)
Definition collapsedMap (m : gmap N (gmap Z FuncSet)) : Prop :=
  ∀ (h : N) (i : Z), i ≠ 0%Z → at2 m h i = ∅.

Definition collapsed (st : MLTA) : Prop :=
  collapsedMap (typeIdxFuncsMap st).

(** The function set of a run of the resolver. *)
Definition calleesOf (r : res (bool * FuncSet * MLTA)) : res FuncSet :=
  '(_, FS, _) ← r; Ret FS.

(** [within r1 r2]: both runs came to their end; if the first returned,
    the second returned too, and the set of the first is a subset of the
    set of the second. *)
Definition within (r1 r2 : res FuncSet) : Prop :=
  match r1, r2 with
  | Ret X, Ret Y => X ⊆ Y
  | Crash _, Ret _ | Crash _, Crash _ => True
  | _, _ => False
  end.

End Vocabulary.

Section MoreVocabulary.
Context `{!Host}.

(** The functions confined to the pair [(h, i)] or to [(h, -1)], any
    field of the type. *)
Definition confinedTo (st : MLTA) (p : hashidx_t) : FuncSet :=
  at2 (typeIdxFuncsMap st) p.1 p.2 ∪ at2 (typeIdxFuncsMap st) p.1 (-1)%Z.

(** One write of the confinement passes and of [collectAliasStructPtr] to
    the tables: a function that is no intrinsic is put under a pair, a
    hash into [typeCapSet], a function into the set of a global in
    [VTableFuncsMap], or the alias map of a function is replaced by entries that it had and
    casts of the function that [collectAliasStructPtr] takes into
    account. *)
Inductive confineWrite (ir : IR) : MLTA → MLTA → Prop :=
| write_function (st : MLTA) (h : N) (i : Z) (F : FuncId) :
    isIntrinsic (func ir F) = false →
    confineWrite ir st
      (set_typeIdxFuncsMap (insert2 (typeIdxFuncsMap st) h i F) st)
| write_cap (st : MLTA) (h : N) :
    confineWrite ir st (set_typeCapSet ({[h]} ∪ typeCapSet st) st)
| write_vtable (st : MLTA) (GV : Value) (CF : FuncId) :
    confineWrite ir st
      (set_VTableFuncsMap
         (<[GV := {[CF]} ∪ default ∅ (VTableFuncsMap st !! GV)]>
            (VTableFuncsMap st)) st)
| write_alias (st : MLTA) (F : FuncId) (m : gmap Value Value) :
    (∀ src c, m !! src = Some c →
              aliasMapOf st F !! src = Some c ∨ aliasCast ir F c = Some src) →
    confineWrite ir st
      (set_AliasStructPtrMap (<[F := m]> (AliasStructPtrMap st)) st).

(** What the confinement leaves as it is, and what it only adds to. *)
Definition confineFrame (st st' : MLTA) : Prop :=
  (∀ h i, at2 (typeIdxFuncsMap st) h i ⊆ at2 (typeIdxFuncsMap st') h i)
  ∧ typeCapSet st ⊆ typeCapSet st'
  ∧ (∀ GV, default ∅ (VTableFuncsMap st !! GV)
           ⊆ default ∅ (VTableFuncsMap st' !! GV))
  ∧ typeIdxPropMap st' = typeIdxPropMap st
  ∧ typeEscapeSet st' = typeEscapeSet st
  ∧ MatchedFuncsMap st' = MatchedFuncsMap st
  ∧ sigFuncsMap st' = sigFuncsMap st
  ∧ AddressTakenFuncs st' = AddressTakenFuncs st.


(** One write of the propagation pass to the tables: an edge to a pair
    other than the one it is stored under, a hash into [typeCapSet], or
    hashes into [typeEscapeSet]. *)
Inductive flowWrite : MLTA → MLTA → Prop :=
| flow_edge (st : MLTA) (h : N) (i : Z) (p : hashidx_t) :
    p ≠ (h, i) →
    flowWrite st (set_typeIdxPropMap (insert2 (typeIdxPropMap st) h i p) st)
| flow_cap (st : MLTA) (h : N) :
    flowWrite st (set_typeCapSet ({[h]} ∪ typeCapSet st) st)
| flow_escape (st : MLTA) (X : gset N) :
    flowWrite st (set_typeEscapeSet (X ∪ typeEscapeSet st) st).

(** What the propagation leaves as it is, and what it only adds to. *)
Definition flowFrame (st st' : MLTA) : Prop :=
  (∀ h i, at2 (typeIdxPropMap st) h i ⊆ at2 (typeIdxPropMap st') h i)
  ∧ typeCapSet st ⊆ typeCapSet st'
  ∧ typeEscapeSet st ⊆ typeEscapeSet st'
  ∧ typeIdxFuncsMap st' = typeIdxFuncsMap st
  ∧ VTableFuncsMap st' = VTableFuncsMap st
  ∧ AliasStructPtrMap st' = AliasStructPtrMap st
  ∧ MatchedFuncsMap st' = MatchedFuncsMap st
  ∧ sigFuncsMap st' = sigFuncsMap st
  ∧ AddressTakenFuncs st' = AddressTakenFuncs st.

(** No pair of [typeIdxPropMap] has an edge to itself. *)
Definition noSelfEdge (st : MLTA) : Prop :=
  ∀ h i, (h, i) ∉ at2 (typeIdxPropMap st) h i.

(** Every entry of the alias maps is one that [collectAliasStructPtr]
    writes: in [F], a call result of type [i8*] and a cast instruction
    that takes it to a pointer to a composite type. *)
Definition aliasWF (ir : IR) (st : MLTA) : Prop :=
  ∀ F src c, aliasMapOf st F !! src = Some c → aliasCast ir F c = Some src.

(** Every layer in the list has a struct, array or vector type. *)
Definition allComposite (l : list typeidx_t) : Prop :=
  Forall (λ T : typeidx_t, isCompositeType T.1 = true) l.

(** [safe P r]: [r] is no failed assertion, and what it returned is in
    [P]. *)
Definition safe {A} (P : A → Prop) (r : res A) : Prop :=
  match r with
  | Ret a => P a
  | Crash _ => False
  | NoFuel => True
  end.

(** The operand that the loop of [getBaseFunction] goes to from a value,
    and the one that [getVTable] goes to. *)
Definition bitcastStep (k : Kind) : option Value :=
  match k with KBitCast op0 => Some op0 | _ => None end.

Definition vtableStep (k : Kind) : option Value :=
  match k with
  | KBitCast op0 => Some op0
  | KGEP PO _ _ _ => Some PO
  | _ => None
  end.

Definition stepsTo (ir : IR) (next : Kind → option Value) (a b : Value)
    : Prop :=
  next (kind (node ir a)) = Some b.

(** The steps along [next] go down in [rank]: no chain of such operands
    comes back to a value it has left. *)
Definition descends (ir : IR) (next : Kind → option Value)
    (rank : Value → nat) : bool :=
  forallb (λ vn : Value * Node,
             match next (kind vn.2) with
             | Some Opnd => bool_decide (rank Opnd < rank vn.1)
             | None => true
             end)
          (map_to_list (values ir)).

(** Every PHI node of the program has an incoming value. *)
Definition noEmptyPhi (ir : IR) : bool :=
  forallb (λ vn : Value * Node,
             match kind vn.2 with KPHI [] => false | _ => true end)
          (map_to_list (values ir)).

(** The index that [getGEPLayerTypes] gives to the layer of a GEP index:
    the constant, -1 for an index that is no constant, and 0 for all with
    [MLTA_FIELD_INSENSITIVE]. *)
Definition layerIndex (cfg : Config) (ir : IR) (Idx : Value) : Z :=
  if MLTA_FIELD_INSENSITIVE cfg then 0%Z
  else match asConstantInt ir Idx with
       | Some (w, z) => to_int (getSExtValue w z)
       | None => (-1)%Z
       end.

(** [zeroIndex ir Idx]: the GEP index [Idx] is the constant 0. *)
Definition zeroIndex (ir : IR) (Idx : Value) : Prop :=
  ∃ w z, asConstantInt ir Idx = Some (w, z) ∧ getSExtValue w z = 0%Z.

(** No user of the value is a bitcast. *)
Definition noCastUsers (ir : IR) (V : Value) : bool :=
  forallb (λ U, negb (isBitCastOperator ir U)) (users ir V).

End MoreVocabulary.

(* ===================================================================== *)
(** * Properties *)
(* ===================================================================== *)

(** ** Outcomes *)

Section Outcomes.
Context {A B : Type}.
Implicit Types (m : res A) (f : A → res B).

Lemma bind_Ret m f a : m = Ret a → m ≫= f = f a.
Proof. by intros ->. Qed.

Lemma bind_inv_Ret m f b :
  m ≫= f = Ret b → ∃ a, m = Ret a ∧ f a = Ret b.
Proof. destruct m; simpl; [eauto | done | done]. Qed.

Lemma returns_bind (P : A → Prop) (Q : B → Prop) m f :
  returns P m → (∀ a, P a → returns Q (f a)) → returns Q (m ≫= f).
Proof. destruct m; simpl; auto. Qed.

Lemma on_return_bind (P : A → Prop) (Q : B → Prop) m f :
  on_return P m → (∀ a, P a → on_return Q (f a)) → on_return Q (m ≫= f).
Proof. destruct m; simpl; auto. Qed.

Lemma returns_weaken (P Q : A → Prop) m :
  returns P m → (∀ a, P a → Q a) → returns Q m.
Proof. destruct m; simpl; auto. Qed.

Lemma on_return_weaken (P Q : A → Prop) m :
  on_return P m → (∀ a, P a → Q a) → on_return Q m.
Proof. destruct m; simpl; auto. Qed.

Lemma returns_on_return (P : A → Prop) m : returns P m → on_return P m.
Proof. destruct m; simpl; auto. Qed.

Lemma returns_split (P : A → Prop) m :
  terminates m → on_return P m → returns P m.
Proof. destruct m; simpl; auto. Qed.

Lemma returns_conj (P Q : A → Prop) m :
  returns P m → on_return Q m → returns (λ a, P a ∧ Q a) m.
Proof. destruct m; simpl; auto. Qed.

Lemma on_return_conj (P Q : A → Prop) m :
  on_return P m → on_return Q m → on_return (λ a, P a ∧ Q a) m.
Proof. destruct m; simpl; auto. Qed.

Lemma on_return_Ret (P : A → Prop) m a : on_return P m → m = Ret a → P a.
Proof. by intros Hm ->. Qed.

Lemma on_return_intro (P : A → Prop) m : (∀ a, m = Ret a → P a) → on_return P m.
Proof. destruct m; simpl; auto. Qed.

Lemma yields_bind (P : A → Prop) (Q : B → Prop) m f :
  yields P m → (∀ a, P a → yields Q (f a)) → yields Q (m ≫= f).
Proof. destruct m; simpl; auto. Qed.

Lemma yields_weaken (P Q : A → Prop) m :
  yields P m → (∀ a, P a → Q a) → yields Q m.
Proof. destruct m; simpl; auto; done. Qed.

Lemma yields_returns (P : A → Prop) m : yields P m → returns P m.
Proof. destruct m; simpl; auto. Qed.

Lemma yields_on_return (P : A → Prop) m : yields P m → on_return P m.
Proof. destruct m; simpl; auto. Qed.

Lemma yields_conj (P Q : A → Prop) m :
  yields P m → on_return Q m → yields (λ a, P a ∧ Q a) m.
Proof. destruct m; simpl; auto. Qed.

Lemma yields_inv (P : A → Prop) m : yields P m → ∃ a, m = Ret a ∧ P a.
Proof. destruct m; simpl; [eauto|done..]. Qed.

Lemma terminates_bind m f :
  terminates m → (∀ a, m = Ret a → terminates (f a)) → terminates (m ≫= f).
Proof. destruct m; simpl; auto. Qed.

End Outcomes.

(** ** Signature matching *)

Section SignatureFacts.
Context `{!Host}.

Lemma peelPointers_swap (T1 T2 : Ty) :
  peelPointers T2 T1 = ((peelPointers T1 T2).2, (peelPointers T1 T2).1).
Proof.
  revert T2. induction T1 as [| |E1 IH| | | | |]; intros T2;
    destruct T2; simpl; try done.
Qed.

Lemma fuzzyTypeMatch_swap (T1 T2 : Ty) (M1 M2 : ModuleId) :
  fuzzyTypeMatch T1 T2 M1 M2 = fuzzyTypeMatch T2 T1 M1 M2.
Proof.
  unfold fuzzyTypeMatch.
  destruct (decide (T1 = T2)) as [->|Hne].
  { by rewrite decide_True. }
  rewrite (decide_False (P := T2 = T1)) by congruence.
  rewrite (peelPointers_swap T1 T2).
  destruct (peelPointers T1 T2) as [U1 U2]; simpl.
  rewrite (andb_comm (isStructTy U2)), (andb_comm (isIntegerTy U2)).
  rewrite (bool_decide_ext (getStructName U2 = getStructName U1)
                           (getStructName U1 = getStructName U2)) by done.
  rewrite (bool_decide_ext (getIntegerBitWidth U2 = getIntegerBitWidth U1)
             (getIntegerBitWidth U1 = getIntegerBitWidth U2)) by done.
  by rewrite (orb_comm (bool_decide (U2 = Int8PtrTy M1) && _)).
Qed.

(** X1: with the modules kept in place, the match does not depend on the
    order of the two types. *)
Lemma fuzzyTypeMatch_swap_types (T1 T2 : Ty) (M1 M2 : ModuleId) :
  fuzzyTypeMatch T1 T2 M1 M2 = fuzzyTypeMatch T2 T1 M1 M2.
Proof. apply fuzzyTypeMatch_swap. Qed.

(** The match is symmetric in its (type, module) pairs when the two
    modules have the same [i8*] and the same pointer-sized integer type. *)
Lemma fuzzyTypeMatch_sym_same_tables (T1 T2 : Ty) (M1 M2 : ModuleId) :
  Int8PtrTy M1 = Int8PtrTy M2 → IntPtrTy M1 = IntPtrTy M2 →
  fuzzyTypeMatch T1 T2 M1 M2 = fuzzyTypeMatch T2 T1 M2 M1.
Proof.
  intros H8 HP. rewrite fuzzyTypeMatch_swap.
  unfold fuzzyTypeMatch. by rewrite H8, HP.
Qed.

Variable ir : IR.


(** It leaves the argument list when every argument of the call matches
    and the callee has more parameters. *)
Lemma matchArgs_out_of_bounds (formals actuals : list Value) (AI : nat)
    (M1 M2 : ModuleId) :
  AI ≤ length actuals < AI + length formals →
  (∀ i FI a, formals !! i = Some FI → actuals !! (AI + i) = Some a →
             fuzzyTypeMatch (getType ir FI) (getType ir a) M1 M2 = true) →
  matchArgs ir formals actuals AI M1 M2 = Crash OutOfBounds.
Proof.
  revert AI. induction formals as [|FI formals IH]; intros AI Hlen Hm; simpl.
  { simpl in Hlen. lia. }
  destruct (actuals !! AI) as [a|] eqn:Ha; [|done].
  rewrite (Hm 0 FI a); [|done|by rewrite Nat.add_0_r].
  apply lookup_lt_Some in Ha as Hlt.
  apply IH.
  - simpl in Hlen. lia.
  - intros i FI' a' Hf Ha'. apply (Hm (S i)); [done|].
    by rewrite Nat.add_succ_r.
Qed.


End SignatureFacts.

(** C2, as the code has it: the match is not symmetric in its (type,
    module) pairs.  The callee's module 1 and the caller's module 2 have
    their own contexts; [i8*] of module 1 matches the pointer-sized [i64]
    of module 2, and with the two pairs exchanged the match fails, because
    the second alternative of the test at lines 75-81 compares the second
    type with [Int8PtrTy[M1]] and the first with [IntPtrTy[M2]]. *)
Theorem fuzzyTypeMatch_pairs_exchanged :
  @fuzzyTypeMatch toyHost calleeI8Ptr callerIntPtr calleeModule callerModule
    = true
  ∧ @fuzzyTypeMatch toyHost callerIntPtr calleeI8Ptr callerModule calleeModule
    = false.
Proof. split; reflexivity. Qed.

(** C10, as the code has it: for the variadic function 201 with two
    parameters and the call 50 with one argument, [findCalleesWithType]
    reads the argument list at position 1, which is [arg_end()]: the read
    is outside of the call's arguments. *)
Theorem findCalleesWithType_reads_past_arguments :
  @findCalleesWithType toyHost varargIR varargTables varargCall ∅
    = Crash OutOfBounds.
Proof. reflexivity. Qed.

(** ** Alias recovery *)

Section AliasFacts.
Context `{!Host}.
Variable ir : IR.
Variable F : FuncId.

(** What the loop over the instructions leaves in [AliasMap] and
    [ToErase] for a source value [src], from the casts of [src] it has
    seen. *)
Lemma collectAlias_fold (l : list Value) (A : gmap Value Value)
    (E : gset Value) (src : Value) :
  let r := foldl (collectAliasStep ir F) (A, E) l in
  let cs := filter (λ I, aliasCast ir F I = Some src) l in
  (src ∈ r.2 ↔
     src ∈ E ∨ (is_Some (A !! src) ∧ cs ≠ [])
     ∨ (A !! src = None ∧ 2 ≤ length cs))
  ∧ r.1 !! src = match A !! src with Some c => Some c | None => head cs end.
Proof.
  revert A E. induction l as [|I l IH]; intros A E; simpl.
  { split.
    - split; [auto|]. intros [?|[[_ ?]|[_ ?]]]; [done|done|lia].
    - by destruct (A !! src). }
  destruct (collectAliasStep ir F (A, E) I) as [A1 E1] eqn:Hstep.
  unfold collectAliasStep in Hstep.
  destruct (IH A1 E1) as [IH1 IH2]. clear IH.
  destruct (aliasCast ir F I) as [v|] eqn:Hc.
  - destruct (decide (v = src)) as [->|Hne].
    + rewrite filter_cons_True by done.
      case_bool_decide as Hin; injection Hstep as <- <-.
      * split.
        -- rewrite IH1. split; [|set_solver]. intros _. right; left. done.
        -- rewrite IH2. destruct Hin as [c ->]. done.
      * assert (A !! src = None) as HN.
        { destruct (A !! src) eqn:?; [|done]. destruct Hin; eauto. }
        rewrite lookup_insert_eq in IH1, IH2. rewrite HN. split.
        -- rewrite IH1. simpl. split.
           ++ intros [?|[[_ Hcs]|[? _]]]; [auto| |done].
              right; right. split; [done|].
              destruct (filter _ l); [done|simpl; lia].
           ++ intros [?|[[[? ?] _]|[_ Hlen]]]; [auto|done|].
              right; left. split; [eauto|].
              destruct (filter _ l); [simpl in Hlen; lia|done].
        -- by rewrite IH2.
    + rewrite filter_cons_False by congruence.
      case_bool_decide as Hin; injection Hstep as <- <-.
      * split; [|done]. rewrite IH1. set_solver.
      * rewrite lookup_insert_ne in IH1, IH2 by done. done.
  - rewrite filter_cons_False by congruence. injection Hstep as <- <-. done.
Qed.

End AliasFacts.

Section AliasTheorem.
Context `{!Host}.

(** C6: after [collectAliasStructPtr (F)], a source value [src] is mapped
    to the cast [c] exactly when [c] is the only cast of [src] in [F] that
    the pass takes into account (and [src] was not in the map before), or
    when [src] was mapped to [c] before and [F] has no such cast; so a
    source value with a second cast in [F] is in the map no more. *)
Theorem collectAliasStructPtr_single_cast (ir : IR) (st : MLTA) (F : FuncId)
    (src c : Value) :
  (aliasMapOf (collectAliasStructPtr ir st F) F !! src = Some c ↔
     (aliasMapOf st F !! src = Some c ∧ aliasCastsOf ir F src = [])
     ∨ (aliasMapOf st F !! src = None ∧ aliasCastsOf ir F src = [c]))
  ∧ (1 < length (aliasCastsOf ir F src) →
     aliasMapOf (collectAliasStructPtr ir st F) F !! src = None).
Proof.
  unfold aliasMapOf, collectAliasStructPtr, aliasCastsOf.
  pose proof (collectAlias_fold ir F (instructions (func ir F))
                (default ∅ (AliasStructPtrMap st !! F)) ∅ src) as Hf.
  simpl in Hf.
  destruct (foldl _ _ _) as [A' E'] eqn:Hfold. simpl in Hf.
  destruct Hf as [HE HA].
  simpl. rewrite lookup_insert_eq. simpl.
  set (cs := filter _ _) in *.
  set (A0 := default ∅ (AliasStructPtrMap st !! F)) in *.
  assert (foldr delete A' (elements E') !! src
          = if decide (src ∈ E') then None else A' !! src) as ->.
  { destruct (decide (src ∈ E')) as [Hin|Hin].
    - apply lookup_foldr_delete. by apply elem_of_elements.
    - apply lookup_foldr_delete_not_elem_of. by rewrite elem_of_elements. }
  split.
  - destruct (decide (src ∈ E')) as [Hin|Hin].
    + split; [done|]. apply HE in Hin.
      destruct Hin as [?|[[[? HS] Hcs]|[HN Hlen]]]; [set_solver| |].
      * intros [[_ ?]|[? _]]; congruence.
      * intros [[? _]|[_ Hc]]; [congruence|]. rewrite Hc in Hlen.
        simpl in Hlen. lia.
    + rewrite HA. destruct (A0 !! src) as [c0|] eqn:H0.
      * split.
        -- intros [= ->]. left. split; [done|].
           destruct cs; [done|]. exfalso. apply Hin, HE. right; left.
           split; [eauto|done].
        -- intros [[? _]|[? _]]; done.
      * split.
        -- intros Hh. right. split; [done|].
           destruct cs as [|c1 [|c2 cs]]; [done| |].
           ++ simpl in Hh. congruence.
           ++ exfalso. apply Hin, HE. right; right. split; [done|simpl; lia].
        -- intros [[? _]|[_ ->]]; done.
  - intros Hlen. rewrite decide_True; [done|].
    apply HE. destruct (A0 !! src) eqn:H0.
    + right; left. split; [eauto|]. destruct cs; [simpl in Hlen; lia|done].
    + right; right. split; [done|lia].
Qed.

End AliasTheorem.

(** ** The layer walker *)

Section WalkerFacts.
Context `{!Host}.
Variable cfg : Config.
Variable ir : IR.

(** *** The measure of a walk *)

Lemma node_in_dom (V : Value) :
  kind (node ir V) ≠ KOther [] → V ∈ dom (values ir).
Proof.
  unfold node. intros Hk. apply elem_of_dom.
  destruct (values ir !! V); [eauto|done].
Qed.

Lemma unvisited_le (Visited : gset Value) :
  unvisited ir Visited ≤ size (values ir).
Proof.
  unfold unvisited. rewrite <- size_dom.
  apply subseteq_size. set_solver.
Qed.

Lemma unvisited_mono (Visited Visited' : gset Value) :
  Visited ⊆ Visited' → unvisited ir Visited' ≤ unvisited ir Visited.
Proof. intros Hs. apply subseteq_size. set_solver. Qed.

Lemma unvisited_visit (V : Value) (Visited Visited' : gset Value) :
  V ∈ dom (values ir) → V ∉ Visited → V ∈ Visited' → Visited ⊆ Visited' →
  unvisited ir Visited' < unvisited ir Visited.
Proof.
  intros Hd Hn Hi Hs. apply subset_size.
  apply strict_spec_alt. split; [set_solver|].
  intros Heq. assert (V ∈ dom (values ir) ∖ Visited') as Hin.
  { rewrite Heq. set_solver. }
  set_solver.
Qed.

(** *** [getGEPLayerTypes] *)

Lemma getElementType_terminates (body : list Ty) (Idx : Z) :
  terminates (getElementType body Idx).
Proof. unfold getElementType. by destruct (_ !! _). Qed.

Lemma getPointerElementType_terminates (T : Ty) :
  terminates (getPointerElementType T).
Proof. by destruct T. Qed.

Lemma gepWalk_terminates (ETy : Ty) (Indices : list Z)
    (Tmp : list typeidx_t) :
  terminates (gepWalk cfg ir ETy Indices Tmp).
Proof.
  revert ETy Tmp. induction Indices as [|Idx Indices IH]; intros ETy Tmp.
  { done. }
  simpl. apply terminates_bind; [|auto].
  destruct ETy; simpl; try done. apply getElementType_terminates.
Qed.

Lemma gepIndices_terminates (st : MLTA) (GEP PO : Value) (ETy : Ty)
    (idx0 : Value) (idxs : list Value) :
  terminates (gepIndices cfg ir st GEP PO ETy idx0 idxs).
Proof.
  unfold gepIndices. apply terminates_bind.
  - destruct (asConstantInt ir idx0) as [[w z]|]; [|done].
    destruct (decide _); [|done].
    destruct (recoverBaseType ir st PO).
    + apply terminates_bind; [apply getPointerElementType_terminates|].
      intros E _. by destruct (parent _).
    + by destruct (_ && _).
  - intros [[E [|i l]]|] _; done.
Qed.

Lemma getGEPLayerTypes_terminates (st : MLTA) (GEP PO : Value) (ETy : Ty)
    (idx0 : Value) (idxs : list Value) (TyList : list typeidx_t) :
  terminates (getGEPLayerTypes cfg ir st GEP PO ETy idx0 idxs TyList).
Proof.
  unfold getGEPLayerTypes. apply terminates_bind.
  { apply gepIndices_terminates. }
  intros [[E l]|] _; [|done].
  apply terminates_bind; [apply gepWalk_terminates|].
  intros [E' Tmp] _. by destruct (_ ++ _).
Qed.

Lemma allIndexZero_app (l1 l2 : list typeidx_t) :
  allIndexZero l1 → allIndexZero l2 → allIndexZero (l1 ++ l2).
Proof. unfold allIndexZero. intros. by apply Forall_app. Qed.

Lemma gepWalk_layers (ETy : Ty) (Indices : list Z) (Tmp : list typeidx_t) :
  on_return (λ r : Ty * list typeidx_t,
               ∃ new, r.2 = new ++ Tmp
                      ∧ (MLTA_FIELD_INSENSITIVE cfg = true → allIndexZero new))
            (gepWalk cfg ir ETy Indices Tmp).
Proof.
  revert ETy Tmp. induction Indices as [|Idx Indices IH]; intros ETy Tmp.
  { simpl. exists []. split; [done|]. intros _. constructor. }
  simpl. eapply on_return_bind with (P := λ _, True).
  { by destruct (match ETy with StructTy _ _ => _ | _ => _ end). }
  intros SubTy _. eapply on_return_weaken; [apply IH|].
  intros [E' Tmp'] (new & -> & Hz). simpl.
  exists (new ++ [typeidx_c ETy (if MLTA_FIELD_INSENSITIVE cfg then 0%Z else Idx)]).
  split; [by rewrite <- app_assoc|].
  intros HFI. apply allIndexZero_app; [auto|].
  rewrite HFI. by repeat constructor.
Qed.

Lemma firstFieldLayers_zero (GEP : Value) (ETy : Ty) :
  allIndexZero (firstFieldLayers ir GEP ETy).
Proof.
  unfold firstFieldLayers, allIndexZero.
  destruct ETy; try by constructor.
  destruct (struct_body _ _ _) as [|Ty0 ?]; [by constructor|].
  induction (users ir GEP) as [|U Us IH]; simpl; [by constructor|].
  apply Forall_app. split; [|done].
  destruct (kind (node ir U)); try by constructor.
  destruct (getType ir U); try by constructor.
  destruct (decide _); by repeat constructor.
Qed.

(** What a call adds to [TyList]: nothing when it returns [false], at
    least one layer when it returns [true]. *)
Lemma getGEPLayerTypes_layers (st : MLTA) (GEP PO : Value) (ETy : Ty)
    (idx0 : Value) (idxs : list Value) (TyList : list typeidx_t) :
  on_return (λ r : bool * list typeidx_t,
               ∃ new, r.2 = TyList ++ new
                      ∧ (r.1 = true ↔ new ≠ [])
                      ∧ (MLTA_FIELD_INSENSITIVE cfg = true → allIndexZero new))
            (getGEPLayerTypes cfg ir st GEP PO ETy idx0 idxs TyList).
Proof.
  unfold getGEPLayerTypes.
  eapply on_return_bind with (P := λ _, True).
  { by destruct (gepIndices _ _ _ _ _ _ _ _). }
  intros [[E l]|] _.
  2:{ simpl. exists []. rewrite app_nil_r. split; [done|].
      split; [done|]. intros _; constructor. }
  eapply on_return_bind; [apply gepWalk_layers|].
  intros [E' Tmp] (new & Hnew & Hz). simpl in *. subst Tmp.
  rewrite app_nil_r.
  destruct (firstFieldLayers ir GEP E' ++ new) as [|x xs] eqn:Hl; simpl.
  - exists []. rewrite app_nil_r. split; [done|]. split; [done|].
    intros _; constructor.
  - exists (x :: xs). split; [done|]. split; [done|].
    intros HFI. rewrite <- Hl.
    apply allIndexZero_app; [apply firstFieldLayers_zero|auto].
Qed.

(** *** [nextLayerBaseType] *)

Lemma phiIncoming_result
    (rec : option Value → list typeidx_t → option Value → gset Value
           → res layer)
    (incoming : list Value) (TyList : list typeidx_t) (Visited : gset Value)
    (acc : layer) :
  on_return (λ r, r = acc
                  ∨ ∃ IV, IV ∈ incoming
                          ∧ rec (Some IV) TyList (Some IV) Visited = Ret r)
            (phiIncoming rec incoming TyList Visited acc).
Proof.
  revert acc. induction incoming as [|IV incoming IH]; intros acc; simpl.
  { by left. }
  destruct (rec (Some IV) TyList (Some IV) Visited) as [r| |] eqn:Hr;
    simpl; [|done..].
  destruct (decide _).
  - simpl. right. exists IV. split; [left|done].
  - eapply on_return_weaken; [apply IH|]. intros r' [->|(IV' & ? & ?)].
    + right. exists IV. split; [left|done].
    + right. exists IV'. split; [by right|done].
Qed.

Lemma phiIncoming_terminates
    (rec : option Value → list typeidx_t → option Value → gset Value
           → res layer)
    (incoming : list Value) (TyList : list typeidx_t) (Visited : gset Value)
    (acc : layer) :
  (∀ IV, IV ∈ incoming → terminates (rec (Some IV) TyList (Some IV) Visited)) →
  terminates (phiIncoming rec incoming TyList Visited acc).
Proof.
  revert acc. induction incoming as [|IV incoming IH]; intros acc Ht; simpl.
  { done. }
  apply terminates_bind; [apply Ht; left|].
  intros r _. destruct (decide _); [done|].
  apply IH. intros IV' ?. apply Ht. by right.
Qed.

(** A call that returns [true] has put a value of the program into
    [Visited] that was not there; in field-insensitive mode it only adds
    layers of index 0. *)
Lemma nextLayerBaseType_progress (fuel : nat) (st : MLTA) (V : option Value)
    (TyList : list typeidx_t) (NextV : option Value) (Visited : gset Value) :
  on_return (λ r : layer,
      (r.1.1.1 = true →
         Visited ⊆ r.2
         ∧ ∃ v, v ∈ dom (values ir) ∧ (v ∉ Visited) ∧ v ∈ r.2)
      ∧ (MLTA_FIELD_INSENSITIVE cfg = true →
         allIndexZero TyList → allIndexZero r.1.1.2))
    (nextLayerBaseType cfg ir fuel st V TyList NextV Visited).
Proof.
  revert V TyList NextV Visited.
  induction fuel as [|fuel IH]; intros V TyList NextV Visited; [done|].
  assert (∀ v op, kind (node ir v) ≠ KOther [] → v ∉ Visited →
    on_return (λ r : layer,
      (r.1.1.1 = true →
         Visited ⊆ r.2
         ∧ ∃ u, u ∈ dom (values ir) ∧ (u ∉ Visited) ∧ u ∈ r.2)
      ∧ (MLTA_FIELD_INSENSITIVE cfg = true →
         allIndexZero TyList → allIndexZero r.1.1.2))
    (nextLayerBaseType cfg ir fuel st (Some op) TyList (Some op)
                       ({[v]} ∪ Visited))) as Hrec.
  { intros v op Hk Hv. eapply on_return_weaken; [apply IH|].
    intros r [Hp Hz]. split; [|done]. intros Hret.
    destruct (Hp Hret) as [Hs (u & ? & ? & ?)]. split; [set_solver|].
    exists u. set_solver. }
  destruct V as [v|]; simpl; [|by split].
  destruct (kind (node ir v)) eqn:Hk; simpl; try (by split);
    destruct (decide (v ∈ Visited)) as [Hv|Hv]; simpl; try (by split);
    try (apply Hrec; [by rewrite Hk|done]).
  - (* GEP *)
    eapply on_return_bind; [apply getGEPLayerTypes_layers|].
    intros [ret TyList'] (new & Heq & Hret & Hz). simpl in *. subst TyList'.
    split.
    + intros ->. split; [set_solver|]. exists v.
      split; [apply node_in_dom; by rewrite Hk|]. set_solver.
    + intros HFI H0. apply allIndexZero_app; auto.
  - (* PHI *)
    eapply on_return_weaken; [apply phiIncoming_result|].
    intros r [->|(IV & _ & Hr)].
    + simpl. split; [done|]. intros _ _. constructor.
    + pose proof (Hrec v IV ltac:(by rewrite Hk) Hv) as Hx.
      rewrite Hr in Hx. exact Hx.
Qed.

Lemma nextLayerBaseType_terminates (fuel : nat) (st : MLTA) (V : option Value)
    (TyList : list typeidx_t) (NextV : option Value) (Visited : gset Value) :
  unvisited ir Visited < fuel →
  terminates (nextLayerBaseType cfg ir fuel st V TyList NextV Visited).
Proof.
  revert V TyList NextV Visited.
  induction fuel as [|fuel IH]; intros V TyList NextV Visited Hf; [lia|].
  assert (∀ v op, kind (node ir v) ≠ KOther [] → v ∉ Visited →
    terminates (nextLayerBaseType cfg ir fuel st (Some op) TyList (Some op)
                                  ({[v]} ∪ Visited))) as Hrec.
  { intros v op Hk Hv. apply IH.
    pose proof (unvisited_visit v Visited ({[v]} ∪ Visited)
                  (node_in_dom v Hk) Hv) as Hlt.
    assert (unvisited ir ({[v]} ∪ Visited) < unvisited ir Visited)
      by (apply Hlt; set_solver).
    lia. }
  destruct V as [v|]; simpl; [|done].
  destruct (kind (node ir v)) eqn:Hk; simpl; try done;
    destruct (decide (v ∈ Visited)) as [Hv|Hv]; simpl; try done;
    try (apply Hrec; [by rewrite Hk|done]).
  - apply terminates_bind; [apply getGEPLayerTypes_terminates|].
    by intros [ret TyList'] _.
  - apply phiIncoming_terminates. intros IV _.
    apply Hrec; [by rewrite Hk|done].
Qed.

(** With the bound [value_fuel] a call comes to its end from every set
    [Visited]. *)
Lemma nextLayerBaseType_value_fuel (st : MLTA) (V : option Value)
    (TyList : list typeidx_t) (NextV : option Value) (Visited : gset Value) :
  terminates (nextLayerBaseType cfg ir (value_fuel ir) st V TyList NextV
                                Visited).
Proof.
  apply nextLayerBaseType_terminates. unfold value_fuel.
  pose proof (unvisited_le Visited). lia.
Qed.

End WalkerFacts.

Section ChainFacts.
Context `{!Host}.
Variable cfg : Config.
Variable ir : IR.

(** *** [getBaseType] *)

Lemma getPhiBaseType_grows
    (rec : option Value → gset Value → res (option Ty * gset Value))
    (incoming : list Value) (Visited : gset Value) :
  (∀ IV Vis, on_return (λ r, Vis ⊆ r.2) (rec (Some IV) Vis)) →
  on_return (λ r, Visited ⊆ r.2) (getPhiBaseType rec incoming Visited).
Proof.
  intros Hrec. revert Visited.
  induction incoming as [|IV incoming IH]; intros Visited; simpl; [done|].
  eapply on_return_bind; [apply Hrec|].
  intros [[T|] Vis] Hs; simpl in *; [done|].
  eapply on_return_weaken; [apply IH|]. intros r ?. set_solver.
Qed.

Lemma getBaseType_grows (fuel : nat) (st : MLTA) (V : option Value)
    (Visited : gset Value) :
  on_return (λ r, Visited ⊆ r.2) (getBaseType ir fuel st V Visited).
Proof.
  revert V Visited. induction fuel as [|fuel IH]; intros V Visited; [done|].
  destruct V as [v|]; simpl; [|done].
  destruct (decide (v ∈ Visited)); simpl; [done|].
  destruct (isCompositeType (getType ir v)); simpl; [set_solver|].
  eapply on_return_bind with (P := λ _, True).
  { by destruct (match getType ir v with PointerTy _ => _ | _ => _ end). }
  intros [T|] _; simpl; [set_solver|].
  assert (∀ op, on_return (λ r, Visited ⊆ r.2)
                  (getBaseType ir fuel st (Some op) ({[v]} ∪ Visited)))
    as Hrec.
  { intros op. eapply on_return_weaken; [apply IH|]. intros r ?. set_solver. }
  destruct (kind (node ir v)); simpl; try set_solver; try apply Hrec.
  eapply on_return_weaken; [apply getPhiBaseType_grows|].
  - intros IV Vis. apply IH.
  - intros r ?. set_solver.
Qed.

Lemma getPhiBaseType_terminates
    (rec : option Value → gset Value → res (option Ty * gset Value))
    (incoming : list Value) (Visited : gset Value) :
  (∀ IV Vis, on_return (λ r, Vis ⊆ r.2) (rec (Some IV) Vis)) →
  (∀ IV Vis, Visited ⊆ Vis → terminates (rec (Some IV) Vis)) →
  terminates (getPhiBaseType rec incoming Visited).
Proof.
  intros Hgrow. revert Visited.
  induction incoming as [|IV incoming IH]; intros Visited Ht; simpl; [done|].
  apply terminates_bind; [by apply Ht|].
  intros [[T|] Vis] Hr; simpl; [done|].
  apply IH. intros IV' Vis' Hs. apply Ht.
  pose proof (Hgrow IV Visited) as Hg. rewrite Hr in Hg. simpl in Hg.
  set_solver.
Qed.

Lemma getBaseType_terminates (fuel : nat) (st : MLTA) (V : option Value)
    (Visited : gset Value) :
  unvisited ir Visited < fuel →
  terminates (getBaseType ir fuel st V Visited).
Proof.
  revert V Visited.
  induction fuel as [|fuel IH]; intros V Visited Hf; [lia|].
  destruct V as [v|]; simpl; [|done].
  destruct (decide (v ∈ Visited)) as [Hv|Hv]; simpl; [done|].
  destruct (isCompositeType (getType ir v)); simpl; [done|].
  apply terminates_bind.
  { destruct (getType ir v); simpl; try done.
    destruct (isCompositeType _); [done|].
    destruct (recoverBaseType ir st v); [|done].
    apply terminates_bind; [apply getPointerElementType_terminates|done]. }
  intros [T|] _; simpl; [done|].
  assert (kind (node ir v) ≠ KOther [] →
          ∀ op Vis, {[v]} ∪ Visited ⊆ Vis →
                    terminates (getBaseType ir fuel st (Some op) Vis))
    as Hrec.
  { intros Hk op Vis Hs. apply IH.
    assert (unvisited ir Vis < unvisited ir Visited); [|lia].
    apply (unvisited_visit ir v); [by apply node_in_dom|done|set_solver..]. }
  destruct (kind (node ir v)) eqn:Hk; simpl; try done;
    try (apply Hrec; [done|set_solver]).
  apply getPhiBaseType_terminates.
  - intros IV Vis. apply getBaseType_grows.
  - intros IV Vis Hs. by apply Hrec.
Qed.

(** *** The loop of [getBaseTypeChain] *)

Lemma chainLoop_S (n : nat) (st : MLTA) (CV : option Value)
    (TyList : list typeidx_t) (NextV : option Value) (Visited : gset Value) :
  chainLoop cfg ir (S n) st CV TyList NextV Visited
  = nextLayerBaseType cfg ir (value_fuel ir) st CV TyList NextV Visited
    ≫= λ '(ret, TyList, NextV, Visited),
         if (ret : bool) then chainLoop cfg ir n st NextV TyList NextV Visited
         else Ret (TyList, NextV).
Proof. reflexivity. Qed.

(** The walk makes progress: a round that goes on has put a value into
    [Visited] that was not there, so there are at most as many rounds as
    the program has values. *)
Lemma chainLoop_terminates (n : nat) (st : MLTA) (CV : option Value)
    (TyList : list typeidx_t) (NextV : option Value) (Visited : gset Value) :
  unvisited ir Visited < n →
  terminates (chainLoop cfg ir n st CV TyList NextV Visited).
Proof.
  revert CV TyList NextV Visited.
  induction n as [|n IH]; intros CV TyList NextV Visited Hn; [lia|].
  rewrite chainLoop_S. apply terminates_bind; [apply nextLayerBaseType_value_fuel|].
  intros [[[ret TyList'] NextV'] Visited'] Hr.
  destruct ret; [|done].
  apply IH.
  pose proof (nextLayerBaseType_progress cfg ir (value_fuel ir) st CV TyList
                NextV Visited) as Hp.
  rewrite Hr in Hp. simpl in Hp. destruct Hp as [Hp _].
  destruct (Hp eq_refl) as [Hs (v & Hd & Hv & Hv')].
  pose proof (unvisited_visit ir v Visited Visited' Hd Hv Hv' Hs). lia.
Qed.

Lemma chainLoop_zero (n : nat) (st : MLTA) (CV : option Value)
    (TyList : list typeidx_t) (NextV : option Value) (Visited : gset Value) :
  MLTA_FIELD_INSENSITIVE cfg = true → allIndexZero TyList →
  on_return (λ r, allIndexZero r.1)
            (chainLoop cfg ir n st CV TyList NextV Visited).
Proof.
  intros HFI. revert CV TyList NextV Visited.
  induction n as [|n IH]; intros CV TyList NextV Visited Hz; [done|].
  rewrite chainLoop_S. eapply on_return_bind; [apply nextLayerBaseType_progress|].
  intros [[[ret TyList'] NextV'] Visited'] [_ Hz']. simpl in *.
  destruct ret; [|simpl; auto]. apply IH. auto.
Qed.

(** *** [getBaseTypeChain] *)

(** In field-insensitive mode a chain has only layers of index 0, and
    [getBaseTypeChain] writes to no table but [typeCapSet]. *)
Lemma getBaseTypeChain_zero (st : MLTA) (Chain : list typeidx_t)
    (V : option Value) (DL : DataLayout) :
  MLTA_FIELD_INSENSITIVE cfg = true → allIndexZero Chain →
  on_return (λ r, allIndexZero r.1.1) (getBaseTypeChain cfg ir st Chain V DL).
Proof.
  intros HFI Hz. unfold getBaseTypeChain.
  eapply on_return_bind with (P := λ _, True).
  { by destruct (getBaseType _ _ _ _ _). }
  intros [BTy Vis] _.
  eapply on_return_bind.
  { apply chainLoop_zero; [done|constructor]. }
  intros [TyList NextV] Hz'. simpl in *.
  apply allIndexZero_app; [|done].
  destruct BTy; [|done]. apply allIndexZero_app; [done|].
  by repeat constructor.
Qed.

Lemma getBaseTypeChain_tables (st : MLTA) (Chain : list typeidx_t)
    (V : option Value) (DL : DataLayout) :
  on_return (λ r, typeIdxFuncsMap r.2 = typeIdxFuncsMap st
                  ∧ AliasStructPtrMap r.2 = AliasStructPtrMap st
                  ∧ typeIdxPropMap r.2 = typeIdxPropMap st)
            (getBaseTypeChain cfg ir st Chain V DL).
Proof.
  unfold getBaseTypeChain.
  eapply on_return_bind with (P := λ _, True).
  { by destruct (getBaseType _ _ _ _ _). }
  intros [BTy Vis] _.
  eapply on_return_bind with (P := λ _, True).
  { by destruct (chainLoop _ _ _ _ _ _ _ _). }
  intros [TyList NextV] _. simpl.
  destruct (last _); [|done]. by destruct (chainComplete _ _).
Qed.

End ChainFacts.

Section ChainTheorem.
Context `{!Host}.

(** C9: [getBaseTypeChain] comes to its end for every value [V] of every
    program, whatever the tables hold: with the number of values of the
    program (plus one) as the bound on the depth of [getBaseType] and
    [nextLayerBaseType] and on the rounds of the loop, the call returns or
    stops on a failed assertion of [getGEPLayerTypes]; the bound is never
    reached, because every call that goes on has put one more value of the
    program into [Visited] ([nextLayerBaseType_progress],
    [chainLoop_terminates]). *)
Theorem getBaseTypeChain_total (cfg : Config) (ir : IR) (st : MLTA)
    (Chain : list typeidx_t) (V : option Value) (DL : DataLayout) :
  terminates (getBaseTypeChain cfg ir st Chain V DL).
Proof.
  assert (unvisited ir ∅ < value_fuel ir) as Hfuel.
  { unfold value_fuel. pose proof (unvisited_le ir ∅). lia. }
  unfold getBaseTypeChain. apply terminates_bind.
  { by apply getBaseType_terminates. }
  intros [BTy Vis] _.
  apply terminates_bind; [|by intros [TyList NextV] _].
  by apply chainLoop_terminates.
Qed.

End ChainTheorem.

(** ** The closure of the propagation graph *)

Section DependentFacts.
Context `{!Host}.
Variable st : MLTA.

Lemma at2_propTargets (h : N) (i : Z) :
  at2 (typeIdxPropMap st) h i ⊆ propTargets (typeIdxPropMap st).
Proof.
  unfold at2, propTargets. intros x Hx.
  destruct (typeIdxPropMap st !! h) as [mh|] eqn:Hh; simpl in Hx;
    [|by rewrite lookup_empty in Hx].
  destruct (mh !! i) as [X|] eqn:Hi; simpl in Hx; [|done].
  apply elem_of_union_list.
  exists (⋃ (snd <$> map_to_list mh)). split.
  - apply list_elem_of_fmap. exists (h, mh). split; [done|].
    by apply elem_of_map_to_list.
  - apply elem_of_union_list. exists X. split; [|done].
    apply list_elem_of_fmap. exists (i, X). split; [done|].
    by apply elem_of_map_to_list.
Qed.

Lemma length_in_order (X : gset hashidx_t) : length (in_order X) = size X.
Proof. unfold in_order. by rewrite merge_sort_Permutation. Qed.

Lemma elem_of_in_order (x : hashidx_t) (X : gset hashidx_t) :
  x ∈ in_order X ↔ x ∈ X.
Proof.
  unfold in_order. rewrite merge_sort_Permutation. apply elem_of_elements.
Qed.

(** The loop comes to its end: a pair is expanded at most once, and an
    expansion appends at most two sets of edge targets to the work
    list. *)
Lemma dependentLoop_terminates (n : nat) (LT : list hashidx_t)
    (Visited PropSet U : gset hashidx_t) :
  propTargets (typeIdxPropMap st) ⊆ U →
  (∀ x, x ∈ LT → x ∈ U) →
  length LT
    + size (U ∖ Visited) * S (2 * size (propTargets (typeIdxPropMap st))) < n →
  yields (λ _, True) (dependentLoop n st LT Visited PropSet).
Proof.
  intros HU. revert LT Visited PropSet.
  induction n as [|n IH]; intros LT Visited PropSet HLT Hn; [lia|].
  destruct LT as [|TI LT]; simpl; [done|].
  destruct (decide (TI ∈ Visited)) as [Hv|Hv].
  - apply IH.
    + intros x Hx. apply HLT. by right.
    + simpl in Hn. lia.
  - set (T := propTargets (typeIdxPropMap st)) in *.
    set (here := at2 (typeIdxPropMap st) TI.1 TI.2).
    set (any := at2 (typeIdxPropMap st) TI.1 (-1)%Z).
    assert (here ⊆ T) as Hh by apply at2_propTargets.
    assert (any ⊆ T) as Ha by apply at2_propTargets.
    apply IH.
    + intros x. rewrite !elem_of_app, !elem_of_in_order.
      intros [Hx|[Hx|Hx]]; [apply HLT; by right|set_solver..].
    + rewrite !length_app, !length_in_order.
      pose proof (subseteq_size _ _ Hh). pose proof (subseteq_size _ _ Ha).
      assert (size (U ∖ ({[TI]} ∪ Visited)) < size (U ∖ Visited)) as Hlt.
      { apply subset_size. apply strict_spec_alt. split; [set_solver|].
        intros Heq. assert (TI ∈ U ∖ Visited) as Hin.
        { apply elem_of_difference. split; [apply HLT; left|done]. }
        rewrite <- Heq in Hin. set_solver. }
      simpl in Hn. nia.
Qed.

Lemma tc_inv_r {A} (R : relation A) (x z : A) :
  tc R x z → ∃ y, rtc R x y ∧ R y z.
Proof.
  induction 1 as [x z HR|x y z HR _ (y' & Hrtc & HR')].
  - exists x. split; [constructor|done].
  - exists y'. split; [by eapply rtc_l|done].
Qed.

(** The loop computes the pairs reachable by at least one edge: the
    invariant of the work list. *)
Lemma dependentLoop_closure (s : hashidx_t) (P0 : gset hashidx_t) (n : nat)
    (LT : list hashidx_t) (Visited PropSet : gset hashidx_t) :
  (∀ a, a ∈ Visited → rtc (propEdge st) s a) →
  (∀ a, a ∈ LT → rtc (propEdge st) s a) →
  (∀ b, b ∈ PropSet ↔ b ∈ P0 ∨ ∃ a, a ∈ Visited ∧ propEdge st a b) →
  (∀ a b, a ∈ Visited → propEdge st a b → b ∈ Visited ∨ b ∈ LT) →
  s ∈ Visited ∨ s ∈ LT →
  on_return (λ R, ∀ b, b ∈ R ↔ b ∈ P0 ∨ tc (propEdge st) s b)
            (dependentLoop n st LT Visited PropSet).
Proof.
  revert LT Visited PropSet.
  induction n as [|n IH]; intros LT Visited PropSet I1 I2 I3 I4 I5; [done|].
  destruct LT as [|TI LT]; simpl.
  - intros b. rewrite I3. split.
    + intros [?|(a & Ha & He)]; [by left|right].
      eapply tc_rtc_l; [by apply I1|by apply tc_once].
    + intros [?|Htc]; [by left|right].
      destruct (tc_inv_r _ _ _ Htc) as (a & Hrtc & He).
      exists a. split; [|done].
      clear He Htc. revert a Hrtc.
      apply (rtc_ind_r (λ a, a ∈ Visited) s).
      * destruct I5 as [?|Hs]; [done|]. by apply elem_of_nil in Hs.
      * intros x y _ HR IHr. destruct (I4 x y IHr HR) as [?|Hy]; [done|].
        by apply elem_of_nil in Hy.
  - destruct (decide (TI ∈ Visited)) as [Hv|Hv].
    + apply IH; [done| | done | |].
      * intros a Ha. apply I2. by right.
      * intros a b Ha He. destruct (I4 a b Ha He) as [?|Hb]; [by left|].
        apply elem_of_cons in Hb as [->|?]; [by left|by right].
      * destruct I5 as [?|Hs]; [by left|].
        apply elem_of_cons in Hs as [->|?]; [by left|by right].
    + assert (∀ b, propEdge st TI b ↔
                   b ∈ at2 (typeIdxPropMap st) TI.1 TI.2
                   ∨ b ∈ at2 (typeIdxPropMap st) TI.1 (-1)%Z) as HE by done.
      assert (rtc (propEdge st) s TI) as HTI by (apply I2; left).
      apply IH.
      * intros a. rewrite elem_of_union, elem_of_singleton.
        intros [->|?]; [done|by apply I1].
      * intros a. rewrite !elem_of_app, !elem_of_in_order.
        intros [?|Ha]; [apply I2; by right|].
        eapply rtc_r; [exact HTI|]. by apply HE.
      * intros b. rewrite !elem_of_union, I3. split.
        -- intros [[[?|(a & ? & ?)]|Hb]|Hb]; [by left|right..].
           ++ exists a. split; [set_solver|done].
           ++ exists TI. split; [set_solver|]. apply HE. by left.
           ++ exists TI. split; [set_solver|]. apply HE. by right.
        -- intros [?|(a & Ha & He)]; [by left; left; left|].
           apply elem_of_union in Ha as [Ha|Ha].
           ++ apply elem_of_singleton in Ha as ->.
              apply HE in He as [?|?]; [left; by right|by right].
           ++ left; left; right. eauto.
      * intros a b Ha He. rewrite !elem_of_app, !elem_of_in_order.
        apply elem_of_union in Ha as [Ha|Ha].
        -- apply elem_of_singleton in Ha as ->. right; right.
           by apply HE.
        -- destruct (I4 a b Ha He) as [?|Hb]; [left; set_solver|].
           apply elem_of_cons in Hb as [->|?]; [left; set_solver|].
           right; by left.
      * destruct I5 as [?|Hs]; [left; set_solver|].
        apply elem_of_cons in Hs as [->|?]; [left; set_solver|].
        right. rewrite elem_of_app. by left.
Qed.

Lemma getDependentTypes_yields (T : Ty) (Idx : Z) (DL : DataLayout)
    (PropSet : gset hashidx_t) :
  yields (λ _, True) (getDependentTypes st T Idx PropSet DL).
Proof.
  unfold getDependentTypes.
  set (s := hashidx_c (typeHash T DL) Idx).
  apply (dependentLoop_terminates _ _ _ _
           ({[s]} ∪ propTargets (typeIdxPropMap st))).
  - set_solver.
  - intros x Hx. apply list_elem_of_singleton in Hx. set_solver.
  - unfold prop_fuel. simpl.
    set (t := size (propTargets (typeIdxPropMap st))).
    assert (size (({[s]} ∪ propTargets (typeIdxPropMap st)) ∖ ∅) ≤ S t)
      as Hle.
    { etrans.
      - apply (subseteq_size _ ({[s]} ∪ propTargets (typeIdxPropMap st))).
        set_solver.
      - rewrite size_union_alt, size_singleton.
        pose proof (subseteq_size
                      (propTargets (typeIdxPropMap st) ∖ {[s]})
                      (propTargets (typeIdxPropMap st))
                      ltac:(set_solver)) as Hsz.
        fold t in Hsz. lia. }
    nia.
Qed.

End DependentFacts.

Section DependentTheorem.
Context `{!Host}.

(** C5: [getDependentTypes (T, i)], called with an empty [PropSet] as the
    resolver calls it, returns, and the set it has produced holds exactly
    the pairs [p] that a path of at least one edge of [typeIdxPropMap]
    reaches from [(typeHash (T), i)], where the edges out of a pair
    [(h, j)] are the pairs stored under [typeIdxPropMap [h][j]] and under
    [typeIdxPropMap [h][-1]].  With the start pair added, the set is the
    set of the pairs reachable by any number of edges (the start pair
    itself is in [PropSet] only when it lies on a cycle).  The loop comes
    to its end within [prop_fuel] rounds, a bound computed from the finite
    graph. *)
Theorem getDependentTypes_reachable (st : MLTA) (T : Ty) (Idx : Z)
    (DL : DataLayout) :
  yields (λ PropSet,
            (∀ p, p ∈ PropSet ↔
                  tc (propEdge st) (hashidx_c (typeHash T DL) Idx) p)
            ∧ (∀ p, p = hashidx_c (typeHash T DL) Idx ∨ p ∈ PropSet ↔
                    rtc (propEdge st) (hashidx_c (typeHash T DL) Idx) p))
         (getDependentTypes st T Idx ∅ DL).
Proof.
  eapply yields_weaken.
  - apply yields_conj; [apply getDependentTypes_yields|].
    unfold getDependentTypes.
    apply (dependentLoop_closure st (hashidx_c (typeHash T DL) Idx) ∅).
    + set_solver.
    + intros a Ha. apply list_elem_of_singleton in Ha as ->. constructor.
    + set_solver.
    + set_solver.
    + right. by left.
  - intros R [_ HR].
    assert (∀ p, p ∈ R ↔ tc (propEdge st) (hashidx_c (typeHash T DL) Idx) p)
      as Htc.
    { intros p. rewrite HR. set_solver. }
    split; [done|]. intros p. rewrite rtc_tc, Htc. naive_solver.
Qed.

End DependentTheorem.

(** ** The resolver *)

Section ResolverFacts.
Context `{!Host}.
Variable cfg : Config.
Variable ir : IR.

Lemma intersectFuncSets_inter (X Y : FuncSet) :
  intersectFuncSets X Y = X ∩ Y.
Proof.
  unfold intersectFuncSets. apply set_eq. intros F.
  rewrite elem_of_filter. set_solver.
Qed.

(** X3: [intersectFuncSets (FS1, FS2, FS)] leaves in [FS] the functions that
    are in both sets, whatever [FS] held before. *)
Lemma intersectFuncSets_spec (X Y : FuncSet) :
  intersectFuncSets X Y = X ∩ Y.
Proof. apply intersectFuncSets_inter. Qed.

(** One round of the loop over the layers: it returns, [FS] has not grown
    and [LayerNo] has gone up by one. *)
Lemma layerStep_yields (st : MLTA) (DL : DataLayout) (NextV : option Value)
    (TyIdx : typeidx_t) (w : Walk) :
  yields (λ r, FS r.1 ⊆ FS w ∧ LayerNo r.1 = (LayerNo w + 1)%Z)
         (layerStep cfg st DL NextV TyIdx w).
Proof.
  unfold layerStep.
  eapply yields_bind with (P := λ _, True).
  { destruct (Matched w !! _); [done|].
    destruct (_ && _); [done|].
    eapply yields_bind; [apply getDependentTypes_yields|].
    intros PropSet _. by destruct (addDependentTargets _ _ _ _). }
  intros [[[X1 X2] M]|] _; simpl; [|done].
  rewrite intersectFuncSets_inter.
  destruct (_ && _); simpl; split; (set_solver || done).
Qed.

(** X2: an escaping layer that is not cached leaves the loop over the layers:
    [FS], the value it walks from and the cache are as before. *)
Lemma layerStep_escaping (st : MLTA) (DL : DataLayout) (NextV : option Value)
    (TyIdx : typeidx_t) (w : Walk) :
  SOUND_MODE cfg = true →
  Matched w !! typeIdxHash TyIdx.1 DL TyIdx.2 = None →
  typeIdxHash TyIdx.1 DL TyIdx.2 ∈ typeEscapeSet st
  ∨ typeIdxHash TyIdx.1 DL (-1)%Z ∈ typeEscapeSet st →
  ∃ w', layerStep cfg st DL NextV TyIdx w = Ret (w', false)
        ∧ FS w' = FS w ∧ CV w' = CV w ∧ Matched w' = Matched w
        ∧ ContinueNextLayer w' = ContinueNextLayer w.
Proof.
  intros Hs Hm He. unfold layerStep. rewrite Hm, Hs. simpl.
  assert (bool_decide (typeIdxHash TyIdx.1 DL TyIdx.2 ∈ typeEscapeSet st)
          || bool_decide (typeIdxHash TyIdx.1 DL (-1)%Z ∈ typeEscapeSet st)
          = true) as ->.
  { apply orb_true_iff.
    destruct He; [left|right]; by apply bool_decide_eq_true. }
  simpl. eauto 10.
Qed.

Lemma forLayers_yields (MAX : Z) (st : MLTA) (DL : DataLayout)
    (NextV : option Value) (TyList : list typeidx_t) (w : Walk) :
  yields (λ w', FS w' ⊆ FS w
                ∧ (LayerNo w ≤ LayerNo w')%Z
                ∧ (TyList ≠ [] → (LayerNo w < MAX)%Z →
                   (LayerNo w < LayerNo w')%Z))
         (forLayers cfg MAX st DL NextV TyList w).
Proof.
  revert w. induction TyList as [|TyIdx TyList IH]; intros w; simpl.
  { split; [done|]. split; [lia|done]. }
  destruct (decide _) as [Hmax|Hmax]; simpl.
  { split; [done|]. split; [lia|]. intros _ ?. lia. }
  eapply yields_bind; [apply layerStep_yields|].
  intros [w1 go] [HFS HNo]. simpl in *.
  destruct go; simpl.
  - eapply yields_weaken; [apply IH|].
    intros w' (HFS' & HNo' & _). split; [set_solver|]. split; lia.
  - split; [done|]. split; lia.
Qed.

Lemma whileLayers_S (MAX : Z) (n : nat) (st : MLTA) (DL : DataLayout)
    (NextV : option Value) (w : Walk) :
  whileLayers cfg ir MAX (S n) st DL NextV w
  = if negb (ContinueNextLayer w) then Ret w
    else if decide (MAX ≤ LayerNo w)%Z then Ret w
    else if SOUND_MODE cfg
            && bool_decide (typeHash (PrevLayerTy w) DL ∈ typeCapSet st)
    then Ret w
    else
      nextLayerBaseType cfg ir (value_fuel ir) st (CV w) [] NextV ∅
      ≫= λ '(_, TyList, NextV, _),
           match TyList with
           | [] => Ret w
           | _ =>
               forLayers cfg MAX st DL NextV TyList w
               ≫= λ w, whileLayers cfg ir MAX n st DL NextV w
           end.
Proof. reflexivity. Qed.

(** The function set only shrinks. *)
Lemma whileLayers_shrinks (MAX : Z) (n : nat) (st : MLTA) (DL : DataLayout)
    (NextV : option Value) (w : Walk) :
  on_return (λ w', FS w' ⊆ FS w) (whileLayers cfg ir MAX n st DL NextV w).
Proof.
  revert NextV w. induction n as [|n IH]; intros NextV w; [done|].
  rewrite whileLayers_S.
  destruct (negb _); [by simpl|]. destruct (decide _); [by simpl|].
  destruct (_ && _); [by simpl|].
  eapply on_return_bind with (P := λ _, True).
  { by destruct (nextLayerBaseType _ _ _ _ _ _ _ _). }
  intros [[[ret TyList] NextV'] Vis] _.
  destruct TyList as [|TyIdx TyList]; [by simpl|].
  eapply on_return_bind.
  { apply yields_on_return, forLayers_yields. }
  intros w1 (HFS & _). simpl in HFS.
  eapply on_return_weaken; [apply IH|]. intros w' ?. set_solver.
Qed.

(** The loop comes to its end: a round that goes on has added at least
    one to [LayerNo]. *)
Lemma whileLayers_terminates (MAX : Z) (n : nat) (st : MLTA)
    (DL : DataLayout) (NextV : option Value) (w : Walk) :
  Z.to_nat (MAX - LayerNo w) < n →
  terminates (whileLayers cfg ir MAX n st DL NextV w).
Proof.
  revert NextV w. induction n as [|n IH]; intros NextV w Hn; [lia|].
  rewrite whileLayers_S.
  destruct (negb _); [done|]. destruct (decide _) as [|Hmax]; [done|].
  destruct (_ && _); [done|].
  apply terminates_bind; [apply nextLayerBaseType_value_fuel|].
  intros [[[ret TyList] NextV'] Vis] _.
  destruct TyList as [|TyIdx TyList]; [done|].
  pose proof (forLayers_yields MAX st DL NextV' (TyIdx :: TyList) w) as Hy.
  apply yields_inv in Hy as (w1 & Hw1 & _ & _ & HNo).
  rewrite Hw1. simpl. apply IH.
  assert (LayerNo w < LayerNo w1)%Z by (apply HNo; [done|lia]). lia.
Qed.

Lemma whileLayers_returns (MAX : Z) (st : MLTA) (DL : DataLayout)
    (NextV : option Value) (w : Walk) :
  LayerNo w = 1%Z →
  returns (λ w', FS w' ⊆ FS w)
          (whileLayers cfg ir MAX (layer_fuel MAX) st DL NextV w).
Proof.
  intros H1. apply returns_split; [|apply whileLayers_shrinks].
  apply whileLayers_terminates. unfold layer_fuel. lia.
Qed.

(** *** Two bounds on the number of layers *)

Lemma forLayers_lockstep (k : Z) (st : MLTA) (DL : DataLayout)
    (NextV : option Value) (TyList : list typeidx_t) (w w1 : Walk) :
  forLayers cfg (k + 1) st DL NextV TyList w = Ret w1 →
  ∃ w2, forLayers cfg k st DL NextV TyList w = Ret w2
        ∧ (w1 = w2 ∨ ((k ≤ LayerNo w2)%Z ∧ FS w1 ⊆ FS w2)).
Proof.
  revert w. induction TyList as [|TyIdx TyList IH]; intros w; simpl.
  { intros [= <-]. eauto. }
  destruct (decide (k + 1 ≤ LayerNo w)%Z) as [H1|H1].
  { intros [= <-]. rewrite decide_True by lia. eauto. }
  destruct (decide (k ≤ LayerNo w)%Z) as [H2|H2].
  { intros Hr. exists w. split; [done|]. right. split; [done|].
    pose proof (forLayers_yields (k + 1) st DL NextV (TyIdx :: TyList) w)
      as Hy.
    simpl in Hy. rewrite decide_False in Hy by done.
    rewrite Hr in Hy. simpl in Hy. tauto. }
  destruct (layerStep cfg st DL NextV TyIdx w) as [[wa go]| |]; simpl;
    [|done..].
  destruct go; [apply IH|]. intros [= <-]. eauto.
Qed.

Lemma whileLayers_lockstep (k : Z) (st : MLTA) (DL : DataLayout) (n n' : nat)
    (NextV : option Value) (w w1 : Walk) :
  Z.to_nat (k - LayerNo w) < n →
  whileLayers cfg ir (k + 1) n' st DL NextV w = Ret w1 →
  ∃ w2, whileLayers cfg ir k n st DL NextV w = Ret w2 ∧ FS w1 ⊆ FS w2.
Proof.
  revert n' NextV w. induction n as [|n IH]; intros n' NextV w Hn; [lia|].
  destruct n' as [|n']; [done|].
  rewrite !whileLayers_S.
  destruct (ContinueNextLayer w) eqn:Hc; cbn [negb]; [|intros [= <-]; eauto].
  destruct (decide (k + 1 ≤ LayerNo w)%Z) as [H1|H1].
  { intros [= <-]. rewrite decide_True by lia. eauto. }
  destruct (decide (k ≤ LayerNo w)%Z) as [H2|H2].
  { intros Hr. exists w. split; [done|].
    pose proof (whileLayers_shrinks (k + 1) (S n') st DL NextV w) as Hs.
    rewrite whileLayers_S, Hc, decide_False in Hs by done. cbn [negb] in Hs.
    rewrite Hr in Hs. done. }
  destruct (_ && _); [intros [= <-]; eauto|].
  destruct (nextLayerBaseType _ _ _ _ _ _ _ _)
    as [[[[ret TyList] NextV'] Vis]| |]; simpl; [|done..].
  destruct TyList as [|TyIdx TyList]; [intros [= <-]; eauto|].
  intros Hr. apply bind_inv_Ret in Hr as (wa & Hfor & Hrest).
  destruct (forLayers_lockstep k st DL NextV' _ w wa Hfor)
    as (wb & -> & Hrel). simpl.
  pose proof (forLayers_yields (k + 1) st DL NextV' (TyIdx :: TyList) w)
    as Hy.
  rewrite Hfor in Hy. simpl in Hy. destruct Hy as (_ & _ & HNo).
  destruct Hrel as [<-|[Hk HFS]].
  - apply (IH n'); [|done].
    assert (LayerNo w < LayerNo wa)%Z by (apply HNo; [done|lia]). lia.
  - exists wb. split.
    + destruct n as [|n]; [lia|]. rewrite whileLayers_S.
      destruct (negb _); [done|]. by rewrite decide_True.
    + pose proof (whileLayers_shrinks (k + 1) n' st DL NextV' wa) as Hs.
      rewrite Hrest in Hs. simpl in Hs. set_solver.
Qed.

Lemma whileLayers_layer_fuel (MAX : Z) (st : MLTA) (DL : DataLayout)
    (NextV : option Value) (w : Walk) :
  LayerNo w = 1%Z →
  terminates (whileLayers cfg ir MAX (layer_fuel MAX) st DL NextV w).
Proof.
  intros H1. apply whileLayers_terminates. unfold layer_fuel. lia.
Qed.

Lemma whileLayers_lockstep_layer_fuel (k : Z) (st : MLTA) (DL : DataLayout)
    (NextV : option Value) (w w1 : Walk) :
  LayerNo w = 1%Z →
  whileLayers cfg ir (k + 1) (layer_fuel (k + 1)) st DL NextV w = Ret w1 →
  ∃ w2, whileLayers cfg ir k (layer_fuel k) st DL NextV w = Ret w2
        ∧ FS w1 ⊆ FS w2.
Proof.
  intros H1. apply whileLayers_lockstep. unfold layer_fuel. lia.
Qed.

End ResolverFacts.

Section ResolverTheorems.
Context `{!Host}.

(** C1: the function set that [findCalleesWithMLTA (CI, FS)] produces is
    a subset of the layer-1 seed [sigFuncsMap [callHash (CI)]]; the call
    comes to its end within the bounds of the model (it returns, or stops
    on a failed assertion of the layer walker). *)
Theorem findCalleesWithMLTA_within_seed (cfg : Config) (ir : IR)
    (MAX_TYPE_LAYER : Z) (st : MLTA) (CI : Value) :
  returns (λ r, r.1.2 ⊆ seedOf st CI)
          (findCalleesWithMLTA cfg ir MAX_TYPE_LAYER st CI).
Proof.
  unfold findCalleesWithMLTA, seedOf.
  destruct (kind (node ir CI)); try (by simpl).
  destruct (decide _); [by simpl|].
  destruct (parent (node ir CI)); [|by simpl].
  eapply returns_bind.
  { by apply whileLayers_returns. }
  by intros w Hw.
Qed.

(** C8: when the seed [sigFuncsMap [callHash (CI)]] of a call instruction
    is empty, [findCalleesWithMLTA] returns [false] with [FS] empty, and
    the tables and the cache are as before: no layer was walked. *)
Theorem findCalleesWithMLTA_empty_seed (cfg : Config) (ir : IR)
    (MAX_TYPE_LAYER : Z) (st : MLTA) (CI : Value)
    (FTy : Ty) (args : list Value) (callee : Value) :
  kind (node ir CI) = KCall FTy args callee →
  seedOf st CI = ∅ →
  findCalleesWithMLTA cfg ir MAX_TYPE_LAYER st CI = Ret (false, ∅, st).
Proof.
  unfold findCalleesWithMLTA, seedOf. intros -> ->.
  by rewrite decide_True.
Qed.

(** C4: over the same tables and the same cache at the start (an empty
    one in particular), the set that [findCalleesWithMLTA (CI)] returns
    with [MAX_TYPE_LAYER = k + 1] is a subset of the set it returns with
    [MAX_TYPE_LAYER = k]; both runs come to their end. *)
Theorem findCalleesWithMLTA_layer_monotone (cfg : Config) (ir : IR)
    (st : MLTA) (CI : Value) (k : Z) :
  within (calleesOf (findCalleesWithMLTA cfg ir (k + 1) st CI))
         (calleesOf (findCalleesWithMLTA cfg ir k st CI)).
Proof.
  unfold findCalleesWithMLTA, calleesOf.
  destruct (kind (node ir CI)); try (by simpl).
  destruct (decide _); [by simpl|].
  destruct (parent (node ir CI)) as [caller|]; [|by simpl].
  set (DL := DLMap _). set (w0 := Build_Walk _ _ _ _ _ _ _ _).
  pose proof (whileLayers_layer_fuel cfg ir (k + 1) st DL None w0 eq_refl)
    as Ht1.
  pose proof (whileLayers_layer_fuel cfg ir k st DL None w0 eq_refl) as Ht2.
  pose proof (whileLayers_lockstep_layer_fuel cfg ir k st DL None w0) as Hl.
  destruct (whileLayers cfg ir (k + 1) _ st DL None w0) as [w1| |];
    [|by destruct (whileLayers _ _ _ _ _ _ _ _)|done].
  destruct (Hl w1 eq_refl eq_refl) as (w2 & -> & HFS). done.
Qed.

End ResolverTheorems.

(** The empty-seed case on the call through the nested structs. *)
Lemma findCalleesWithMLTA_empty_seed_witness :
  @findCalleesWithMLTA toyHost soundSensitive nestedIR 10 noSeedTables
                       nestedCall
  = Ret (false, ∅, noSeedTables).
Proof.
  apply (@findCalleesWithMLTA_empty_seed toyHost soundSensitive nestedIR 10
           noSeedTables nestedCall fnTy [] nestedCallee);
    reflexivity.
Defined.

(** C3, as the code has it: the resolver does not stop at an escaping
    layer.  In sound mode, with an empty cache, the walker yields the
    layers (A, 2) and (S, 1) for the callee of [nestedCall] and goes on
    from [nestedBase]; the slot (S, 1) is in
    [typeEscapeSet].  Before that layer [FS] is {101, 102} (the run with
    [MAX_TYPE_LAYER = 2] ends there).  The [break] at the escaping layer
    leaves the loop over [TyList] only: the loop [while
    (ContinueNextLayer)] goes on from [nestedBase], intersects [FS] with
    the targets of the next layer (R, 0), and the run returns {101}; the
    cache has no entry for (S, 1) at the end either. *)
Theorem findCalleesWithMLTA_descends_past_escape :
  (r ← @nextLayerBaseType toyHost soundSensitive nestedIR
         (value_fuel nestedIR) nestedTables (Some nestedCallee) [] None ∅;
   Ret (r.1.1.2, r.1.2))
  = Ret ([(tA, 2%Z); (tS, 1%Z)], Some nestedBase)
  ∧ @typeIdxHash toyHost tS 1%positive 1%Z ∈ typeEscapeSet nestedTables
  ∧ MatchedFuncsMap nestedTables = ∅
  ∧ calleesOf (@findCalleesWithMLTA toyHost soundSensitive nestedIR 2
                 nestedTables nestedCall)
    = Ret {[f101; f102]}
  ∧ calleesOf (@findCalleesWithMLTA toyHost soundSensitive nestedIR 10
                 nestedTables nestedCall)
    = Ret {[f101]}
  ∧ (r ← @findCalleesWithMLTA toyHost soundSensitive nestedIR 10
           nestedTables nestedCall;
     Ret (MatchedFuncsMap r.2 !! @typeIdxHash toyHost tS 1%positive 1%Z))
    = Ret None.
Proof.
  split; [by vm_compute|]. split; [by vm_compute|]. split; [done|].
  split; [by vm_compute|]. split; by vm_compute.
Qed.

(** ** Confinement in field-insensitive mode *)

Section CollectorFacts.
Context `{!Host}.
Variable cfg : Config.
Variable ir : IR.
Hypothesis insensitive : MLTA_FIELD_INSENSITIVE cfg = true.

Lemma at2_insert2_other {A} `{Countable A} (m : gmap N (gmap Z (gset A)))
    (h h' : N) (i i' : Z) (x : A) :
  i ≠ i' → at2 (insert2 m h i x) h' i' = at2 m h' i'.
Proof.
  intros Hi. unfold insert2, at2 at 1.
  destruct (decide (h = h')) as [->|Hh].
  - rewrite lookup_insert_eq. simpl. by rewrite lookup_insert_ne.
  - by rewrite lookup_insert_ne.
Qed.

Lemma collapsedMap_insert2 (m : gmap N (gmap Z FuncSet)) (h : N) (F : FuncId) :
  collapsedMap m → collapsedMap (insert2 m h 0%Z F).
Proof.
  intros Hm h' i' Hi. rewrite at2_insert2_other by done. by apply Hm.
Qed.

Lemma collapsedMap_chain (TyChain : list typeidx_t) (DL : DataLayout)
    (F : FuncId) (m : gmap N (gmap Z FuncSet)) :
  allIndexZero TyChain → collapsedMap m →
  collapsedMap (foldl (λ m (TI : typeidx_t),
                         insert2 m (typeHash TI.1 DL) TI.2 F) m TyChain).
Proof.
  intros Hz. revert m. induction Hz as [|TI TyChain H0 _ IH]; intros m Hm.
  { done. }
  simpl. apply IH. rewrite H0. by apply collapsedMap_insert2.
Qed.

Lemma confineTargetFunction_collapsed (st : MLTA) (V : Value) (F : FuncId)
    (DL : DataLayout) :
  collapsed st →
  on_return collapsed (confineTargetFunction cfg ir st V F DL).
Proof.
  intros Hst. unfold confineTargetFunction.
  destruct (isIntrinsic _); [done|].
  eapply on_return_bind.
  { apply on_return_conj.
    - apply (getBaseTypeChain_zero cfg ir st [] (Some V) DL insensitive).
      constructor.
    - apply getBaseTypeChain_tables. }
  intros [[TyChain Complete] st'] [Hz (Hm & _)]. simpl in *.
  assert (collapsedMap
            (foldl (λ m (TI : typeidx_t),
                      insert2 m (typeHash TI.1 DL) TI.2 F)
                   (typeIdxFuncsMap st') TyChain)) as Hc.
  { apply collapsedMap_chain; [done|]. by rewrite Hm. }
  destruct Complete; [done|]. by destruct (last TyChain).
Qed.

Lemma confineContainers_collapsed (n : nat) (DL : DataLayout)
    (ContainersMap : gmap Value (Value * Z)) (FoundF : FuncId)
    (CV : Value) (Visited : gset Value) (m : gmap N (gmap Z FuncSet)) :
  collapsedMap m →
  on_return collapsedMap
    (confineContainers cfg ir n DL ContainersMap FoundF CV Visited m).
Proof.
  revert CV Visited m. induction n as [|n IH]; intros CV Visited m Hm; [done|].
  simpl. destruct (ContainersMap !! CV) as [Container|]; [|done].
  rewrite insensitive.
  destruct (decide _); [by apply collapsedMap_insert2|].
  apply IH. by apply collapsedMap_insert2.
Qed.

Lemma classifyOperand_tables (GV : Value) (DL : DataLayout) (U Opnd : Value)
    (LU : list (option Value)) (st : MLTA) :
  on_return (λ c, typeIdxFuncsMap c.2 = typeIdxFuncsMap st)
            (classifyOperand ir GV DL U Opnd LU st).
Proof.
  unfold classifyOperand.
  destruct (kind (node ir Opnd)); simpl; try done;
    destruct (isCompositeType _); simpl; try done;
    repeat (match goal with
            | |- context [match ?x with _ => _ end] => destruct x
            end; simpl; try done).
Qed.

Lemma initOperands_cons (GV : Value) (DL : DataLayout) (U Opnd : Value)
    (ops : list Value) (No : nat) (LU : list (option Value))
    (CM : gmap Value (Value * Z)) (st : MLTA) :
  initOperands cfg ir GV DL U (Opnd :: ops) No (LU, CM, st)
  = let CM' := <[Opnd := (U, Z.of_nat No)]> CM in
    classifyOperand ir GV DL U Opnd LU st
    ≫= λ c,
      match c.1.1 with
      | Some F =>
          if isIntrinsic (func ir F) then Ret c.2
          else
            confineContainers cfg ir (S (size CM')) DL CM' F Opnd ∅
                              (typeIdxFuncsMap c.2)
            ≫= λ m, Ret (set_typeIdxFuncsMap m c.2)
      | None => Ret c.2
      end
      ≫= λ st, initOperands cfg ir GV DL U ops (S No) (c.1.2, CM', st).
Proof.
  cbn [initOperands].
  by destruct (classifyOperand ir GV DL U Opnd LU st) as [[[? ?] ?]| |].
Qed.

Lemma initOperands_collapsed (GV : Value) (DL : DataLayout) (U : Value)
    (ops : list Value) (No : nat) (s : initState) :
  collapsed s.2 →
  on_return (λ s', collapsed s'.2) (initOperands cfg ir GV DL U ops No s).
Proof.
  revert No s. induction ops as [|Opnd ops IH]; intros No [[LU CM] st] Hst.
  { done. }
  rewrite initOperands_cons. cbv zeta.
  eapply on_return_bind; [apply classifyOperand_tables|].
  intros [[FoundF LU'] st'] Ht. cbn [fst snd] in *.
  assert (collapsed st') as Hst' by (unfold collapsed; by rewrite Ht).
  eapply on_return_bind with (P := collapsed).
  - destruct FoundF as [F|]; [|done].
    destruct (isIntrinsic _); [done|].
    eapply on_return_bind; [by apply confineContainers_collapsed|].
    by intros m Hm.
  - intros st'' Hst''. by apply IH.
Qed.

Lemma initLoop_collapsed (n : nat) (GV : Value) (DL : DataLayout)
    (Visited : gset Value) (s : initState) :
  collapsed s.2 →
  on_return collapsed (initLoop cfg ir n GV DL Visited s).
Proof.
  revert Visited s. induction n as [|n IH]; intros Visited [[LU CM] st] Hst.
  { done. }
  simpl. destruct LU as [|[U|] LU]; [done| |done].
  destruct (decide _); [by apply IH|].
  destruct (isFunctionTy _); [done|].
  assert (on_return collapsed
            (initOperands cfg ir GV DL U (operands (kind (node ir U))) 0
                          (LU, CM, st)
             ≫= λ s, initLoop cfg ir n GV DL ({[U]} ∪ Visited) s)) as Hgo.
  { eapply on_return_bind; [by apply initOperands_collapsed|].
    intros s' Hs'. by apply IH. }
  destruct (getType ir U); try exact Hgo.
  destruct (operands (kind (node ir U))) eqn:Hops; [by apply IH|].
  destruct (decide _); [exact Hgo|done].
Qed.

Lemma typeConfineInInitializer_collapsed (st : MLTA) (GV : Value)
    (DL : DataLayout) :
  collapsed st →
  on_return (λ r, collapsed r.2) (typeConfineInInitializer cfg ir st GV DL).
Proof.
  intros Hst. unfold typeConfineInInitializer.
  destruct (kind (node ir GV)) as [|[Ini|]| | | | | | | | | | | | | | | | | ];
    try done.
  destruct (kind (node ir Ini)); try done.
  eapply on_return_bind; [by apply initLoop_collapsed|]. by intros st' ?.
Qed.

Lemma confineAll_collapsed (st : MLTA) (Vs : list Value) (F : FuncId)
    (DL : DataLayout) :
  collapsed st → on_return collapsed (confineAll cfg ir st Vs F DL).
Proof.
  revert st. induction Vs as [|V Vs IH]; intros st Hst; [done|].
  simpl. eapply on_return_bind; [by apply confineTargetFunction_collapsed|].
  intros st' ?. by apply IH.
Qed.

Lemma confineCallOperands_collapsed (st : MLTA) (callee : Value)
    (ops : list Value) (No : nat) (DL : DataLayout) :
  collapsed st →
  on_return collapsed (confineCallOperands cfg ir st callee ops No DL).
Proof.
  revert st No. induction ops as [|Opnd ops IH]; intros st No Hst; [done|].
  simpl. eapply on_return_bind with (P := collapsed); [|intros; by apply IH].
  destruct (asFunction ir Opnd) as [F|]; [|done].
  destruct (isIntrinsic _); [done|].
  destruct (isIndirectCall ir callee).
  { by apply confineTargetFunction_collapsed. }
  destruct (asFunction ir callee) as [CF|]; [|done].
  destruct (if isDeclaration (func ir CF) then _ else _) as [CF'|]; [|done].
  destruct (getParamByArgNo ir CF' No); [|done].
  by apply confineAll_collapsed.
Qed.

Lemma confineInstructions_collapsed (st : MLTA) (F : FuncId)
    (Is : list Value) (DL : DataLayout) :
  collapsed st →
  on_return collapsed (confineInstructions cfg ir st F Is DL).
Proof.
  revert st. induction Is as [|Inst Is IH]; intros st Hst; [done|].
  simpl. eapply on_return_bind with (P := collapsed); [|intros; by apply IH].
  unfold confineInstruction.
  destruct (kind (node ir Inst)); try done.
  - eapply on_return_bind with (P := λ _, True).
    { by destruct (getBaseFunction _ _). }
    intros [CF|] _; [|done]. destruct (isIntrinsic _); [done|].
    by apply confineTargetFunction_collapsed.
  - by apply confineCallOperands_collapsed.
Qed.

End CollectorFacts.

Section CollectorTheorem.
Context `{!Host}.

(** C7: in field-insensitive mode, whatever sequence of
    [typeConfineInInitializer] and [typeConfineInFunction] calls (with
    [collectAliasStructPtr] between them) the collection phase runs over
    the globals and functions of the modules, if [typeIdxFuncsMap [T][i]]
    is empty for every [T] and every [i] other than 0 before it (as in the
    empty table the phase starts from), it is so after it: every insertion
    of the two passes uses index 0. *)
Theorem collect_collapsed (cfg : Config) (ir : IR) (st : MLTA)
    (steps : list CollectStep) :
  MLTA_FIELD_INSENSITIVE cfg = true →
  collapsed st →
  on_return collapsed (collect cfg ir st steps).
Proof.
  intros insensitive. revert st.
  induction steps as [|[GV DL|F DL|F] steps IH]; intros st Hst.
  - done.
  - simpl. eapply on_return_bind.
    { by apply typeConfineInInitializer_collapsed. }
    intros [b st'] ?. by apply IH.
  - simpl. unfold typeConfineInFunction.
    eapply on_return_bind with (P := λ r, collapsed r.2).
    { eapply on_return_bind; [by apply confineInstructions_collapsed|].
      intros st' Hst'. exact Hst'. }
    intros [b st'] ?. by apply IH.
  - simpl. apply IH. unfold collapsed, collectAliasStructPtr.
    by destruct (foldl _ _ _).
Qed.

End CollectorTheorem.

(** ** The walk of an initializer comes to its end *)

Section InitializerFacts.
Context `{!Host}.
Variable cfg : Config.
Variable ir : IR.

Lemma sum_list_with_ext_in {A} (f g : A → nat) (l : list A) :
  (∀ x, x ∈ l → f x = g x) → sum_list_with f l = sum_list_with g l.
Proof.
  induction l as [|x l IH]; intros Hfg; simpl; [done|].
  rewrite (Hfg x) by left. rewrite IH; [done|].
  intros y Hy. apply Hfg. by right.
Qed.

Lemma expansionWeight_empty :
  init_fuel ir = S (S (expansionWeight ir ∅)).
Proof.
  unfold init_fuel, expansionWeight. by do 2 f_equal.
Qed.

Lemma expansionWeight_visit (U : Value) (n : Node) (Visited : gset Value) :
  values ir !! U = Some n → U ∉ Visited →
  expansionWeight ir ({[U]} ∪ Visited) + S (length (operands (kind n)))
  = expansionWeight ir Visited.
Proof.
  intros HU Hv. unfold expansionWeight.
  rewrite <- !(map_to_list_delete (values ir) U n HU). simpl.
  rewrite decide_True by set_solver. rewrite decide_False by done.
  rewrite (sum_list_with_ext_in _
             (λ vn : Value * Node,
                if decide (vn.1 ∈ Visited) then 0
                else S (length (operands (kind vn.2))))).
  { lia. }
  intros [v n'] Hin. simpl.
  apply elem_of_map_to_list in Hin.
  assert (v ≠ U) as Hne.
  { intros ->. by rewrite lookup_delete_eq in Hin. }
  destruct (decide (v ∈ Visited)).
  - by rewrite decide_True by set_solver.
  - by rewrite decide_False by set_solver.
Qed.

Lemma expansionWeight_visit_opaque (U : Value) (Visited : gset Value) :
  values ir !! U = None →
  expansionWeight ir ({[U]} ∪ Visited) = expansionWeight ir Visited.
Proof.
  intros HU. unfold expansionWeight.
  apply sum_list_with_ext_in. intros [v n'] Hin. simpl.
  apply elem_of_map_to_list in Hin.
  assert (v ≠ U) as Hne by (intros ->; congruence).
  destruct (decide (v ∈ Visited)).
  - by rewrite decide_True by set_solver.
  - by rewrite decide_False by set_solver.
Qed.

(** The climb through the containers visits a container once. *)
Lemma confineContainers_terminates (n : nat) (DL : DataLayout)
    (CM : gmap Value (Value * Z)) (FoundF : FuncId) (CV : Value)
    (Visited : gset Value) (m : gmap N (gmap Z FuncSet)) :
  CV ∉ Visited → size (dom CM ∖ Visited) < n →
  terminates (confineContainers cfg ir n DL CM FoundF CV Visited m).
Proof.
  revert CV Visited m.
  induction n as [|n IH]; intros CV Visited m Hv Hn; [lia|].
  simpl. destruct (CM !! CV) as [Container|] eqn:HCV; [|done].
  destruct (decide _) as [|Hnext]; [done|].
  apply IH; [done|].
  assert (size (dom CM ∖ ({[CV]} ∪ Visited)) < size (dom CM ∖ Visited));
    [|lia].
  apply subset_size. apply strict_spec_alt. split; [set_solver|].
  intros Heq. assert (CV ∈ dom CM ∖ Visited) as Hin.
  { apply elem_of_difference. split; [|done]. apply elem_of_dom. eauto. }
  rewrite <- Heq in Hin. set_solver.
Qed.

Lemma classifyOperand_pushes (GV : Value) (DL : DataLayout) (U Opnd : Value)
    (LU : list (option Value)) (st : MLTA) :
  returns (λ c, length c.1.2 ≤ S (length LU))
          (classifyOperand ir GV DL U Opnd LU st).
Proof.
  unfold classifyOperand, pushUser.
  destruct (kind (node ir Opnd)); simpl; try lia;
    destruct (isCompositeType _); simpl;
    rewrite ?length_app; simpl; try lia;
    repeat (match goal with
            | |- context [match ?x with _ => _ end] => destruct x
            end; simpl; rewrite ?length_app; simpl; try lia; try done).
Qed.

Lemma initOperands_pushes (GV : Value) (DL : DataLayout) (U : Value)
    (ops : list Value) (No : nat) (s : initState) :
  returns (λ s', length s'.1.1 ≤ length s.1.1 + length ops)
          (initOperands cfg ir GV DL U ops No s).
Proof.
  revert No s. induction ops as [|Opnd ops IH]; intros No [[LU CM] st].
  { simpl. lia. }
  rewrite initOperands_cons. cbv zeta.
  eapply returns_bind; [apply classifyOperand_pushes|].
  intros [[FoundF LU'] st'] Hlen. cbn [fst snd] in *.
  eapply returns_bind with (P := λ _, True).
  - destruct FoundF as [F|]; [|done].
    destruct (isIntrinsic _); [done|].
    eapply returns_bind with (P := λ _, True); [|done].
    apply confineContainers_terminates; [set_solver|].
    rewrite difference_empty_L, size_dom. lia.
  - intros st'' _. eapply returns_weaken; [apply IH|].
    intros s'. simpl. lia.
Qed.

(** The work list: an entry is expanded at most once. *)
Lemma initLoop_terminates (n : nat) (GV : Value) (DL : DataLayout)
    (Visited : gset Value) (s : initState) :
  length s.1.1 + expansionWeight ir Visited < n →
  terminates (initLoop cfg ir n GV DL Visited s).
Proof.
  revert Visited s.
  induction n as [|n IH]; intros Visited [[LU CM] st] Hn; [lia|].
  simpl in Hn. simpl. destruct LU as [|[U|] LU]; [done| |done].
  simpl in Hn. destruct (decide _) as [Hv|Hv].
  { apply IH. simpl. lia. }
  destruct (isFunctionTy _); [done|].
  unfold getType, node.
  destruct (values ir !! U) as [nd|] eqn:HU; simpl.
  - pose proof (expansionWeight_visit U nd Visited HU Hv) as Hw.
    assert (terminates
              (initOperands cfg ir GV DL U (operands (kind nd)) 0
                            (LU, CM, st)
               ≫= λ s, initLoop cfg ir n GV DL ({[U]} ∪ Visited) s))
      as Hgo.
    { eapply returns_bind; [apply initOperands_pushes|].
      intros s' Hs'. simpl in Hs'. apply IH. lia. }
    destruct (type nd); try exact Hgo.
    destruct (operands (kind nd)) eqn:Hops; [apply IH; simpl; lia|].
    destruct (decide _); [exact Hgo|done].
  - apply IH. simpl.
    rewrite (expansionWeight_visit_opaque U Visited HU). lia.
Qed.

End InitializerFacts.

Section InitializerTheorem.
Context `{!Host}.

(** X4: [typeConfineInInitializer] comes to its end for every global, on
    cyclic initializers too: within [init_fuel] rounds of its work list
    it returns or stops on an assertion. *)
Theorem typeConfineInInitializer_total (cfg : Config) (ir : IR) (st : MLTA)
    (GV : Value) (DL : DataLayout) :
  terminates (typeConfineInInitializer cfg ir st GV DL).
Proof.
  unfold typeConfineInInitializer.
  destruct (kind (node ir GV)) as [|[Ini|]| | | | | | | | | | | | | | | | | ];
    try done.
  destruct (kind (node ir Ini)); try done.
  apply terminates_bind; [|done].
  apply initLoop_terminates. rewrite expansionWeight_empty. simpl. lia.
Qed.

End InitializerTheorem.

(** ** The theorems on the concrete programs *)

(** In the function of [aliasIR] the allocation that is cast once is
    mapped to its cast, and the one that is cast twice is not in the
    map. *)
Lemma collectAliasStructPtr_single_cast_witness :
  aliasMapOf (@collectAliasStructPtr toyHost aliasIR emptyMLTA aliasFunction)
             aliasFunction !! allocCastOnce = Some onlyCast
  ∧ aliasMapOf (@collectAliasStructPtr toyHost aliasIR emptyMLTA aliasFunction)
               aliasFunction !! allocCastTwice = None.
Proof.
  split.
  - apply (proj1 (@collectAliasStructPtr_single_cast toyHost aliasIR emptyMLTA
                    aliasFunction allocCastOnce onlyCast)).
    right. split; reflexivity.
  - apply (proj2 (@collectAliasStructPtr_single_cast toyHost aliasIR emptyMLTA
                    aliasFunction allocCastTwice firstCast)).
    vm_compute. lia.
Defined.

Lemma collapsed_emptyMLTA : collapsed emptyMLTA.
Proof. intros h i _. unfold at2. simpl. by rewrite lookup_empty. Qed.

(** The collection over [confineIR] in field-insensitive mode: both
    functions of the table, and the function stored into its second field,
    are recorded under index 0 of [%V]. *)
Lemma collect_collapsed_witness :
  (st ← @collect toyHost soundInsensitive confineIR emptyMLTA confineSteps;
   Ret (typeIdxFuncsMap st))
  = Ret {[ tyCode tV := {[ 0%Z := {[f101; f102]} ]} ]}
  ∧ on_return collapsed
      (@collect toyHost soundInsensitive confineIR emptyMLTA confineSteps).
Proof.
  split; [by vm_compute|].
  apply (@collect_collapsed toyHost soundInsensitive confineIR emptyMLTA
           confineSteps); [reflexivity|exact collapsed_emptyMLTA].
Defined.

(** At the escaping layer (S, 1) of the call through the nested structs
    the round leaves the loop over the layers with [FS] as it was. *)
Lemma layerStep_escaping_witness :
  ∃ w', @layerStep toyHost soundSensitive nestedTables 1%positive
          (Some nestedBase) (tS, 1%Z) nestedWalk = Ret (w', false)
        ∧ FS w' = FS nestedWalk ∧ CV w' = CV nestedWalk
        ∧ Matched w' = Matched nestedWalk
        ∧ ContinueNextLayer w' = ContinueNextLayer nestedWalk.
Proof.
  apply (@layerStep_escaping toyHost soundSensitive nestedTables 1%positive
           (Some nestedBase) (tS, 1%Z) nestedWalk).
  - reflexivity.
  - by vm_compute.
  - left. by vm_compute.
Defined.

(** ** Signature matching: what the type match decides, and the cache *)

Section MatchFacts.
Context `{!Host}.

Lemma peelPointers_stops (T1 T2 : Ty) :
  isPointerTy (peelPointers T1 T2).1 && isPointerTy (peelPointers T1 T2).2
  = false.
Proof.
  revert T2. induction T1 as [| |E1 IH| | | | |]; intros T2;
    destruct T2; simpl; try done.
Qed.

Variable ir : IR.





End MatchFacts.

Section MatchTheorems.
Context `{!Host}.

(** X5: when [Int8PtrTy[M1]] is a pointer type, [fuzzyTypeMatch] holds
    exactly when the two types are the same or, with their common pointer
    levels taken off (lines 59-62), are structs of one name, integers of
    one width, or [Int8PtrTy[M1]] and [IntPtrTy[M2]] in one order or the
    other.  The tests [Ty->isPointerTy ()] of lines 77 and 80 decide
    nothing: after the loop the two types are never both pointers, so that
    a general pointer is matched with no other pointer type. *)
Theorem fuzzyTypeMatch_general_pointer (T1 T2 : Ty) (M1 M2 : ModuleId) :
  isPointerTy (Int8PtrTy M1) = true →
  fuzzyTypeMatch T1 T2 M1 M2 = true ↔
    T1 = T2
    ∨ (∃ C1 C2 n, peelPointers T1 T2 = (StructTy C1 n, StructTy C2 n))
    ∨ (∃ C1 C2 w, peelPointers T1 T2 = (IntegerTy C1 w, IntegerTy C2 w))
    ∨ peelPointers T1 T2 = (Int8PtrTy M1, IntPtrTy M2)
    ∨ peelPointers T1 T2 = (IntPtrTy M2, Int8PtrTy M1).
Proof.
  intros H8. unfold fuzzyTypeMatch.
  destruct (decide (T1 = T2)) as [->|Hne]; [by split; [left|]|].
  pose proof (peelPointers_stops T1 T2) as Hstop.
  destruct (peelPointers T1 T2) as [U1 U2]; simpl in Hstop.
  destruct (isStructTy U1 && isStructTy U2
            && bool_decide (getStructName U1 = getStructName U2)) eqn:Hs.
  { apply andb_prop in Hs as [[H1 H2]%andb_prop Hn%bool_decide_eq_true].
    split; [intros _|done]. right; left.
    destruct U1; try done. destruct U2; try done. simpl in Hn. subst.
    eauto. }
  destruct (isIntegerTy U1 && isIntegerTy U2
            && bool_decide (getIntegerBitWidth U1 = getIntegerBitWidth U2))
    eqn:Hi.
  { apply andb_prop in Hi as [[H1 H2]%andb_prop Hn%bool_decide_eq_true].
    split; [intros _|done]. right; right; left.
    destruct U1; try done. destruct U2; try done. simpl in Hn. subst.
    eauto. }
  split.
  - intros Hm. right; right; right.
    destruct (_ || _) eqn:Hor in Hm; [|done].
    apply orb_prop in Hor
      as [[Ha%bool_decide_eq_true Hb]%andb_prop
         |[Ha%bool_decide_eq_true Hb]%andb_prop].
    + subst U1. rewrite H8 in Hstop. simpl in Hstop. rewrite Hstop in Hb.
      simpl in Hb. apply bool_decide_eq_true in Hb. subst. by left.
    + subst U2. rewrite H8, andb_true_r in Hstop. rewrite Hstop in Hb.
      simpl in Hb. apply bool_decide_eq_true in Hb. subst. by right.
  - intros [?|[(C1 & C2 & n & [= -> ->])|[(C1 & C2 & w & [= -> ->])|[[= -> ->]|[= -> ->]]]]];
      [done| | | |].
    + simpl in Hs. by rewrite bool_decide_eq_true_2 in Hs.
    + simpl in Hi. by rewrite bool_decide_eq_true_2 in Hi.
    + by rewrite !bool_decide_eq_true_2, orb_true_r by done.
    + rewrite (bool_decide_eq_true_2 (IntPtrTy M2 = IntPtrTy M2)) by done.
      rewrite (bool_decide_eq_true_2 (Int8PtrTy M1 = Int8PtrTy M1)) by done.
      by rewrite !orb_true_r.
Qed.




End MatchTheorems.

Lemma fuzzyTypeMatch_general_pointer_witness :
  @fuzzyTypeMatch toyHost calleeI8Ptr (PointerTy tS) calleeModule callerModule
    = true ↔
    calleeI8Ptr = PointerTy tS
    ∨ (∃ C1 C2 n, peelPointers calleeI8Ptr (PointerTy tS)
                  = (StructTy C1 n, StructTy C2 n))
    ∨ (∃ C1 C2 w, peelPointers calleeI8Ptr (PointerTy tS)
                  = (IntegerTy C1 w, IntegerTy C2 w))
    ∨ peelPointers calleeI8Ptr (PointerTy tS)
      = (@Int8PtrTy toyHost calleeModule, @IntPtrTy toyHost callerModule)
    ∨ peelPointers calleeI8Ptr (PointerTy tS)
      = (@IntPtrTy toyHost callerModule, @Int8PtrTy toyHost calleeModule).
Proof.
  apply (@fuzzyTypeMatch_general_pointer toyHost calleeI8Ptr (PointerTy tS)
           calleeModule callerModule).
  reflexivity.
Defined.



(** ** The resolver: what a run leaves untouched, and what a layer keeps *)

Section LayerFacts.
Context `{!Host}.
Variable cfg : Config.
Variable ir : IR.

Lemma getDependentTypes_closure (st : MLTA) (T : Ty) (Idx : Z)
    (DL : DataLayout) (P0 : gset hashidx_t) :
  yields (λ R, ∀ b, b ∈ R ↔
                    b ∈ P0 ∨ tc (propEdge st) (hashidx_c (typeHash T DL) Idx) b)
         (getDependentTypes st T Idx P0 DL).
Proof.
  eapply yields_weaken.
  - apply yields_conj; [apply getDependentTypes_yields|].
    unfold getDependentTypes.
    apply (dependentLoop_closure st (hashidx_c (typeHash T DL) Idx) P0).
    + set_solver.
    + intros a Ha. apply list_elem_of_singleton in Ha as ->. constructor.
    + set_solver.
    + set_solver.
    + right. by left.
  - by intros R [_ HR].
Qed.

Lemma confinedTo_getTargets (st : MLTA) (h : N) (i : Z) (X : FuncSet) :
  confinedTo st (h, i) ⊆ getTargetsWithLayerType st h i X.
Proof.
  unfold confinedTo, getTargetsWithLayerType. simpl.
  destruct (decide (i = (-1)%Z)) as [->|Hi]; [|done].
  intros F HF. apply elem_of_union. right.
  assert (F ∈ at2 (typeIdxFuncsMap st) h (-1)%Z) as HF' by set_solver.
  unfold at2 in HF'.
  destruct (default ∅ (typeIdxFuncsMap st !! h) !! (-1)%Z) as [Y|] eqn:HY;
    simpl in HF'; [|set_solver].
  apply elem_of_union_list. exists Y. split; [|done].
  apply list_elem_of_fmap. exists ((-1)%Z, Y). split; [done|].
  by apply elem_of_map_to_list.
Qed.

Lemma addDependentTargets_includes (st : MLTA) (Props : list hashidx_t)
    (X1 X2 : FuncSet) :
  X1 ⊆ (addDependentTargets st Props X1 X2).1
  ∧ ∀ p, p ∈ Props → confinedTo st p ⊆ (addDependentTargets st Props X1 X2).1.
Proof.
  unfold addDependentTargets.
  revert X1 X2. induction Props as [|q Props IH]; intros X1 X2; simpl.
  { split; [done|]. by intros p ?%elem_of_nil. }
  destruct (IH (X1 ∪ getTargetsWithLayerType st q.1 q.2 X2)
               (getTargetsWithLayerType st q.1 q.2 X2)) as [Hsub Hin].
  split; [set_solver|].
  intros p [->|Hp]%elem_of_cons; [|by apply Hin].
  pose proof (confinedTo_getTargets st q.1 q.2 X2) as Hq.
  destruct q as [h i]. simpl in *. set_solver.
Qed.

(** The set that an uncached layer is intersected with. *)
Lemma layerStep_sets (st : MLTA) (DL : DataLayout) (NextV : option Value)
    (TyIdx : typeidx_t) (w : Walk) :
  Matched w !! typeIdxHash TyIdx.1 DL TyIdx.2 = None →
  yields (λ r,
      (r.2 = false ∧ FS r.1 = FS w ∧ FS1 r.1 = FS1 w ∧ Matched r.1 = Matched w
       ∧ CV r.1 = CV w)
      ∨ (∃ X, FS r.1 = X ∩ FS w ∧ FS1 r.1 = X
              ∧ Matched r.1 = <[typeIdxHash TyIdx.1 DL TyIdx.2 := X]> (Matched w)
              ∧ CV r.1 = NextV
              ∧ getTargetsWithLayerType st (typeHash TyIdx.1 DL) TyIdx.2
                                        (FS1 w) ⊆ X
              ∧ ∀ p, tc (propEdge st) (hashidx_c (typeHash TyIdx.1 DL) TyIdx.2) p
                     → confinedTo st p ⊆ X))
    (layerStep cfg st DL NextV TyIdx w).
Proof.
  intros Hm. unfold layerStep. rewrite Hm.
  destruct (SOUND_MODE cfg
            && (bool_decide (typeIdxHash TyIdx.1 DL TyIdx.2 ∈ typeEscapeSet st)
                || bool_decide (typeIdxHash TyIdx.1 DL (-1)%Z
                                ∈ typeEscapeSet st))) eqn:He; simpl.
  { left. done. }
  pose proof (getDependentTypes_closure st TyIdx.1 TyIdx.2 DL ∅) as Hy.
  apply yields_inv in Hy as (PropSet & -> & HP). simpl.
  pose proof (addDependentTargets_includes st (in_order PropSet)
                (getTargetsWithLayerType st (typeHash TyIdx.1 DL) TyIdx.2
                                         (FS1 w)) (FS2 w)) as [Hsub Hin].
  destruct (addDependentTargets _ _ _ _) as [Y1 Y2]; simpl in *.
  rewrite intersectFuncSets_inter.
  assert (∀ p, tc (propEdge st) (hashidx_c (typeHash TyIdx.1 DL) TyIdx.2) p →
               confinedTo st p ⊆ Y1) as Hdep.
  { intros p Hp. apply Hin, elem_of_in_order, HP. by right. }
  destruct (SOUND_MODE cfg && bool_decide (typeHash TyIdx.1 DL ∈ typeCapSet st));
    simpl; right; exists Y1; done.
Qed.





End LayerFacts.

Section LayerTheorems.
Context `{!Host}.


(** X10: a layer that is not in the cache takes no function out of [FS]
    that is confined to the layer's pair (type, index), to the any-field
    pair of that type, or to a pair from which types propagate into the
    layer along the edges of [typeIdxPropMap]. *)
Theorem layerStep_keeps_confined (cfg : Config) (st : MLTA) (DL : DataLayout)
    (NextV : option Value) (TyIdx : typeidx_t) (w : Walk)
    (p : hashidx_t) (F : FuncId) :
  Matched w !! typeIdxHash TyIdx.1 DL TyIdx.2 = None →
  rtc (propEdge st) (hashidx_c (typeHash TyIdx.1 DL) TyIdx.2) p →
  F ∈ confinedTo st p →
  F ∈ FS w →
  yields (λ r, F ∈ FS r.1) (layerStep cfg st DL NextV TyIdx w).
Proof.
  intros Hm Hp HF HFS.
  eapply yields_weaken; [apply (layerStep_sets cfg st DL NextV TyIdx w Hm)|].
  intros r [(_ & -> & _)|(X & -> & _ & _ & _ & Hdir & Hdep)]; [done|].
  apply elem_of_intersection. split; [|done].
  apply rtc_tc in Hp as [<-|Hp].
  - apply Hdir. by apply confinedTo_getTargets.
  - by apply (Hdep p).
Qed.

(** X11: the set [FS1] of [findCalleesWithMLTA] is not cleared between the
    layers, and [getTargetsWithLayerType] only adds to it when the index
    is -1.  So an uncached layer (T, -1), reached when [FS1] still has the
    functions of [FS] (as it has after every layer that was intersected),
    takes nothing out of [FS]. *)
Theorem layerStep_any_field_keeps (cfg : Config) (st : MLTA)
    (DL : DataLayout) (NextV : option Value) (T : Ty) (w : Walk) :
  Matched w !! typeIdxHash T DL (-1)%Z = None →
  FS w ⊆ FS1 w →
  yields (λ r, FS r.1 = FS w ∧ FS r.1 ⊆ FS1 r.1)
         (layerStep cfg st DL NextV (T, (-1)%Z) w).
Proof.
  intros Hm Hsub.
  eapply yields_weaken;
    [apply (layerStep_sets cfg st DL NextV (T, (-1)%Z) w Hm)|].
  intros r [(_ & -> & -> & _)|(X & -> & -> & _ & _ & Hdir & _)]; [done|].
  simpl in Hdir. unfold getTargetsWithLayerType in Hdir.
  rewrite decide_True in Hdir by done.
  split; set_solver.
Qed.

End LayerTheorems.

(** The first layer (A, 2) of that call keeps function 101, which was
    stored into field 2 of [%A]. *)
Lemma layerStep_keeps_confined_witness :
  yields (λ r, f101 ∈ FS r.1)
         (@layerStep toyHost soundSensitive nestedTables 1%positive
            (Some nestedBase) (tA, 2%Z) nestedStart).
Proof.
  apply (@layerStep_keeps_confined toyHost soundSensitive nestedTables
           1%positive (Some nestedBase) (tA, 2%Z) nestedStart
           (tyCode tA, 2%Z) f101).
  - by vm_compute.
  - apply rtc_refl.
  - by vm_compute.
  - by vm_compute.
Defined.

(** After the layer (A, 2), a layer (S, -1) leaves [FS] as it is. *)
Lemma layerStep_any_field_keeps_witness :
  yields (λ r, FS r.1 = FS nestedWalk ∧ FS r.1 ⊆ FS1 r.1)
         (@layerStep toyHost soundSensitive nestedTables 1%positive
            (Some nestedBase) (tS, (-1)%Z) nestedWalk).
Proof.
  apply (@layerStep_any_field_keeps toyHost soundSensitive nestedTables
           1%positive (Some nestedBase) tS nestedWalk).
  - by vm_compute.
  - by vm_compute.
Defined.

(** ** The dependent types grow with the propagation graph *)

Section DependentMore.
Context `{!Host}.

(** X12: [getDependentTypes] returns; what [PropSet] held at the call is
    still in it; and with more edges in [typeIdxPropMap] and more in
    [PropSet] at the call, the set it produces has at least the same
    pairs. *)
Theorem getDependentTypes_monotone (st1 st2 : MLTA) (T : Ty) (Idx : Z)
    (DL : DataLayout) (P1 P2 : gset hashidx_t) :
  (∀ h i, at2 (typeIdxPropMap st1) h i ⊆ at2 (typeIdxPropMap st2) h i) →
  P1 ⊆ P2 →
  ∃ R1 R2, getDependentTypes st1 T Idx P1 DL = Ret R1
           ∧ getDependentTypes st2 T Idx P2 DL = Ret R2
           ∧ P1 ⊆ R1 ∧ R1 ⊆ R2.
Proof.
  intros Hm HP.
  destruct (yields_inv _ _ (getDependentTypes_closure st1 T Idx DL P1))
    as (R1 & HR1 & Hc1).
  destruct (yields_inv _ _ (getDependentTypes_closure st2 T Idx DL P2))
    as (R2 & HR2 & Hc2).
  exists R1, R2. split; [done|]. split; [done|]. split.
  - intros b Hb. apply Hc1. by left.
  - intros b [Hb|Hb]%Hc1; apply Hc2; [left; by apply HP|right].
    apply (tc_congruence id (propEdge st2)) in Hb; [done|].
    intros x y [Hxy|Hxy]; [left|right]; by apply Hm.
Qed.

End DependentMore.

(** With the edge from (R, 0) added, the dependent types of field 1 of
    [%S] are a superset of what they were. *)
Lemma getDependentTypes_monotone_witness :
  ∃ R1 R2,
    @getDependentTypes toyHost flowTablesBefore tS 1%Z ∅ 1%positive = Ret R1
    ∧ @getDependentTypes toyHost flowTables tS 1%Z ∅ 1%positive = Ret R2
    ∧ (∅ : gset hashidx_t) ⊆ R1 ∧ R1 ⊆ R2.
Proof.
  apply (@getDependentTypes_monotone toyHost flowTablesBefore flowTables tS
           1%Z 1%positive ∅ ∅).
  - intros h i. unfold at2, flowTablesBefore, flowTables.
    cbn [typeIdxPropMap].
    destruct (decide (h = tyCode tS)) as [->|Hh].
    + by rewrite lookup_singleton_eq, lookup_insert_eq.
    + rewrite lookup_singleton_ne by done. cbn [default].
      rewrite lookup_empty. apply empty_subseteq.
  - done.
Defined.

(** ** Alias recovery: the entries of the map *)

Section AliasEntries.
Context `{!Host}.
Variable ir : IR.

(** The entries of [AliasStructPtrMap [F]] after a run over [F]. *)
Lemma collectAliasStructPtr_lookup (st : MLTA) (F : FuncId) (src c : Value) :
  aliasMapOf (collectAliasStructPtr ir st F) F !! src = Some c ↔
    (aliasMapOf st F !! src = Some c ∧ aliasCastsOf ir F src = [])
    ∨ (aliasMapOf st F !! src = None ∧ aliasCastsOf ir F src = [c]).
Proof.
  unfold aliasMapOf, collectAliasStructPtr, aliasCastsOf.
  pose proof (collectAlias_fold ir F (instructions (func ir F))
                (default ∅ (AliasStructPtrMap st !! F)) ∅ src) as Hf.
  simpl in Hf.
  destruct (foldl _ _ _) as [A' E'] eqn:Hfold. simpl in Hf.
  destruct Hf as [HE HA].
  simpl. rewrite lookup_insert_eq. simpl.
  set (cs := filter _ _) in *.
  set (A0 := default ∅ (AliasStructPtrMap st !! F)) in *.
  assert (foldr delete A' (elements E') !! src
          = if decide (src ∈ E') then None else A' !! src) as ->.
  { destruct (decide (src ∈ E')) as [Hin|Hin].
    - apply lookup_foldr_delete. by apply elem_of_elements.
    - apply lookup_foldr_delete_not_elem_of. by rewrite elem_of_elements. }
  destruct (decide (src ∈ E')) as [Hin|Hin].
  - split; [done|]. apply HE in Hin.
    destruct Hin as [?|[[[? HS] Hcs]|[HN Hlen]]]; [set_solver| |].
    + intros [[_ ?]|[? _]]; congruence.
    + intros [[? _]|[_ Hc]]; [congruence|]. rewrite Hc in Hlen.
      simpl in Hlen. lia.
  - rewrite HA. destruct (A0 !! src) as [c0|] eqn:H0.
    + split.
      * intros [= ->]. left. split; [done|].
        destruct cs; [done|]. exfalso. apply Hin, HE. right; left.
        split; [eauto|done].
      * intros [[? _]|[? _]]; done.
    + split.
      * intros Hh. right. split; [done|].
        destruct cs as [|c1 [|c2 cs]]; [done| |].
        -- simpl in Hh. congruence.
        -- exfalso. apply Hin, HE. right; right. split; [done|simpl; lia].
      * intros [[? _]|[_ ->]]; done.
Qed.

Lemma collectAliasStructPtr_other (st : MLTA) (F F' : FuncId) :
  F ≠ F' →
  aliasMapOf (collectAliasStructPtr ir st F) F' = aliasMapOf st F'.
Proof.
  intros Hne. unfold aliasMapOf, collectAliasStructPtr.
  destruct (foldl _ _ _). simpl. by rewrite lookup_insert_ne.
Qed.

Lemma collectAliasStructPtr_entries (st : MLTA) (F : FuncId) (src c : Value) :
  aliasMapOf (collectAliasStructPtr ir st F) F !! src = Some c →
  aliasMapOf st F !! src = Some c ∨ aliasCast ir F c = Some src.
Proof.
  intros [[? _]|[_ Hc]]%collectAliasStructPtr_lookup; [by left|right].
  assert (c ∈ aliasCastsOf ir F src) as Hin by (rewrite Hc; left).
  unfold aliasCastsOf in Hin. by apply list_elem_of_filter in Hin as [? _].
Qed.

Lemma collectAliasStructPtr_state (st : MLTA) (F : FuncId) :
  collectAliasStructPtr ir st F
  = set_AliasStructPtrMap
      (<[F := aliasMapOf (collectAliasStructPtr ir st F) F]>
         (AliasStructPtrMap st)) st.
Proof.
  unfold aliasMapOf, collectAliasStructPtr.
  destruct (foldl _ _ _). simpl. by rewrite lookup_insert_eq.
Qed.

End AliasEntries.

(** ** The confinement passes: their writes to the tables *)

Section WriteFacts.
Context `{!Host}.
Variable cfg : Config.
Variable ir : IR.

Lemma at2_insert2 {A} `{Countable A} (m : gmap N (gmap Z (gset A)))
    (h h' : N) (i i' : Z) (x : A) :
  at2 (insert2 m h i x) h' i'
  = if decide (h = h' ∧ i = i') then {[x]} ∪ at2 m h i else at2 m h' i'.
Proof.
  unfold insert2, at2.
  destruct (decide (h = h')) as [<-|Hh].
  - rewrite lookup_insert_eq. simpl.
    destruct (decide (i = i')) as [<-|Hi].
    + rewrite lookup_insert_eq. simpl. by rewrite decide_True.
    + rewrite lookup_insert_ne by done. rewrite decide_False by tauto. done.
  - rewrite lookup_insert_ne by done. by rewrite decide_False by tauto.
Qed.

Lemma at2_insert2_grows {A} `{Countable A} (m : gmap N (gmap Z (gset A)))
    (h h' : N) (i i' : Z) (x : A) :
  at2 m h' i' ⊆ at2 (insert2 m h i x) h' i'.
Proof.
  rewrite at2_insert2. destruct (decide _) as [[<- <-]|]; set_solver.
Qed.

Lemma set_typeIdxFuncsMap_twice (m m' : gmap N (gmap Z FuncSet)) (st : MLTA) :
  set_typeIdxFuncsMap m (set_typeIdxFuncsMap m' st) = set_typeIdxFuncsMap m st.
Proof. done. Qed.

Lemma set_typeIdxFuncsMap_same (st : MLTA) :
  set_typeIdxFuncsMap (typeIdxFuncsMap st) st = st.
Proof. by destruct st. Qed.

(** The state that [getBaseTypeChain] leaves. *)
Lemma getBaseTypeChain_state (st : MLTA) (Chain : list typeidx_t)
    (V : option Value) (DL : DataLayout) :
  on_return (λ r, r.2 = st
                  ∨ ∃ h, r.2 = set_typeCapSet ({[h]} ∪ typeCapSet st) st)
            (getBaseTypeChain cfg ir st Chain V DL).
Proof.
  unfold getBaseTypeChain.
  eapply on_return_bind with (P := λ _, True).
  { by destruct (getBaseType _ _ _ _ _). }
  intros [BTy Vis] _.
  eapply on_return_bind with (P := λ _, True).
  { by destruct (chainLoop _ _ _ _ _ _ _ _). }
  intros [TyList NextV] _. simpl.
  destruct (last _) as [back|]; [|by left].
  destruct (chainComplete _ _); [by left|right; eauto].
Qed.

Lemma getBaseTypeChain_writes (st : MLTA) (Chain : list typeidx_t)
    (V : option Value) (DL : DataLayout) :
  on_return (λ r, rtc (confineWrite ir) st r.2)
            (getBaseTypeChain cfg ir st Chain V DL).
Proof.
  eapply on_return_weaken; [apply getBaseTypeChain_state|].
  intros r [->|[h ->]]; [done|]. apply rtc_once. constructor.
Qed.

Lemma confineChain_writes (st : MLTA) (TyChain : list typeidx_t)
    (DL : DataLayout) (F : FuncId) :
  isIntrinsic (func ir F) = false →
  rtc (confineWrite ir) st
      (set_typeIdxFuncsMap
         (foldl (λ m (TI : typeidx_t), insert2 m (typeHash TI.1 DL) TI.2 F)
                (typeIdxFuncsMap st) TyChain) st).
Proof.
  intros HF. revert st. induction TyChain as [|TI TyChain IH]; intros st.
  { simpl. by rewrite set_typeIdxFuncsMap_same. }
  simpl. eapply rtc_l.
  { apply (write_function ir st (typeHash TI.1 DL) TI.2 F HF). }
  specialize (IH (set_typeIdxFuncsMap
                    (insert2 (typeIdxFuncsMap st) (typeHash TI.1 DL) TI.2 F)
                    st)).
  by rewrite set_typeIdxFuncsMap_twice in IH.
Qed.

Lemma confineTargetFunction_writes (st : MLTA) (V : Value) (F : FuncId)
    (DL : DataLayout) :
  on_return (rtc (confineWrite ir) st)
            (confineTargetFunction cfg ir st V F DL).
Proof.
  unfold confineTargetFunction.
  destruct (isIntrinsic (func ir F)) eqn:HF; [by simpl|].
  eapply on_return_bind; [apply getBaseTypeChain_writes|].
  intros [[TyChain Complete] st1] Hst1. simpl in Hst1. simpl.
  etrans; [exact Hst1|].
  etrans; [apply (confineChain_writes st1 TyChain DL F HF)|].
  destruct Complete; [done|].
  set (st2 := set_typeIdxFuncsMap _ st1).
  destruct (last TyChain) as [back|]; apply rtc_once.
  - exact (write_cap ir st2 (typeHash back.1 DL)).
  - exact (write_cap ir st2 (funcHash F)).
Qed.

Lemma confineContainers_writes (st : MLTA) (n : nat) (DL : DataLayout)
    (CM : gmap Value (Value * Z)) (FoundF : FuncId) (CV : Value)
    (Visited : gset Value) (m : gmap N (gmap Z FuncSet)) :
  isIntrinsic (func ir FoundF) = false →
  on_return (λ m', rtc (confineWrite ir) (set_typeIdxFuncsMap m st)
                       (set_typeIdxFuncsMap m' st))
            (confineContainers cfg ir n DL CM FoundF CV Visited m).
Proof.
  intros HF. revert CV Visited m.
  induction n as [|n IH]; intros CV Visited m; [done|]. simpl.
  destruct (CM !! CV) as [[C No]|]; [|by simpl]. simpl.
  assert (rtc (confineWrite ir) (set_typeIdxFuncsMap m st)
            (set_typeIdxFuncsMap
               (insert2 m (typeHash (getType ir C) DL)
                        (if MLTA_FIELD_INSENSITIVE cfg then 0%Z else No)
                        FoundF) st)) as Hstep.
  { apply rtc_once.
    apply (write_function ir (set_typeIdxFuncsMap m st) _ _ FoundF HF). }
  destruct (decide _); [by simpl|].
  eapply on_return_weaken; [apply IH|].
  intros m' Hm'. by etrans.
Qed.

Lemma classifyOperand_writes (GV : Value) (DL : DataLayout) (U Opnd : Value)
    (LU : list (option Value)) (st : MLTA) :
  on_return (λ c, rtc (confineWrite ir) st c.2)
            (classifyOperand ir GV DL U Opnd LU st).
Proof.
  unfold classifyOperand.
  assert (∀ X (b : bool),
            rtc (confineWrite ir) st
                (if b then set_typeCapSet ({[X]} ∪ typeCapSet st) st else st))
    as Hcap.
  { intros X []; [apply rtc_once; constructor|done]. }
  assert (∀ CF (b : bool),
            rtc (confineWrite ir) st
                (if b then st
                 else set_VTableFuncsMap
                        (<[GV := {[CF]} ∪ default ∅ (VTableFuncsMap st !! GV)]>
                           (VTableFuncsMap st)) st)) as Hvt.
  { intros CF []; [done|apply rtc_once; constructor]. }
  destruct (kind (node ir Opnd)) eqn:Hk; try (by simpl);
    destruct (isCompositeType _); try (by simpl);
    try (destruct (asFunction ir _); by simpl);
    try (destruct (getType ir Opnd); try (by simpl);
         destruct (isConstantPointerNull _); try (by simpl);
         destruct (asUser ir Opnd); by simpl).
Qed.

Lemma initOperands_writes (GV : Value) (DL : DataLayout) (U : Value)
    (ops : list Value) (No : nat) (s : initState) :
  on_return (λ s', rtc (confineWrite ir) s.2 s'.2)
            (initOperands cfg ir GV DL U ops No s).
Proof.
  revert No s. induction ops as [|Opnd ops IH]; intros No [[LU CM] st].
  { by simpl. }
  rewrite initOperands_cons. cbv zeta.
  eapply on_return_bind; [apply classifyOperand_writes|].
  intros [[FoundF LU'] st1] Hst1. simpl in Hst1. cbn [fst snd].
  eapply on_return_bind with (P := λ st2, rtc (confineWrite ir) st st2).
  { destruct FoundF as [F|]; [|by simpl].
    destruct (isIntrinsic (func ir F)) eqn:HF; [by simpl|].
    eapply on_return_bind;
      [apply (confineContainers_writes st1 _ DL _ F Opnd ∅ _ HF)|].
    intros m Hm. simpl. rewrite set_typeIdxFuncsMap_same in Hm.
    by etrans. }
  intros st2 Hst2.
  eapply on_return_weaken; [apply IH|].
  intros s' Hs'. simpl in *. by etrans.
Qed.

Lemma initLoop_writes (n : nat) (GV : Value) (DL : DataLayout)
    (Visited : gset Value) (s : initState) :
  on_return (rtc (confineWrite ir) s.2) (initLoop cfg ir n GV DL Visited s).
Proof.
  revert Visited s. induction n as [|n IH]; intros Visited [[LU CM] st];
    [done|].
  simpl. destruct LU as [|[U|] LU]; [by simpl|..|done].
  destruct (decide _); [apply (IH _ (LU, CM, st))|].
  destruct (isFunctionTy _); [done|].
  assert (on_return (rtc (confineWrite ir) st)
            (initOperands cfg ir GV DL U (operands (kind (node ir U))) 0
                          (LU, CM, st)
             ≫= λ s, initLoop cfg ir n GV DL ({[U]} ∪ Visited) s)) as Hgo.
  { eapply on_return_bind; [apply initOperands_writes|].
    intros s1 Hs1. simpl in Hs1.
    eapply on_return_weaken; [apply IH|]. intros st' ?. by etrans. }
  destruct (getType ir U); try exact Hgo.
  destruct (operands (kind (node ir U))) eqn:Hops.
  { apply (IH _ (LU, CM, st)). }
  destruct (decide _); [exact Hgo|done].
Qed.

Lemma typeConfineInInitializer_writes (st : MLTA) (GV : Value)
    (DL : DataLayout) :
  on_return (λ r, rtc (confineWrite ir) st r.2)
            (typeConfineInInitializer cfg ir st GV DL).
Proof.
  unfold typeConfineInInitializer.
  destruct (kind (node ir GV)) as [| [Ini|] | | | | | | | | | | | | | | | | |];
    try done.
  destruct (kind (node ir Ini)); try (by simpl).
  eapply on_return_bind;
    [apply (initLoop_writes _ GV DL ∅ ([Some Ini], ∅, st))|].
  by intros st' Hst'.
Qed.

Lemma confineAll_writes (st : MLTA) (Vs : list Value) (F : FuncId)
    (DL : DataLayout) :
  on_return (rtc (confineWrite ir) st) (confineAll cfg ir st Vs F DL).
Proof.
  revert st. induction Vs as [|V Vs IH]; intros st; simpl; [done|].
  eapply on_return_bind; [apply confineTargetFunction_writes|].
  intros st1 Hst1. eapply on_return_weaken; [apply IH|].
  intros st' ?. by etrans.
Qed.

Lemma confineCallOperands_writes (st : MLTA) (callee : Value)
    (ops : list Value) (No : nat) (DL : DataLayout) :
  on_return (rtc (confineWrite ir) st)
            (confineCallOperands cfg ir st callee ops No DL).
Proof.
  revert No st. induction ops as [|Opnd ops IH]; intros No st; simpl; [done|].
  eapply on_return_bind with (P := rtc (confineWrite ir) st).
  { destruct (asFunction ir Opnd) as [F|]; [|by simpl].
    destruct (isIntrinsic _); [by simpl|].
    destruct (isIndirectCall _ _); [apply confineTargetFunction_writes|].
    destruct (asFunction ir callee) as [CF|]; [|by simpl].
    destruct (if isDeclaration _ then _ else _) as [CF'|]; [|by simpl].
    destruct (getParamByArgNo _ _ _); [|by simpl].
    apply confineAll_writes. }
  intros st1 Hst1. eapply on_return_weaken; [apply IH|].
  intros st' ?. by etrans.
Qed.

Lemma confineInstructions_writes (st : MLTA) (F : FuncId)
    (Is : list Value) (DL : DataLayout) :
  on_return (rtc (confineWrite ir) st)
            (confineInstructions cfg ir st F Is DL).
Proof.
  revert st. induction Is as [|Inst Is IH]; intros st; simpl; [done|].
  eapply on_return_bind with (P := rtc (confineWrite ir) st).
  { unfold confineInstruction.
    destruct (kind (node ir Inst)); try (by simpl).
    - destruct (getBaseFunction _ _) as [[CF|]| |]; simpl; try done.
      destruct (isIntrinsic _); [by simpl|].
      apply confineTargetFunction_writes.
    - apply confineCallOperands_writes. }
  intros st1 Hst1. eapply on_return_weaken; [apply IH|].
  intros st' ?. by etrans.
Qed.

Lemma collect_writes (st : MLTA) (steps : list CollectStep) :
  on_return (rtc (confineWrite ir) st) (collect cfg ir st steps).
Proof.
  revert st. induction steps as [|[GV DL|F DL|F] steps IH]; intros st;
    simpl; [done|..].
  - eapply on_return_bind; [apply typeConfineInInitializer_writes|].
    intros [b st1] Hst1. simpl in *.
    eapply on_return_weaken; [apply IH|]. intros st' ?. by etrans.
  - unfold typeConfineInFunction.
    destruct (confineInstructions _ _ _ _ _ _) as [st1| |] eqn:Hc; simpl;
      [|done..].
    pose proof (confineInstructions_writes st F (instructions (func ir F)) DL)
      as Hw.
    rewrite Hc in Hw. simpl in Hw.
    eapply on_return_weaken; [apply IH|]. intros st' ?. by etrans.
  - eapply on_return_weaken; [apply IH|]. intros st' Hst'.
    eapply rtc_l; [|exact Hst'].
    rewrite (collectAliasStructPtr_state ir st F).
    apply write_alias. apply collectAliasStructPtr_entries.
Qed.

(** *** What the writes keep *)

Lemma confineFrame_refl (st : MLTA) : confineFrame st st.
Proof. by repeat split. Qed.

Lemma confineFrame_trans (st1 st2 st3 : MLTA) :
  confineFrame st1 st2 → confineFrame st2 st3 → confineFrame st1 st3.
Proof.
  intros (A1 & B1 & C1 & D1 & E1 & F1 & G1 & H1)
         (A2 & B2 & C2 & D2 & E2 & F2 & G2 & H2).
  repeat split; try congruence.
  - intros h i. etrans; [apply A1|apply A2].
  - set_solver.
  - intros GV. etrans; [apply C1|apply C2].
Qed.

Lemma confineWrite_frame (st st' : MLTA) :
  confineWrite ir st st' → confineFrame st st'.
Proof.
  intros [st0 h i F HF|st0 h|st0 GV CF|st0 F m Hm]; repeat split; simpl;
    try done.
  - intros h' i'. apply at2_insert2_grows.
  - set_solver.
  - intros GV'. destruct (decide (GV = GV')) as [<-|Hne].
    + rewrite lookup_insert_eq. simpl. set_solver.
    + by rewrite lookup_insert_ne.
Qed.

Lemma confineWrites_frame (st st' : MLTA) :
  rtc (confineWrite ir) st st' → confineFrame st st'.
Proof.
  induction 1 as [|st1 st2 st3 H12 _ IH]; [apply confineFrame_refl|].
  eapply confineFrame_trans; [by apply confineWrite_frame|done].
Qed.



End WriteFacts.

Section WriteTheorems.
Context `{!Host}.

(** X13: the collection by confinement ([typeConfineInInitializer],
    [typeConfineInFunction], [collectAliasStructPtr], in any order) only
    adds to [typeIdxFuncsMap], to [typeCapSet] and to [VTableFuncsMap]: no
    function is taken out of an entry; and it leaves the propagation graph
    [typeIdxPropMap], [typeEscapeSet], the cache, the seed map and
    [AddressTakenFuncs] as they are. *)
Theorem collect_frame (cfg : Config) (ir : IR) (st : MLTA)
    (steps : list CollectStep) :
  on_return (confineFrame st) (collect cfg ir st steps).
Proof.
  eapply on_return_weaken; [apply collect_writes|].
  apply confineWrites_frame.
Qed.


End WriteTheorems.

(** *** A function in an initializer is recorded under its field *)

Section RecordFacts.
Context `{!Host}.
Variable cfg : Config.
Variable ir : IR.

Lemma confineContainers_first (n : nat) (DL : DataLayout)
    (CM : gmap Value (Value * Z)) (FoundF : FuncId) (CV C : Value) (No : Z)
    (Visited : gset Value) (m : gmap N (gmap Z FuncSet)) :
  isIntrinsic (func ir FoundF) = false →
  CM !! CV = Some (C, No) →
  on_return (λ m', FoundF ∈ at2 m' (typeHash (getType ir C) DL)
                                (if MLTA_FIELD_INSENSITIVE cfg then 0%Z else No))
            (confineContainers cfg ir (S n) DL CM FoundF CV Visited m).
Proof.
  intros HF HCV. simpl. rewrite HCV. simpl.
  set (m1 := insert2 m _ _ FoundF).
  assert (FoundF ∈ at2 m1 (typeHash (getType ir C) DL)
                       (if MLTA_FIELD_INSENSITIVE cfg then 0%Z else No))
    as Hin.
  { unfold m1. rewrite at2_insert2, decide_True by done. set_solver. }
  destruct (decide _); [by simpl|].
  eapply on_return_weaken;
    [apply (confineContainers_writes cfg ir emptyMLTA n DL CM FoundF C _ m1 HF)|].
  intros m' Hm'. apply confineWrites_frame in Hm' as (Hgrow & _).
  by apply (Hgrow _ _).
Qed.

Lemma initOperands_records (GV : Value) (DL : DataLayout) (U : Value)
    (ops : list Value) (No : nat) (s : initState) (k : nat) (Opnd : Value)
    (F : FuncId) :
  ops !! k = Some Opnd →
  kind (node ir Opnd) = KFunction F →
  isIntrinsic (func ir F) = false →
  on_return (λ s', F ∈ at2 (typeIdxFuncsMap s'.2) (typeHash (getType ir U) DL)
                           (if MLTA_FIELD_INSENSITIVE cfg then 0%Z
                            else Z.of_nat (No + k)))
            (initOperands cfg ir GV DL U ops No s).
Proof.
  intros Hk HO HF. revert No s k Hk.
  induction ops as [|op0 ops IH]; intros No [[LU CM] st] k Hk; [done|].
  rewrite initOperands_cons. cbv zeta.
  destruct k as [|k]; simpl in Hk.
  - injection Hk as ->. unfold classifyOperand. rewrite HO.
    cbn [mbind res_bind fst snd]. rewrite HF.
    eapply on_return_bind
      with (P := λ st1, F ∈ at2 (typeIdxFuncsMap st1)
                            (typeHash (getType ir U) DL)
                            (if MLTA_FIELD_INSENSITIVE cfg then 0%Z
                             else Z.of_nat No)).
    { eapply on_return_bind.
      - apply (confineContainers_first _ DL _ F Opnd U (Z.of_nat No) ∅ _ HF).
        by rewrite lookup_insert_eq.
      - intros m Hm. simpl. exact Hm. }
    intros st1 Hst1. cbn beta in Hst1.
    eapply on_return_weaken; [apply initOperands_writes|].
    intros s' Hs'. apply confineWrites_frame in Hs' as (Hgrow & _).
    rewrite Nat.add_0_r. by apply (Hgrow _ _).
  - eapply on_return_bind with (P := λ _, True).
    { by destruct (classifyOperand _ _ _ _ _ _ _). }
    intros c _.
    eapply on_return_bind with (P := λ _, True).
    { destruct c.1.1 as [F'|]; [|done].
      destruct (isIntrinsic (func ir F')); [done|].
      eapply on_return_bind with (P := λ _, True); [|done].
      by destruct (confineContainers _ _ _ _ _ _ _ _ _). }
    intros st1 _.
    eapply on_return_weaken; [apply (IH (S No) _ k Hk)|].
    intros s'. by rewrite Nat.add_succ_r.
Qed.

Lemma initLoop_records (n : nat) (GV : Value) (DL : DataLayout)
    (st : MLTA) (Ini : Value) (ops : list Value) (k : nat) (Opnd : Value)
    (F : FuncId) :
  kind (node ir Ini) = KConstantAggregate ops →
  ops !! k = Some Opnd →
  kind (node ir Opnd) = KFunction F →
  isIntrinsic (func ir F) = false →
  on_return (λ st', F ∈ at2 (typeIdxFuncsMap st')
                            (typeHash (getType ir Ini) DL)
                            (if MLTA_FIELD_INSENSITIVE cfg then 0%Z
                             else Z.of_nat k))
            (initLoop cfg ir (S n) GV DL ∅ ([Some Ini], ∅, st)).
Proof.
  intros HI Hk HO HF. simpl. rewrite decide_False by set_solver.
  destruct (isFunctionTy _); [done|].
  rewrite HI. cbn [operands].
  assert (on_return
            (λ st', F ∈ at2 (typeIdxFuncsMap st')
                            (typeHash (getType ir Ini) DL)
                            (if MLTA_FIELD_INSENSITIVE cfg then 0%Z
                             else Z.of_nat k))
            (initOperands cfg ir GV DL Ini ops 0 ([], ∅, st)
             ≫= λ s, initLoop cfg ir n GV DL ({[Ini]} ∪ ∅) s)) as Hgo.
  { eapply on_return_bind;
      [apply (initOperands_records GV DL Ini ops 0 _ k Opnd F Hk HO HF)|].
    intros s1 Hs1. cbn beta in Hs1.
    eapply on_return_weaken; [apply initLoop_writes|].
    intros st' Hst'. apply confineWrites_frame in Hst' as (Hgrow & _).
    by apply (Hgrow _ _). }
  destruct (getType ir Ini); try exact Hgo.
  destruct ops as [|op0 ops]; [done|].
  destruct (decide _); [exact Hgo|done].
Qed.

End RecordFacts.

Section RecordTheorem.
Context `{!Host}.

(** X15: [typeConfineInInitializer] comes to its end, and when it returns
    it has recorded every function that is an operand of the initializer
    of [GV] and no intrinsic under the type of the initializer and the
    number of the operand (under index 0 with [MLTA_FIELD_INSENSITIVE]). *)
Theorem typeConfineInInitializer_records_field (cfg : Config) (ir : IR)
    (st : MLTA) (GV : Value) (DL : DataLayout) (Ini : Value)
    (ops : list Value) (k : nat) (Opnd : Value) (F : FuncId) :
  kind (node ir GV) = KGlobalVariable (Some Ini) →
  kind (node ir Ini) = KConstantAggregate ops →
  ops !! k = Some Opnd →
  kind (node ir Opnd) = KFunction F →
  isIntrinsic (func ir F) = false →
  returns (λ r, F ∈ at2 (typeIdxFuncsMap r.2) (typeHash (getType ir Ini) DL)
                        (if MLTA_FIELD_INSENSITIVE cfg then 0%Z
                         else Z.of_nat k))
          (typeConfineInInitializer cfg ir st GV DL).
Proof.
  intros HG HI Hk HO HF. unfold typeConfineInInitializer. rewrite HG, HI.
  eapply returns_bind; [|by intros st' Hst'; exact Hst'].
  apply returns_split.
  - apply initLoop_terminates. rewrite expansionWeight_empty. simpl. lia.
  - rewrite expansionWeight_empty.
    by apply (initLoop_records cfg ir _ GV DL st Ini ops k Opnd F).
Qed.

End RecordTheorem.



(** The second function of the table of [confineIR] is recorded under
    field 1 of [%V]. *)
Lemma typeConfineInInitializer_records_field_witness :
  returns (λ r, f102 ∈ at2 (typeIdxFuncsMap r.2)
                           (@typeHash toyHost (getType confineIR confineInit)
                                      1%positive)
                           (if MLTA_FIELD_INSENSITIVE soundSensitive then 0%Z
                            else Z.of_nat 1))
          (@typeConfineInInitializer toyHost soundSensitive confineIR
             emptyMLTA confineGlobal 1%positive).
Proof.
  apply (@typeConfineInInitializer_records_field toyHost soundSensitive
           confineIR emptyMLTA confineGlobal 1%positive confineInit
           [41%positive; secondEntry] 1 secondEntry f102); reflexivity.
Defined.

(** ** The propagation pass: its writes to the tables *)

Section FlowFacts.
Context `{!Host}.
Variable cfg : Config.
Variable ir : IR.
Variable getName : FuncId → string.
Variable DefaultIdx : Z.

Lemma set_typeIdxPropMap_twice (m m' : gmap N (gmap Z (gset hashidx_t)))
    (st : MLTA) :
  set_typeIdxPropMap m (set_typeIdxPropMap m' st) = set_typeIdxPropMap m st.
Proof. done. Qed.

Lemma set_typeIdxPropMap_same (st : MLTA) :
  set_typeIdxPropMap (typeIdxPropMap st) st = st.
Proof. by destruct st. Qed.

Lemma getBaseTypeChain_flows (st : MLTA) (Chain : list typeidx_t)
    (V : option Value) (DL : DataLayout) :
  on_return (λ r, rtc flowWrite st r.2)
            (getBaseTypeChain cfg ir st Chain V DL).
Proof.
  eapply on_return_weaken; [apply getBaseTypeChain_state|].
  intros r [->|[h ->]]; [done|]. apply rtc_once. constructor.
Qed.

Lemma propagateChain_flows (st : MLTA) (TyChain : list typeidx_t)
    (DL : DataLayout) (FromTy : Ty) (Idx : Z) :
  rtc flowWrite st
      (set_typeIdxPropMap
         (foldl (λ m (T : typeidx_t),
                   if bool_decide (typeHash T.1 DL = typeHash FromTy DL)
                      && bool_decide (T.2 = Idx)
                   then m
                   else insert2 m (typeHash T.1 DL) T.2
                                (hashidx_c (typeHash FromTy DL) Idx))
                (typeIdxPropMap st) TyChain) st).
Proof.
  revert st. induction TyChain as [|T TyChain IH]; intros st.
  { simpl. by rewrite set_typeIdxPropMap_same. }
  simpl.
  destruct (bool_decide (typeHash T.1 DL = typeHash FromTy DL)
            && bool_decide (T.2 = Idx)) eqn:Hsame.
  { apply IH. }
  eapply rtc_l.
  { apply (flow_edge st (typeHash T.1 DL) T.2
                     (hashidx_c (typeHash FromTy DL) Idx)).
    intros [= H1 H2]. rewrite H1, H2 in Hsame.
    by rewrite !bool_decide_eq_true_2 in Hsame. }
  specialize (IH (set_typeIdxPropMap
                    (insert2 (typeIdxPropMap st) (typeHash T.1 DL) T.2
                             (hashidx_c (typeHash FromTy DL) Idx)) st)).
  by rewrite set_typeIdxPropMap_twice in IH.
Qed.

Lemma propagateType_flows (st : MLTA) (ToV : Value) (FromTy : Ty)
    (DL : DataLayout) (Idx : Z) :
  on_return (rtc flowWrite st) (propagateType cfg ir st ToV FromTy DL Idx).
Proof.
  unfold propagateType.
  eapply on_return_bind; [apply getBaseTypeChain_flows|].
  intros [[TyChain Complete] st1] Hst1. simpl in Hst1. simpl.
  etrans; [exact Hst1|]. apply propagateChain_flows.
Qed.

Lemma escapeType_flows (st : MLTA) (V : Value) (DL : DataLayout) :
  on_return (rtc flowWrite st) (escapeType cfg ir st V DL).
Proof.
  unfold escapeType.
  eapply on_return_bind; [apply getBaseTypeChain_flows|].
  intros [[TyChain Complete] st1] Hst1. simpl in Hst1. simpl.
  etrans; [exact Hst1|]. apply rtc_once. constructor.
Qed.

Lemma propagateLayers_flows (st : MLTA) (PO : Value)
    (TyList : list typeidx_t) (DL : DataLayout) :
  on_return (rtc flowWrite st) (propagateLayers cfg ir st PO TyList DL).
Proof.
  revert st. induction TyList as [|T TyList IH]; intros st; simpl; [done|].
  eapply on_return_bind; [apply propagateType_flows|].
  intros st1 Hst1. eapply on_return_weaken; [apply IH|].
  intros st' Hst'. by etrans.
Qed.

Lemma propagateValue_flows (st : MLTA) (PO VO : Value) (DL : DataLayout) :
  on_return (λ r, rtc flowWrite st r.1)
            (propagateValue cfg ir DefaultIdx st PO VO DL).
Proof.
  unfold propagateValue.
  destruct (_ || _); [by simpl|].
  eapply on_return_bind with (P := λ _, True).
  { by destruct (nextLayerBaseType _ _ _ _ _ _ _ _). }
  intros [[[ret TyList] NextV] Vis] _.
  destruct TyList as [|T TyList].
  - eapply on_return_bind with (P := λ _, True).
    { by destruct (getBaseType _ _ _ _ _). }
    intros [BTy Vis'] _.
    destruct BTy as [BTy|].
    { eapply on_return_bind; [apply propagateType_flows|]. by intros st1 Hst1. }
    destruct (getFuncPtrType _ _) as [FTy|].
    + eapply on_return_bind with (P := λ _, True).
      { by destruct (getBaseFunction _ _). }
      intros [F|] _; [by simpl|].
      eapply on_return_bind; [apply propagateType_flows|].
      by intros st1 Hst1.
    + destruct (negb _); [by simpl|].
      eapply on_return_bind; [apply escapeType_flows|].
      by intros st1 Hst1.
  - eapply on_return_bind; [apply propagateLayers_flows|].
    by intros st1 Hst1.
Qed.

Lemma propInstructions_flows (DL : DataLayout) (acc : MLTA * gset Value)
    (Is : list Value) :
  on_return (λ r, rtc flowWrite acc.1 r.1)
            (propInstructions cfg ir getName DefaultIdx DL acc Is).
Proof.
  revert acc. induction Is as [|Inst Is IH]; intros [st CastSet]; simpl;
    [done|].
  eapply on_return_bind with (P := λ r, rtc flowWrite st r.1).
  { eapply on_return_bind with (P := λ _, True).
    { by destruct (propOperands _ _ _). }
    intros pv _.
    eapply on_return_bind with (P := λ r, rtc flowWrite st r.1).
    { destruct pv as [[PO VO]|]; [apply propagateValue_flows|by simpl]. }
    by intros [st1 skip] Hst1. }
  intros [st1 CastSet1] Hst1. simpl in Hst1.
  eapply on_return_weaken; [apply IH|].
  intros r Hr. simpl in Hr. by etrans.
Qed.

Lemma typePropInFunction_flows (st : MLTA) (F : FuncId) (DL : DataLayout) :
  on_return (λ r, rtc flowWrite st r.2)
            (typePropInFunction cfg ir getName DefaultIdx st F DL).
Proof.
  unfold typePropInFunction.
  eapply on_return_bind;
    [apply (propInstructions_flows DL (st, ∅) (instructions (func ir F)))|].
  intros [st1 CastSet] Hst1. simpl in Hst1.
  eapply on_return_bind with (P := λ _, True).
  { by destruct (castLoop _ _). }
  by intros _ _.
Qed.

(** *** What the writes keep *)

Lemma flowFrame_refl (st : MLTA) : flowFrame st st.
Proof. by repeat split. Qed.

Lemma flowFrame_trans (st1 st2 st3 : MLTA) :
  flowFrame st1 st2 → flowFrame st2 st3 → flowFrame st1 st3.
Proof.
  intros (A1 & B1 & C1 & D1 & E1 & F1 & G1 & H1 & I1)
         (A2 & B2 & C2 & D2 & E2 & F2 & G2 & H2 & I2).
  repeat split; try congruence.
  - intros h i. etrans; [apply A1|apply A2].
  - set_solver.
  - set_solver.
Qed.

Lemma flowWrite_frame (st st' : MLTA) : flowWrite st st' → flowFrame st st'.
Proof.
  intros [st0 h i p Hp|st0 h|st0 X]; repeat split; simpl; try done.
  - intros h' i'. apply at2_insert2_grows.
  - set_solver.
  - set_solver.
Qed.

Lemma flowWrites_frame (st st' : MLTA) :
  rtc flowWrite st st' → flowFrame st st'.
Proof.
  induction 1 as [|st1 st2 st3 H12 _ IH]; [apply flowFrame_refl|].
  eapply flowFrame_trans; [by apply flowWrite_frame|done].
Qed.

Lemma flowWrite_no_self_edge (st st' : MLTA) :
  flowWrite st st' → noSelfEdge st → noSelfEdge st'.
Proof.
  intros [st0 h i p Hp|st0 h|st0 X] Hno; try done.
  intros h' i'. simpl. rewrite at2_insert2.
  destruct (decide _) as [[<- <-]|]; [|apply Hno].
  intros [Heq%elem_of_singleton|Hin]%elem_of_union; [by destruct Hp|].
  by eapply Hno.
Qed.

Lemma flowWrites_no_self_edge (st st' : MLTA) :
  rtc flowWrite st st' → noSelfEdge st → noSelfEdge st'.
Proof.
  induction 1 as [|st1 st2 st3 H12 _ IH]; [done|].
  intros Hno. by apply IH, (flowWrite_no_self_edge st1).
Qed.

End FlowFacts.

Section FlowTheorems.
Context `{!Host}.


(** X17: [propagateType] stores no edge from a pair to itself (lines
    697-698), so that [typePropInFunction] keeps [typeIdxPropMap] free of
    such edges. *)
Theorem typePropInFunction_no_self_edge (cfg : Config) (ir : IR)
    (getName : FuncId → string) (DefaultIdx : Z) (st : MLTA) (F : FuncId)
    (DL : DataLayout) :
  noSelfEdge st →
  on_return (λ r, noSelfEdge r.2)
            (typePropInFunction cfg ir getName DefaultIdx st F DL).
Proof.
  intros Hno. eapply on_return_weaken; [apply typePropInFunction_flows|].
  intros r Hr. cbn beta in Hr. exact (flowWrites_no_self_edge st r.2 Hr Hno).
Qed.

End FlowTheorems.

Lemma noSelfEdge_emptyMLTA : noSelfEdge emptyMLTA.
Proof.
  intros h i. unfold at2. simpl. rewrite lookup_empty. simpl.
  rewrite lookup_empty. set_solver.
Qed.

(** The propagation over [flowIR] stores the edge from field 1 of [%V]
    to field 2 of [%A], and caps [%V], whose pointer is an argument. *)
Lemma typePropInFunction_no_self_edge_witness :
  (r ← @typePropInFunction toyHost soundSensitive flowIR noNames anyField
         emptyMLTA flowFunction 1%positive;
   Ret (typeIdxPropMap r.2, typeCapSet r.2))
  = Ret ({[ tyCode tV := {[ 1%Z := {[ (tyCode tA, 2%Z) ]} ]} ]},
         {[ tyCode tV ]})
  ∧ on_return (λ r, noSelfEdge r.2)
      (@typePropInFunction toyHost soundSensitive flowIR noNames anyField
         emptyMLTA flowFunction 1%positive).
Proof.
  split; [by vm_compute|].
  apply (@typePropInFunction_no_self_edge toyHost soundSensitive flowIR
           noNames anyField emptyMLTA flowFunction 1%positive).
  exact noSelfEdge_emptyMLTA.
Defined.

(** ** Alias maps and base types *)

Section SafeFacts.
Context {A B : Type}.
Implicit Types (m : res A) (f : A → res B).

Lemma safe_bind (P : A → Prop) (Q : B → Prop) m f :
  safe P m → (∀ a, P a → safe Q (f a)) → safe Q (m ≫= f).
Proof. destruct m; simpl; auto. Qed.

Lemma safe_weaken (P Q : A → Prop) m :
  safe P m → (∀ a, P a → Q a) → safe Q m.
Proof. destruct m; simpl; auto. Qed.

Lemma safe_yields (P : A → Prop) m : terminates m → safe P m → yields P m.
Proof. by destruct m. Qed.

Lemma safe_on_return (P : A → Prop) m : safe P m → on_return P m.
Proof. by destruct m. Qed.

End SafeFacts.

Section BaseTypeFacts.
Context `{!Host}.
Variable cfg : Config.
Variable ir : IR.

Lemma aliasCast_composite (F : FuncId) (c src : Value) :
  aliasCast ir F c = Some src →
  ∃ E, getType ir c = PointerTy E ∧ isCompositeType E = true.
Proof.
  unfold aliasCast. destruct (asCastInst _) as [FromV|]; [|done].
  destruct (negb _); [done|]. case_bool_decide; [done|].
  destruct (getType ir c) as [| |E| | | | |]; try done.
  destruct (isCompositeType E) eqn:HE; [|done]. eauto.
Qed.

Lemma collectAliasStructPtr_wf (st : MLTA) (F : FuncId) :
  aliasWF ir st → aliasWF ir (collectAliasStructPtr ir st F).
Proof.
  intros Hwf F' src c.
  destruct (decide (F = F')) as [<-|Hne].
  - intros [?|?]%collectAliasStructPtr_entries; [by apply Hwf|done].
  - rewrite collectAliasStructPtr_other by done. apply Hwf.
Qed.

Lemma confineWrite_alias_wf (st st' : MLTA) :
  confineWrite ir st st' → aliasWF ir st → aliasWF ir st'.
Proof.
  intros [st0 h i F HF|st0 h|st0 GV CF|st0 F m Hm] Hwf; try done.
  intros F' src c. unfold aliasMapOf. simpl.
  destruct (decide (F = F')) as [<-|Hne].
  - rewrite lookup_insert_eq. simpl.
    intros [?|?]%Hm; [by apply Hwf|done].
  - rewrite lookup_insert_ne by done. apply Hwf.
Qed.

Lemma confineWrites_alias_wf (st st' : MLTA) :
  rtc (confineWrite ir) st st' → aliasWF ir st → aliasWF ir st'.
Proof.
  induction 1 as [|st1 st2 st3 H12 _ IH]; [done|].
  intros Hwf. by apply IH, (confineWrite_alias_wf st1).
Qed.

(** *** [getBaseType] with well-formed alias maps *)

Lemma getPhiBaseType_safe
    (rec : option Value → gset Value → res (option Ty * gset Value))
    (incoming : list Value) (Visited : gset Value) :
  (∀ IV Vis, safe (λ r, ∀ T, r.1 = Some T → isCompositeType T = true)
                  (rec (Some IV) Vis)) →
  safe (λ r, ∀ T, r.1 = Some T → isCompositeType T = true)
       (getPhiBaseType rec incoming Visited).
Proof.
  intros Hrec. revert Visited.
  induction incoming as [|IV incoming IH]; intros Visited; simpl; [done|].
  eapply safe_bind; [apply Hrec|].
  intros [[T|] Vis] HT; simpl in *; [done|]. apply IH.
Qed.

Lemma getBaseType_safe (fuel : nat) (st : MLTA) (V : option Value)
    (Visited : gset Value) :
  aliasWF ir st →
  safe (λ r, ∀ T, r.1 = Some T → isCompositeType T = true)
       (getBaseType ir fuel st V Visited).
Proof.
  intros Hwf. revert V Visited.
  induction fuel as [|fuel IH]; intros V Visited; [done|].
  destruct V as [v|]; simpl; [|done].
  destruct (decide (v ∈ Visited)); simpl; [done|].
  destruct (isCompositeType (getType ir v)) eqn:Hc; simpl.
  { by intros T [= <-]. }
  eapply safe_bind
    with (P := λ here, ∀ T, here = Some T → isCompositeType T = true).
  { destruct (getType ir v) as [| |ETy| | | | |]; try done.
    destruct (isCompositeType ETy) eqn:HE; simpl.
    { by intros T [= <-]. }
    destruct (recoverBaseType ir st v) as [BV|] eqn:Hr; [|done].
    unfold recoverBaseType in Hr.
    destruct (parent (node ir v)) as [F|]; [|done].
    apply (Hwf F v BV) in Hr.
    apply aliasCast_composite in Hr as (E & -> & HE'). simpl.
    by intros T [= <-]. }
  intros [T|] HT; simpl; [by intros T' [= <-]; apply HT|].
  destruct (kind (node ir v)); simpl; try done; try apply IH.
  apply getPhiBaseType_safe. intros IV Vis. apply IH.
Qed.

(** *** The layers are composite types *)

Lemma gepWalk_composite (ETy : Ty) (Indices : list Z) (Tmp : list typeidx_t) :
  on_return (λ r : Ty * list typeidx_t,
               ∃ new, r.2 = new ++ Tmp ∧ allComposite new)
            (gepWalk cfg ir ETy Indices Tmp).
Proof.
  revert ETy Tmp. induction Indices as [|Idx Indices IH]; intros ETy Tmp.
  { simpl. exists []. split; [done|]. constructor. }
  simpl.
  assert (isCompositeType ETy = true ∨ isCompositeType ETy = false) as [Hc|Hc]
    by (destruct (isCompositeType ETy); auto).
  2:{ by destruct ETy. }
  eapply on_return_bind with (P := λ _, True).
  { by destruct (match ETy with StructTy _ _ => _ | _ => _ end). }
  intros SubTy _. eapply on_return_weaken; [apply IH|].
  intros [E' Tmp'] (new & -> & Hz). simpl.
  exists (new ++ [typeidx_c ETy (if MLTA_FIELD_INSENSITIVE cfg then 0%Z else Idx)]).
  split; [by rewrite <- app_assoc|].
  apply Forall_app. split; [done|]. by repeat constructor.
Qed.

Lemma firstFieldLayers_composite (GEP : Value) (ETy : Ty) :
  allComposite (firstFieldLayers ir GEP ETy).
Proof.
  unfold firstFieldLayers, allComposite.
  destruct ETy; try by constructor.
  destruct (struct_body _ _ _) as [|Ty0 ?]; [by constructor|].
  induction (users ir GEP) as [|U Us IH]; simpl; [by constructor|].
  apply Forall_app. split; [|done].
  destruct (kind (node ir U)); try by constructor.
  destruct (getType ir U); try by constructor.
  destruct (decide _); by repeat constructor.
Qed.

Lemma getGEPLayerTypes_composite (st : MLTA) (GEP PO : Value) (ETy : Ty)
    (idx0 : Value) (idxs : list Value) (TyList : list typeidx_t) :
  allComposite TyList →
  on_return (λ r : bool * list typeidx_t, allComposite r.2)
            (getGEPLayerTypes cfg ir st GEP PO ETy idx0 idxs TyList).
Proof.
  intros HT. unfold getGEPLayerTypes.
  eapply on_return_bind with (P := λ _, True).
  { by destruct (gepIndices _ _ _ _ _ _ _ _). }
  intros [[E l]|] _; [|done].
  eapply on_return_bind; [apply gepWalk_composite|].
  intros [E' Tmp] (new & Hnew & Hz). simpl in *. subst Tmp.
  rewrite app_nil_r.
  destruct (firstFieldLayers ir GEP E' ++ new) as [|x xs] eqn:Hl; simpl;
    [done|].
  apply Forall_app. split; [done|]. rewrite <- Hl.
  apply Forall_app. split; [apply firstFieldLayers_composite|done].
Qed.

Lemma nextLayerBaseType_composite (fuel : nat) (st : MLTA) (V : option Value)
    (TyList : list typeidx_t) (NextV : option Value) (Visited : gset Value) :
  allComposite TyList →
  on_return (λ r : layer, allComposite r.1.1.2)
            (nextLayerBaseType cfg ir fuel st V TyList NextV Visited).
Proof.
  intros HT. revert V NextV Visited.
  induction fuel as [|fuel IH]; intros V NextV Visited; [done|].
  destruct V as [v|]; simpl; [|done].
  destruct (kind (node ir v)) eqn:Hk; simpl; try done;
    destruct (decide (v ∈ Visited)) as [Hv|Hv]; simpl; try done;
    try apply IH.
  - eapply on_return_bind; [by apply getGEPLayerTypes_composite|].
    by intros [ret TyList'] HT'.
  - eapply on_return_weaken; [apply phiIncoming_result|].
    intros r [->|(IV & _ & Hr)]; [constructor|].
    pose proof (IH (Some IV) (Some IV) ({[v]} ∪ Visited)) as Hx.
    rewrite Hr in Hx. exact Hx.
Qed.

Lemma chainLoop_composite (n : nat) (st : MLTA) (CV : option Value)
    (TyList : list typeidx_t) (NextV : option Value) (Visited : gset Value) :
  allComposite TyList →
  on_return (λ r, allComposite r.1)
            (chainLoop cfg ir n st CV TyList NextV Visited).
Proof.
  revert CV TyList NextV Visited.
  induction n as [|n IH]; intros CV TyList NextV Visited HT; [done|].
  rewrite chainLoop_S.
  eapply on_return_bind; [by apply nextLayerBaseType_composite|].
  intros [[[ret TyList'] NextV'] Visited'] HT'. simpl in *.
  destruct ret; [|by simpl]. by apply IH.
Qed.

End BaseTypeFacts.

Section BaseTypeTheorems.
Context `{!Host}.

(** X18: the collection keeps the alias maps well-formed: every entry of
    [AliasStructPtrMap [F]] maps a call result of type [i8*] to a cast
    instruction of [F] that takes it to a pointer to a struct, array or
    vector type.  Only [collectAliasStructPtr] writes to the maps. *)
Theorem collect_alias_wf (cfg : Config) (ir : IR) (st : MLTA)
    (steps : list CollectStep) :
  aliasWF ir st →
  on_return (aliasWF ir) (collect cfg ir st steps).
Proof.
  intros Hwf. eapply on_return_weaken; [apply collect_writes|].
  intros st' Hst'. by apply (confineWrites_alias_wf ir st).
Qed.

(** X19: with well-formed alias maps the base types are struct, array or
    vector types.  [getBaseType] returns on every value (its read of the
    element type of a recovered cast never fails), and the type it
    returns, if any, is such a type; [getBaseTypeChain] comes to its end,
    and every layer that it appends to the chain has such a type: the
    tables are keyed by the hashes of composite types only. *)
Theorem getBaseTypeChain_composite (cfg : Config) (ir : IR) (st : MLTA)
    (Chain : list typeidx_t) (V : option Value) (DL : DataLayout) :
  aliasWF ir st →
  allComposite Chain →
  yields (λ r, ∀ T, r.1 = Some T → isCompositeType T = true)
         (getBaseType ir (value_fuel ir) st V ∅)
  ∧ returns (λ r, allComposite r.1.1)
            (getBaseTypeChain cfg ir st Chain V DL).
Proof.
  intros Hwf HC.
  assert (unvisited ir ∅ < value_fuel ir) as Hfuel.
  { unfold value_fuel. pose proof (unvisited_le ir ∅). lia. }
  assert (yields (λ r, ∀ T, r.1 = Some T → isCompositeType T = true)
                 (getBaseType ir (value_fuel ir) st V ∅)) as Hbase.
  { apply safe_yields;
      [by apply getBaseType_terminates|by apply getBaseType_safe]. }
  split; [exact Hbase|].
  unfold getBaseTypeChain.
  eapply returns_bind; [apply yields_returns, Hbase|].
  intros [BTy Vis] HB. simpl in HB.
  eapply returns_bind.
  { apply returns_split; [by apply chainLoop_terminates|].
    apply chainLoop_composite. constructor. }
  intros [TyList NextV] HT. simpl in *.
  apply Forall_app. split; [|done].
  destruct BTy as [T|]; [|done].
  apply Forall_app. split; [done|]. repeat constructor. by apply HB.
Qed.

(** X20: [collectAliasStructPtr] is to be run once: a second run over
    the same function takes the entries of the first run out of the map
    again (every source value is in the map when its cast is met), so
    that a map that was empty before the first run is empty after the
    second. *)
Theorem collectAliasStructPtr_twice (ir : IR) (st : MLTA) (F : FuncId) :
  aliasMapOf st F = ∅ →
  aliasMapOf (collectAliasStructPtr ir (collectAliasStructPtr ir st F) F) F
  = ∅.
Proof.
  intros H0. apply map_empty. intros src.
  destruct (aliasMapOf _ F !! src) as [c|] eqn:Hc; [|done]. exfalso.
  apply collectAliasStructPtr_lookup in Hc as [[H1 Hcs]|[H1 Hcs]].
  - apply collectAliasStructPtr_lookup in H1 as [[H1 _]|[_ Hcs']].
    + by rewrite H0, lookup_empty in H1.
    + by rewrite Hcs in Hcs'.
  - assert (aliasMapOf (collectAliasStructPtr ir st F) F !! src = Some c)
      as H2.
    { apply collectAliasStructPtr_lookup. right.
      split; [by rewrite H0, lookup_empty|done]. }
    by rewrite H1 in H2.
Qed.

End BaseTypeTheorems.

Lemma aliasWF_emptyMLTA `{!Host} (ir : IR) : aliasWF ir emptyMLTA.
Proof. intros F src c. unfold aliasMapOf. simpl. by rewrite lookup_empty. Qed.

Lemma collect_alias_wf_witness :
  on_return (@aliasWF toyHost aliasIR)
    (@collect toyHost soundSensitive aliasIR emptyMLTA
       [CollectAlias aliasFunction]).
Proof.
  apply (@collect_alias_wf toyHost soundSensitive aliasIR emptyMLTA
           [CollectAlias aliasFunction]).
  exact (@aliasWF_emptyMLTA toyHost aliasIR).
Defined.

(** The base type of the allocation of [aliasIR] that is cast once is the
    struct its cast points to, and that struct is its chain. *)
Lemma getBaseTypeChain_composite_witness :
  (r ← @getBaseTypeChain toyHost soundSensitive aliasIR
         (@collectAliasStructPtr toyHost aliasIR emptyMLTA aliasFunction)
         [] (Some allocCastOnce) 1%positive;
   Ret r.1.1) = Ret [(tS, 0%Z)]
  ∧ yields (λ r, ∀ T, r.1 = Some T → isCompositeType T = true)
      (getBaseType aliasIR (value_fuel aliasIR)
         (@collectAliasStructPtr toyHost aliasIR emptyMLTA aliasFunction)
         (Some allocCastOnce) ∅)
  ∧ returns (λ r, allComposite r.1.1)
      (@getBaseTypeChain toyHost soundSensitive aliasIR
         (@collectAliasStructPtr toyHost aliasIR emptyMLTA aliasFunction)
         [] (Some allocCastOnce) 1%positive).
Proof.
  split; [by vm_compute|].
  apply (@getBaseTypeChain_composite toyHost soundSensitive aliasIR
           (@collectAliasStructPtr toyHost aliasIR emptyMLTA aliasFunction)
           [] (Some allocCastOnce) 1%positive).
  - apply collectAliasStructPtr_wf. exact (@aliasWF_emptyMLTA toyHost aliasIR).
  - constructor.
Defined.

Lemma collectAliasStructPtr_twice_witness :
  aliasMapOf (@collectAliasStructPtr toyHost aliasIR emptyMLTA aliasFunction)
             aliasFunction !! allocCastOnce = Some onlyCast
  ∧ aliasMapOf
      (@collectAliasStructPtr toyHost aliasIR
         (@collectAliasStructPtr toyHost aliasIR emptyMLTA aliasFunction)
         aliasFunction) aliasFunction
    = ∅.
Proof.
  split; [by vm_compute|].
  apply (@collectAliasStructPtr_twice toyHost aliasIR emptyMLTA
           aliasFunction).
  reflexivity.
Defined.

(** ** Walks with no set of visited values *)

Section DescentFacts.
Context `{!Host}.
Variable ir : IR.

Lemma descends_step (next : Kind → option Value) (rank : Value → nat)
    (v Opnd : Value) :
  next (KOther []) = None →
  descends ir next rank = true →
  next (kind (node ir v)) = Some Opnd →
  rank Opnd < rank v ∧ v ∈ dom (values ir).
Proof.
  intros Hnone Hd Hv. unfold node in Hv.
  destruct (values ir !! v) as [n|] eqn:Hn; simpl in Hv.
  2:{ by rewrite Hnone in Hv. }
  split; [|by apply elem_of_dom].
  unfold descends in Hd. rewrite forallb_forall in Hd.
  specialize (Hd (v, n)). simpl in Hd. rewrite Hv in Hd.
  eapply bool_decide_eq_true_1, Hd.
  apply list_elem_of_In. by apply elem_of_map_to_list.
Qed.

(** A value that is below all the values a walk has left is none of
    them; leaving it takes one from the values not yet left. *)
Lemma descent_progress (next : Kind → option Value) (rank : Value → nat)
    (v Opnd : Value) (Seen : gset Value) (n : nat) :
  next (KOther []) = None →
  descends ir next rank = true →
  next (kind (node ir v)) = Some Opnd →
  (∀ s, s ∈ Seen → rank v < rank s) →
  unvisited ir Seen < S n →
  (∀ s, s ∈ {[v]} ∪ Seen → rank Opnd < rank s)
  ∧ unvisited ir ({[v]} ∪ Seen) < n.
Proof.
  intros Hnone Hd Hv Hlow Hn.
  destruct (descends_step next rank v Opnd Hnone Hd Hv) as [Hlt Hdom].
  assert (v ∉ Seen) as Hnew.
  { intros Hin. specialize (Hlow v Hin). lia. }
  split.
  - intros s [->%elem_of_singleton|Hs]%elem_of_union; [done|].
    specialize (Hlow s Hs). lia.
  - pose proof (unvisited_visit ir v Seen ({[v]} ∪ Seen) Hdom Hnew) as Hx.
    assert (unvisited ir ({[v]} ∪ Seen) < unvisited ir Seen)
      by (apply Hx; set_solver).
    lia.
Qed.

Lemma baseFunctionLoop_descends (rank : Value → nat) (n : nat) (CV : Value)
    (Seen : gset Value) :
  descends ir bitcastStep rank = true →
  (∀ s, s ∈ Seen → rank CV < rank s) →
  unvisited ir Seen < n →
  yields (λ r, ∀ F, r = Some F →
                    isIntrinsic (func ir F) = false
                    ∧ ∃ v, asFunction ir v = Some F
                           ∧ rtc (stepsTo ir bitcastStep) CV v)
         (baseFunctionLoop ir n CV).
Proof.
  intros Hd. revert CV Seen.
  induction n as [|n IH]; intros CV Seen Hlow Hn; [lia|]. simpl.
  destruct (kind (node ir CV)) eqn:Hk; try (by simpl).
  assert (stepsTo ir bitcastStep CV op0) as Hstep.
  { unfold stepsTo. by rewrite Hk. }
  destruct (descent_progress bitcastStep rank CV op0 Seen n eq_refl Hd Hstep
              Hlow Hn) as [Hlow' Hn'].
  assert (yields (λ r, ∀ F, r = Some F →
                    isIntrinsic (func ir F) = false
                    ∧ ∃ v, asFunction ir v = Some F
                           ∧ rtc (stepsTo ir bitcastStep) CV v)
                 (baseFunctionLoop ir n op0)) as Hgo.
  { eapply yields_weaken; [apply (IH op0 _ Hlow' Hn')|].
    intros r Hr F HF. destruct (Hr F HF) as (Hin & v & Hv & Hrtc).
    split; [done|]. exists v. split; [done|]. by eapply rtc_l. }
  destruct (asFunction ir op0) as [F|] eqn:HF; [|exact Hgo].
  destruct (isIntrinsic (func ir F)) eqn:Hin; [exact Hgo|].
  simpl. intros F' [= <-]. split; [done|].
  exists op0. split; [done|]. by apply rtc_once.
Qed.

Lemma getVTable_descends_from (rank : Value → nat) (n : nat) (st : MLTA)
    (V : Value) (Seen : gset Value) :
  descends ir vtableStep rank = true →
  (∀ s, s ∈ Seen → rank V < rank s) →
  unvisited ir Seen < n →
  yields (λ r, ∀ v, r = Some v →
                    is_Some (VTableFuncsMap st !! v)
                    ∧ rtc (stepsTo ir vtableStep) V v
                    ∧ vtableStep (kind (node ir v)) = None)
         (getVTable ir n st V).
Proof.
  intros Hd. revert V Seen.
  induction n as [|n IH]; intros V Seen Hlow Hn; [lia|]. simpl.
  assert (∀ o, stepsTo ir vtableStep V o →
    yields (λ r, ∀ v, r = Some v →
                    is_Some (VTableFuncsMap st !! v)
                    ∧ rtc (stepsTo ir vtableStep) V v
                    ∧ vtableStep (kind (node ir v)) = None)
           (getVTable ir n st o)) as Hgo.
  { intros o Hstep.
    destruct (descent_progress vtableStep rank V o Seen n eq_refl Hd Hstep
                Hlow Hn) as [Hlow' Hn'].
    eapply yields_weaken; [apply (IH o _ Hlow' Hn')|].
    intros r Hr v Hv. destruct (Hr v Hv) as (Hin & Hrtc & Hend).
    split; [done|]. split; [by eapply rtc_l|done]. }
  destruct (kind (node ir V)) eqn:Hk;
    try (apply Hgo; unfold stepsTo; by rewrite Hk);
    (case_bool_decide as Hin; simpl; [|done];
     intros v [= <-]; split; [done|]; split; [done|by rewrite Hk]).
Qed.

End DescentFacts.

Section DescentTheorems.
Context `{!Host}.

(** X21: when the operands of the bitcasts of the program go down in some
    rank (no chain of bitcasts comes back to itself), [getBaseFunction]
    returns, within the bound of the model; the function it returns, if
    any, is no intrinsic, and is the value itself or is reached from it
    through operands of bitcasts only. *)
Theorem getBaseFunction_descends (ir : IR) (rank : Value → nat) (V : Value) :
  descends ir bitcastStep rank = true →
  yields (λ r, ∀ F, r = Some F →
                    isIntrinsic (func ir F) = false
                    ∧ ∃ v, asFunction ir v = Some F
                           ∧ rtc (stepsTo ir bitcastStep) V v)
         (getBaseFunction ir V).
Proof.
  intros Hd. unfold getBaseFunction.
  assert (yields (λ r, ∀ F, r = Some F →
                    isIntrinsic (func ir F) = false
                    ∧ ∃ v, asFunction ir v = Some F
                           ∧ rtc (stepsTo ir bitcastStep) V v)
                 (baseFunctionLoop ir (value_fuel ir) V)) as Hloop.
  { apply (baseFunctionLoop_descends ir rank _ V ∅ Hd); [set_solver|].
    unfold value_fuel. pose proof (unvisited_le ir ∅). lia. }
  destruct (asFunction ir V) as [F|] eqn:HF; [|exact Hloop].
  destruct (isIntrinsic (func ir F)) eqn:Hin; [exact Hloop|].
  simpl. intros F' [= <-]. split; [done|]. by exists V.
Qed.

(** X22: when the operands of the bitcasts and the pointer operands of
    the GEPs of the program go down in some rank, [getVTable] returns
    within as many steps as the program has values (plus one); the value
    it returns, if any, is a key of [VTableFuncsMap], is reached from [V]
    through such operands, and is itself no bitcast and no GEP: a bitcast
    or a GEP that is a key of the map is looked through. *)
Theorem getVTable_descends (ir : IR) (rank : Value → nat) (st : MLTA)
    (V : Value) :
  descends ir vtableStep rank = true →
  yields (λ r, ∀ v, r = Some v →
                    is_Some (VTableFuncsMap st !! v)
                    ∧ rtc (stepsTo ir vtableStep) V v
                    ∧ vtableStep (kind (node ir v)) = None)
         (getVTable ir (value_fuel ir) st V).
Proof.
  intros Hd.
  apply (getVTable_descends_from ir rank _ st V ∅ Hd); [set_solver|].
  unfold value_fuel. pose proof (unvisited_le ir ∅). lia.
Qed.

End DescentTheorems.

(** The function under the two casts of [castIR]. *)
Lemma getBaseFunction_descends_witness :
  getBaseFunction castIR castOfCast = Ret (Some f101)
  ∧ yields (λ r, ∀ F, r = Some F →
                      isIntrinsic (func castIR F) = false
                      ∧ ∃ v, asFunction castIR v = Some F
                             ∧ rtc (stepsTo castIR bitcastStep) castOfCast v)
      (getBaseFunction castIR castOfCast).
Proof.
  split; [reflexivity|].
  apply (getBaseFunction_descends castIR byNumber castOfCast).
  by vm_compute.
Defined.

(** The initializer pass records the table of [castIR] as one of
    functions, and [getVTable] finds it under the cast of its entry. *)
Lemma getVTable_descends_witness :
  (r ← @typeConfineInInitializer toyHost soundSensitive castIR emptyMLTA
         castTable 1%positive;
   Ret (VTableFuncsMap r.2))
  = Ret (VTableFuncsMap castTables)
  ∧ getVTable castIR (value_fuel castIR) castTables castOfEntry
    = Ret (Some castTable)
  ∧ yields (λ r, ∀ v, r = Some v →
                      is_Some (VTableFuncsMap castTables !! v)
                      ∧ rtc (stepsTo castIR vtableStep) castOfEntry v
                      ∧ vtableStep (kind (node castIR v)) = None)
      (getVTable castIR (value_fuel castIR) castTables castOfEntry).
Proof.
  split; [by vm_compute|]. split; [by vm_compute|].
  apply (getVTable_descends castIR byNumber castTables castOfEntry).
  by vm_compute.
Defined.

(** ** The resolver: caps, and the mode that is not sound *)

Section CapFacts.
Context `{!Host}.
Variable cfg : Config.
Variable ir : IR.

Lemma phiIncoming_ext
    (rec1 rec2 : option Value → list typeidx_t → option Value → gset Value
                 → res layer)
    (incoming : list Value) (TyList : list typeidx_t) (Visited : gset Value)
    (acc : layer) :
  (∀ V T N Vis, rec1 V T N Vis = rec2 V T N Vis) →
  phiIncoming rec1 incoming TyList Visited acc
  = phiIncoming rec2 incoming TyList Visited acc.
Proof.
  intros Hrec. revert acc.
  induction incoming as [|IV incoming IH]; intros acc; simpl; [done|].
  rewrite Hrec. destruct (rec2 _ _ _ _) as [r| |]; simpl; [|done..].
  destruct (decide _); [done|]. apply IH.
Qed.

Lemma nextLayerBaseType_caps (caps escapes : gset N) (fuel : nat) (st : MLTA)
    (V : option Value) (TyList : list typeidx_t) (NextV : option Value)
    (Visited : gset Value) :
  nextLayerBaseType cfg ir fuel
    (set_typeCapSet caps (set_typeEscapeSet escapes st)) V TyList NextV
    Visited
  = nextLayerBaseType cfg ir fuel st V TyList NextV Visited.
Proof.
  revert V TyList NextV Visited.
  induction fuel as [|fuel IH]; intros V TyList NextV Visited; [done|].
  destruct V as [v|]; simpl; [|done].
  destruct (kind (node ir v)); simpl; try done;
    destruct (decide (v ∈ Visited)); simpl; try done; try apply IH.
  apply phiIncoming_ext. apply IH.
Qed.

Lemma dependentLoop_caps (caps escapes : gset N) (n : nat) (st : MLTA)
    (LT : list hashidx_t) (Visited PropSet : gset hashidx_t) :
  dependentLoop n (set_typeCapSet caps (set_typeEscapeSet escapes st)) LT
                Visited PropSet
  = dependentLoop n st LT Visited PropSet.
Proof.
  revert LT Visited PropSet.
  induction n as [|n IH]; intros LT Visited PropSet; [done|].
  destruct LT as [|TI LT]; simpl; [done|].
  destruct (decide _); apply IH.
Qed.

Lemma layerStep_caps (caps escapes : gset N) (st : MLTA) (DL : DataLayout)
    (NextV : option Value) (TyIdx : typeidx_t) (w : Walk) :
  SOUND_MODE cfg = false →
  layerStep cfg (set_typeCapSet caps (set_typeEscapeSet escapes st)) DL NextV
            TyIdx w
  = layerStep cfg st DL NextV TyIdx w.
Proof.
  intros Hs. unfold layerStep, getDependentTypes. rewrite Hs. cbn [andb].
  destruct (Matched w !! _); [done|].
  by rewrite dependentLoop_caps.
Qed.

Lemma forLayers_caps (caps escapes : gset N) (MAX : Z) (st : MLTA)
    (DL : DataLayout) (NextV : option Value) (TyList : list typeidx_t)
    (w : Walk) :
  SOUND_MODE cfg = false →
  forLayers cfg MAX (set_typeCapSet caps (set_typeEscapeSet escapes st)) DL
            NextV TyList w
  = forLayers cfg MAX st DL NextV TyList w.
Proof.
  intros Hs. revert w.
  induction TyList as [|TyIdx TyList IH]; intros w; simpl; [done|].
  destruct (decide _); [done|].
  rewrite layerStep_caps by done.
  destruct (layerStep _ _ _ _ _ _) as [[w1 go]| |]; simpl; [|done..].
  destruct go; [apply IH|done].
Qed.

Lemma whileLayers_caps (caps escapes : gset N) (MAX : Z) (n : nat)
    (st : MLTA) (DL : DataLayout) (NextV : option Value) (w : Walk) :
  SOUND_MODE cfg = false →
  whileLayers cfg ir MAX n
    (set_typeCapSet caps (set_typeEscapeSet escapes st)) DL NextV w
  = whileLayers cfg ir MAX n st DL NextV w.
Proof.
  intros Hs. revert NextV w.
  induction n as [|n IH]; intros NextV w; [done|].
  rewrite !whileLayers_S, Hs. cbn [andb].
  destruct (negb _); [done|]. destruct (decide _); [done|].
  rewrite nextLayerBaseType_caps.
  destruct (nextLayerBaseType _ _ _ _ _ _ _ _)
    as [[[[ret TyList] NextV'] Vis]| |]; simpl; [|done..].
  destruct TyList as [|TyIdx TyList]; [done|].
  rewrite forLayers_caps by done.
  destruct (forLayers _ _ _ _ _ _ _) as [w1| |]; simpl; [|done..].
  apply IH.
Qed.

End CapFacts.

Section CapTheorems.
Context `{!Host}.


(** X24: in sound mode a layer of a capped type is the last one: [FS] is
    intersected with the targets of the layer, the loop over the layers
    is left with [ContinueNextLayer] false, and the loop [while
    (ContinueNextLayer)] then ends at once.  (The layer is in the cache,
    or is not escaping: an escaping layer that is not cached leaves the
    loop before.) *)
Theorem layerStep_capped (cfg : Config) (ir : IR) (st : MLTA)
    (DL : DataLayout) (NextV : option Value) (TyIdx : typeidx_t) (w : Walk) :
  SOUND_MODE cfg = true →
  typeHash TyIdx.1 DL ∈ typeCapSet st →
  is_Some (Matched w !! typeIdxHash TyIdx.1 DL TyIdx.2)
  ∨ (typeIdxHash TyIdx.1 DL TyIdx.2 ∉ typeEscapeSet st
     ∧ typeIdxHash TyIdx.1 DL (-1)%Z ∉ typeEscapeSet st) →
  yields (λ r, r.2 = false
               ∧ ContinueNextLayer r.1 = false
               ∧ FS r.1 ⊆ FS w
               ∧ CV r.1 = NextV
               ∧ ∀ MAX n NextV',
                   whileLayers cfg ir MAX (S n) st DL NextV' r.1 = Ret r.1)
         (layerStep cfg st DL NextV TyIdx w).
Proof.
  intros Hs Hcap Hlayer. unfold layerStep. rewrite Hs. cbn [andb].
  rewrite (bool_decide_eq_true_2 _ Hcap).
  destruct (Matched w !! typeIdxHash TyIdx.1 DL TyIdx.2) as [cached|] eqn:Hm.
  - simpl. rewrite intersectFuncSets_inter.
    split; [done|]. split; [done|]. split; [set_solver|]. split; [done|].
    intros MAX n NextV'. first [done|by rewrite whileLayers_S].
  - destruct Hlayer as [[? [=]]|[H1 H2]].
    rewrite (bool_decide_eq_false_2 _ H1), (bool_decide_eq_false_2 _ H2).
    cbn [orb].
    pose proof (getDependentTypes_closure st TyIdx.1 TyIdx.2 DL ∅) as Hy.
    apply yields_inv in Hy as (PropSet & -> & _). simpl.
    destruct (addDependentTargets _ _ _ _) as [Y1 Y2]. simpl.
    rewrite intersectFuncSets_inter.
    split; [done|]. split; [done|]. split; [set_solver|]. split; [done|].
    intros MAX n NextV'. first [done|by rewrite whileLayers_S].
Qed.

(** X25: without [SOUND_MODE] the answer of [findCalleesWithMLTA] does
    not depend on [typeCapSet] and [typeEscapeSet]: with any other two
    sets in their place the run gives the same function set. *)
Theorem findCalleesWithMLTA_unsound_ignores_caps (cfg : Config) (ir : IR)
    (MAX_TYPE_LAYER : Z) (st : MLTA) (CI : Value) (caps escapes : gset N) :
  SOUND_MODE cfg = false →
  calleesOf (findCalleesWithMLTA cfg ir MAX_TYPE_LAYER
               (set_typeCapSet caps (set_typeEscapeSet escapes st)) CI)
  = calleesOf (findCalleesWithMLTA cfg ir MAX_TYPE_LAYER st CI).
Proof.
  intros Hs. unfold findCalleesWithMLTA, calleesOf.
  destruct (kind (node ir CI)); try done.
  cbn [sigFuncsMap set_typeCapSet set_typeEscapeSet MatchedFuncsMap].
  destruct (decide _); [done|].
  destruct (parent (node ir CI)) as [caller|]; [|done].
  rewrite whileLayers_caps by done.
  by destruct (whileLayers _ _ _ _ _ _ _ _).
Qed.

End CapTheorems.


(** With [%A] capped the first layer of that call is the last: the run
    ends with the functions of field 2 of [%A]. *)
Lemma layerStep_capped_witness :
  calleesOf (@findCalleesWithMLTA toyHost soundSensitive nestedIR 10
               cappedTables nestedCall)
  = Ret {[f101; f102]}
  ∧ yields (λ r, r.2 = false
               ∧ ContinueNextLayer r.1 = false
               ∧ FS r.1 ⊆ FS nestedStart
               ∧ CV r.1 = Some nestedBase
               ∧ ∀ MAX n NextV',
                   @whileLayers toyHost soundSensitive nestedIR MAX (S n)
                     cappedTables 1%positive NextV' r.1 = Ret r.1)
      (@layerStep toyHost soundSensitive cappedTables 1%positive
         (Some nestedBase) (tA, 2%Z) nestedStart).
Proof.
  split; [by vm_compute|].
  apply (@layerStep_capped toyHost soundSensitive nestedIR cappedTables
           1%positive (Some nestedBase) (tA, 2%Z) nestedStart).
  - reflexivity.
  - by vm_compute.
  - right. split; by vm_compute.
Defined.

(** Without [SOUND_MODE] the escaping field 1 of [%S] is walked as any
    other layer. *)
Lemma findCalleesWithMLTA_unsound_ignores_caps_witness :
  calleesOf (@findCalleesWithMLTA toyHost unsoundSensitive nestedIR 10
               (set_typeCapSet ∅ (set_typeEscapeSet ∅ nestedTables))
               nestedCall)
  = calleesOf (@findCalleesWithMLTA toyHost unsoundSensitive nestedIR 10
                 nestedTables nestedCall).
Proof.
  apply (@findCalleesWithMLTA_unsound_ignores_caps toyHost unsoundSensitive
           nestedIR 10 nestedTables nestedCall ∅ ∅).
  reflexivity.
Defined.

(** ** What a store records *)

Section StoreFacts.
Context `{!Host}.
Variable cfg : Config.
Variable ir : IR.

Lemma noEmptyPhi_incoming (v : Value) (incoming : list Value) :
  noEmptyPhi ir = true → kind (node ir v) = KPHI incoming → incoming ≠ [].
Proof.
  intros Hphi Hk ->. unfold node in Hk.
  destruct (values ir !! v) as [n|] eqn:Hn; simpl in Hk; [|done].
  unfold noEmptyPhi in Hphi. rewrite forallb_forall in Hphi.
  specialize (Hphi (v, n)). simpl in Hphi. rewrite Hk in Hphi.
  assert (false = true) as Hff; [|done]. apply Hphi.
  apply list_elem_of_In. by apply elem_of_map_to_list.
Qed.

Lemma phiIncoming_nonempty
    (rec : option Value → list typeidx_t → option Value → gset Value
           → res layer)
    (incoming : list Value) (TyList : list typeidx_t) (Visited : gset Value)
    (acc : layer) :
  incoming ≠ [] →
  on_return (λ r, ∃ IV, IV ∈ incoming
                        ∧ rec (Some IV) TyList (Some IV) Visited = Ret r)
            (phiIncoming rec incoming TyList Visited acc).
Proof.
  destruct incoming as [|IV incoming]; [done|]. intros _. simpl.
  destruct (rec (Some IV) TyList (Some IV) Visited) as [r| |] eqn:Hr;
    simpl; [|done..].
  destruct (decide _).
  - simpl. exists IV. split; [left|done].
  - eapply on_return_weaken; [apply phiIncoming_result|].
    intros r' [->|(IV' & ? & ?)].
    + exists IV. split; [left|done].
    + exists IV'. split; [by right|done].
Qed.

(** A layer of the list is kept by every further call of the walker. *)
Lemma nextLayerBaseType_keeps (x : typeidx_t) (fuel : nat) (st : MLTA)
    (V : option Value) (TyList : list typeidx_t) (NextV : option Value)
    (Visited : gset Value) :
  noEmptyPhi ir = true →
  x ∈ TyList →
  on_return (λ r : layer, x ∈ r.1.1.2)
            (nextLayerBaseType cfg ir fuel st V TyList NextV Visited).
Proof.
  intros Hphi Hx. revert V NextV Visited.
  induction fuel as [|fuel IH]; intros V NextV Visited; [done|].
  destruct V as [v|]; simpl; [|done].
  destruct (kind (node ir v)) eqn:Hk; simpl; try done;
    destruct (decide (v ∈ Visited)) as [Hv|Hv]; simpl; try done;
    try apply IH.
  - eapply on_return_bind; [apply getGEPLayerTypes_layers|].
    intros [ret TyList'] (new & Hnew & _). simpl in *. subst TyList'.
    apply elem_of_app. by left.
  - eapply on_return_weaken.
    { apply phiIncoming_nonempty. by eapply noEmptyPhi_incoming. }
    intros r (IV & _ & Hr).
    pose proof (IH (Some IV) (Some IV) ({[v]} ∪ Visited)) as Hy.
    rewrite Hr in Hy. exact Hy.
Qed.

Lemma chainLoop_keeps (x : typeidx_t) (n : nat) (st : MLTA)
    (CV : option Value) (TyList : list typeidx_t) (NextV : option Value)
    (Visited : gset Value) :
  noEmptyPhi ir = true →
  x ∈ TyList →
  on_return (λ r, x ∈ r.1) (chainLoop cfg ir n st CV TyList NextV Visited).
Proof.
  intros Hphi. revert CV TyList NextV Visited.
  induction n as [|n IH]; intros CV TyList NextV Visited Hx; [done|].
  rewrite chainLoop_S.
  eapply on_return_bind; [by apply nextLayerBaseType_keeps|].
  intros [[[ret TyList'] NextV'] Visited'] Hx'. simpl in *.
  destruct ret; [|by simpl]. by apply IH.
Qed.

(** The layer of the first index of a GEP that follows a zero. *)
Lemma gepWalk_first (ETy : Ty) (Idx : Z) (Indices : list Z)
    (Tmp : list typeidx_t) :
  on_return (λ r : Ty * list typeidx_t,
               typeidx_c ETy (if MLTA_FIELD_INSENSITIVE cfg then 0%Z else Idx)
               ∈ r.2)
            (gepWalk cfg ir ETy (Idx :: Indices) Tmp).
Proof.
  simpl. eapply on_return_bind with (P := λ _, True).
  { by destruct (match ETy with StructTy _ _ => _ | _ => _ end). }
  intros SubTy _. eapply on_return_weaken; [apply gepWalk_layers|].
  intros [E' Tmp'] (new & -> & _). simpl.
  apply elem_of_app. right. left.
Qed.

Lemma getGEPLayerTypes_first (st : MLTA) (GEP PO : Value) (ETy : Ty)
    (idx0 i1 : Value) (rest : list Value) (TyList : list typeidx_t) :
  zeroIndex ir idx0 →
  on_return (λ r : bool * list typeidx_t,
               r.1 = true ∧ typeidx_c ETy (layerIndex cfg ir i1) ∈ r.2)
            (getGEPLayerTypes cfg ir st GEP PO ETy idx0 (i1 :: rest) TyList).
Proof.
  intros (w0 & z0 & Hc & Hz). unfold getGEPLayerTypes, gepIndices.
  rewrite Hc. rewrite decide_False by (by rewrite Hz; intros []).
  cbn [mbind res_bind fmap list_fmap tail].
  eapply on_return_bind.
  { apply (gepWalk_first ETy _ _ []). }
  intros [E' Tmp] Hin. simpl in Hin.
  assert (typeidx_c ETy (layerIndex cfg ir i1) ∈ Tmp) as Hin'.
  { unfold layerIndex. destruct (MLTA_FIELD_INSENSITIVE cfg); [done|].
    by destruct (asConstantInt ir i1) as [[w z]|]. }
  destruct (firstFieldLayers ir GEP E' ++ Tmp) as [|y ys] eqn:Hl.
  { exfalso. assert (typeidx_c ETy (layerIndex cfg ir i1) ∈ firstFieldLayers ir GEP E' ++ Tmp)
      as Hx by (apply elem_of_app; by right).
    rewrite Hl in Hx. by apply elem_of_nil in Hx. }
  simpl. split; [done|]. apply elem_of_app. right. rewrite <- Hl.
  apply elem_of_app. by right.
Qed.

(** The chain of a pointer that is a GEP into a type holds the layer of
    the type and of the first index after the zero. *)
Lemma chainLoop_first (n : nat) (st : MLTA) (PO base : Value) (T : Ty)
    (idx0 i1 : Value) (rest : list Value) :
  noEmptyPhi ir = true →
  kind (node ir PO) = KGEP base T idx0 (i1 :: rest) →
  zeroIndex ir idx0 →
  on_return (λ r, typeidx_c T (layerIndex cfg ir i1) ∈ r.1)
            (chainLoop cfg ir n st (Some PO) [] None ∅).
Proof.
  intros Hphi Hk Hz. destruct n as [|n]; [done|]. rewrite chainLoop_S.
  unfold value_fuel. cbn [nextLayerBaseType]. rewrite Hk.
  rewrite decide_False by set_solver.
  eapply on_return_bind.
  { eapply on_return_bind; [by apply getGEPLayerTypes_first|].
    intros [ret TyList] [Hret Hin]. simpl in *.
    instantiate (1 := λ r : layer,
                   r.1.1.1 = true
                   ∧ typeidx_c T (layerIndex cfg ir i1) ∈ r.1.1.2).
    by simpl. }
  intros [[[ret TyList] NextV] Vis] [Hret Hin]. simpl in *. subst ret.
  by apply chainLoop_keeps.
Qed.

Lemma getBaseTypeChain_first (st : MLTA) (PO base : Value) (T : Ty)
    (idx0 i1 : Value) (rest : list Value) (DL : DataLayout) :
  noEmptyPhi ir = true →
  kind (node ir PO) = KGEP base T idx0 (i1 :: rest) →
  zeroIndex ir idx0 →
  on_return (λ r, typeidx_c T (layerIndex cfg ir i1) ∈ r.1.1)
            (getBaseTypeChain cfg ir st [] (Some PO) DL).
Proof.
  intros Hphi Hk Hz. unfold getBaseTypeChain.
  eapply on_return_bind with (P := λ _, True).
  { by destruct (getBaseType _ _ _ _ _). }
  intros [BTy Vis] _.
  eapply on_return_bind; [by eapply chainLoop_first|].
  intros [TyList NextV] Hin. simpl in *.
  apply elem_of_app. by right.
Qed.

Lemma confineChain_records (m : gmap N (gmap Z FuncSet))
    (TyChain : list typeidx_t) (DL : DataLayout) (F : FuncId)
    (x : typeidx_t) :
  x ∈ TyChain →
  F ∈ at2 (foldl (λ m (TI : typeidx_t), insert2 m (typeHash TI.1 DL) TI.2 F)
                 m TyChain)
          (typeHash x.1 DL) x.2.
Proof.
  assert (∀ l m0, F ∈ at2 m0 (typeHash x.1 DL) x.2 →
            F ∈ at2 (foldl (λ m (TI : typeidx_t),
                              insert2 m (typeHash TI.1 DL) TI.2 F) m0 l)
                    (typeHash x.1 DL) x.2) as Hkeep.
  { induction l as [|y l IH]; intros m0 Hin; simpl; [done|].
    apply IH. by apply at2_insert2_grows. }
  revert m. induction TyChain as [|y l IH]; intros m Hx.
  { by apply elem_of_nil in Hx. }
  simpl. apply elem_of_cons in Hx as [->|Hx]; [|by apply IH].
  apply Hkeep. rewrite at2_insert2, decide_True by done. set_solver.
Qed.

Lemma confineTargetFunction_records (st : MLTA) (PO base : Value) (T : Ty)
    (idx0 i1 : Value) (rest : list Value) (F : FuncId) (DL : DataLayout) :
  noEmptyPhi ir = true →
  kind (node ir PO) = KGEP base T idx0 (i1 :: rest) →
  zeroIndex ir idx0 →
  isIntrinsic (func ir F) = false →
  on_return (λ st', F ∈ at2 (typeIdxFuncsMap st') (typeHash T DL)
                            (layerIndex cfg ir i1))
            (confineTargetFunction cfg ir st PO F DL).
Proof.
  intros Hphi Hk Hz HF. unfold confineTargetFunction. rewrite HF.
  eapply on_return_bind; [by eapply getBaseTypeChain_first|].
  intros [[TyChain Complete] st1] Hin. simpl in Hin. simpl.
  pose proof (confineChain_records (typeIdxFuncsMap st1) TyChain DL F _ Hin)
    as Hrec.
  destruct Complete; [done|]. by destruct (last TyChain).
Qed.

Lemma baseFunctionLoop_not_intrinsic (n : nat) (CV : Value) :
  on_return (λ r, ∀ F, r = Some F → isIntrinsic (func ir F) = false)
            (baseFunctionLoop ir n CV).
Proof.
  revert CV. induction n as [|n IH]; intros CV; [done|]. simpl.
  destruct (kind (node ir CV)); try (by simpl).
  destruct (asFunction ir op0) as [F|]; [|apply IH].
  destruct (isIntrinsic (func ir F)) eqn:HF; [apply IH|].
  simpl. by intros F' [= <-].
Qed.

Lemma getBaseFunction_not_intrinsic (V : Value) :
  on_return (λ r, ∀ F, r = Some F → isIntrinsic (func ir F) = false)
            (getBaseFunction ir V).
Proof.
  unfold getBaseFunction.
  destruct (asFunction ir V) as [F|];
    [|apply baseFunctionLoop_not_intrinsic].
  destruct (isIntrinsic (func ir F)) eqn:HF;
    [apply baseFunctionLoop_not_intrinsic|].
  simpl. by intros F' [= <-].
Qed.

Lemma confineInstructions_records (st : MLTA) (Fn : FuncId)
    (Is : list Value) (DL : DataLayout) (Inst VO PO base : Value) (T : Ty)
    (idx0 i1 : Value) (rest : list Value) (CF : FuncId) :
  noEmptyPhi ir = true →
  Inst ∈ Is →
  kind (node ir Inst) = KStore VO PO →
  getBaseFunction ir (stripPointerCasts VO) = Ret (Some CF) →
  isIntrinsic (func ir Fn) = false →
  kind (node ir PO) = KGEP base T idx0 (i1 :: rest) →
  zeroIndex ir idx0 →
  on_return (λ st', CF ∈ at2 (typeIdxFuncsMap st') (typeHash T DL)
                             (layerIndex cfg ir i1))
            (confineInstructions cfg ir st Fn Is DL).
Proof.
  intros Hphi Hin Hk HCF HFn HPO Hz.
  assert (isIntrinsic (func ir CF) = false) as HF.
  { pose proof (getBaseFunction_not_intrinsic (stripPointerCasts VO)) as Hb.
    rewrite HCF in Hb. by apply Hb. }
  revert st. induction Is as [|I' Is IH]; intros st.
  { by apply elem_of_nil in Hin. }
  simpl. destruct (decide (I' = Inst)) as [->|Hne].
  - unfold confineInstruction at 1. rewrite Hk, HCF. cbn [mbind res_bind].
    rewrite HFn.
    eapply on_return_bind; [by eapply confineTargetFunction_records|].
    intros st1 Hst1. cbn beta in Hst1.
    eapply on_return_weaken; [apply confineInstructions_writes|].
    intros st' Hst'. apply confineWrites_frame in Hst' as (Hgrow & _).
    by apply (Hgrow _ _).
  - apply elem_of_cons in Hin as [->|Hin]; [done|].
    eapply on_return_bind with (P := λ _, True).
    { by destruct (confineInstruction _ _ _ _ _ _). }
    intros st1 _. by apply IH.
Qed.

End StoreFacts.

Section StoreTheorems.
Context `{!Host}.

(** X26: [typeConfineInFunction] records what a store writes: for a store
    in [F] of a value under whose pointer casts [getBaseFunction] finds
    the function [CF], to a pointer that is a GEP into the type [T] with
    a first index 0, [CF] is, at the return, in [typeIdxFuncsMap] under
    the hash of [T] and the index of the GEP's second index (-1 when that
    is no constant, 0 with [MLTA_FIELD_INSENSITIVE]). *)
Theorem typeConfineInFunction_records_store (cfg : Config) (ir : IR)
    (st : MLTA) (Fn : FuncId) (DL : DataLayout) (Inst VO PO base : Value)
    (T : Ty) (idx0 i1 : Value) (rest : list Value) (CF : FuncId) :
  noEmptyPhi ir = true →
  Inst ∈ instructions (func ir Fn) →
  kind (node ir Inst) = KStore VO PO →
  getBaseFunction ir (stripPointerCasts VO) = Ret (Some CF) →
  isIntrinsic (func ir Fn) = false →
  kind (node ir PO) = KGEP base T idx0 (i1 :: rest) →
  zeroIndex ir idx0 →
  on_return (λ r, CF ∈ at2 (typeIdxFuncsMap r.2) (typeHash T DL)
                           (layerIndex cfg ir i1))
            (typeConfineInFunction cfg ir st Fn DL).
Proof.
  intros Hphi Hin Hk HCF HFn HPO Hz. unfold typeConfineInFunction.
  eapply on_return_bind;
    [by eapply (confineInstructions_records cfg ir st Fn _ DL Inst)|].
  by intros st' Hst'.
Qed.

End StoreTheorems.

(** The store of [confineIR] puts function 102 under field 1 of [%V]. *)
Lemma typeConfineInFunction_records_store_witness :
  on_return (λ r, f102 ∈ at2 (typeIdxFuncsMap r.2)
                             (@typeHash toyHost tV 1%positive)
                             (layerIndex soundSensitive confineIR one32))
    (@typeConfineInFunction toyHost soundSensitive confineIR emptyMLTA
       confineFunction 1%positive)
  ∧ (r ← @typeConfineInFunction toyHost soundSensitive confineIR emptyMLTA
           confineFunction 1%positive;
     Ret (typeIdxFuncsMap r.2))
    = Ret {[ tyCode tV := {[ 1%Z := {[ f102 ]} ]} ]}.
Proof.
  split; [|by vm_compute].
  apply (@typeConfineInFunction_records_store toyHost soundSensitive
           confineIR emptyMLTA confineFunction 1%positive confineStore
           secondEntry confineSlot confineBase tV zero64 one32 [] f102).
  - reflexivity.
  - by vm_compute; right; left.
  - reflexivity.
  - reflexivity.
  - reflexivity.
  - reflexivity.
  - exists 64%N, 0%Z. split; reflexivity.
Defined.

(** ** What a copy propagates *)

Section CopyFacts.
Context `{!Host}.
Variable cfg : Config.
Variable ir : IR.
Variable getName : FuncId → string.
Variable DefaultIdx : Z.

(** The walk from a value loaded through a GEP gives the layer of the
    GEP. *)
Lemma nextLayerBaseType_load (fuel : nat) (st : MLTA) (VO G2 base2 : Value)
    (T2 : Ty) (idx0 j1 : Value) (rest2 : list Value) (NextV : option Value) :
  kind (node ir VO) = KLoad G2 →
  kind (node ir G2) = KGEP base2 T2 idx0 (j1 :: rest2) →
  zeroIndex ir idx0 →
  on_return (λ r : layer, typeidx_c T2 (layerIndex cfg ir j1) ∈ r.1.1.2)
            (nextLayerBaseType cfg ir fuel st (Some VO) [] NextV ∅).
Proof.
  intros HVO HG2 Hz. destruct fuel as [|fuel]; [done|].
  cbn [nextLayerBaseType]. rewrite HVO. rewrite decide_False by set_solver.
  destruct fuel as [|fuel]; [done|].
  cbn [nextLayerBaseType]. rewrite HG2.
  rewrite decide_False.
  2:{ intros Hin. assert (G2 = VO) as Heq by set_solver.
      rewrite Heq, HVO in HG2. done. }
  eapply on_return_bind; [by apply getGEPLayerTypes_first|].
  by intros [ret TyList] [_ Hin].
Qed.

Lemma propagateChain_records (m : gmap N (gmap Z (gset hashidx_t)))
    (TyChain : list typeidx_t) (DL : DataLayout) (FromTy : Ty) (Idx : Z)
    (y : typeidx_t) :
  y ∈ TyChain →
  (typeHash y.1 DL, y.2) ≠ (typeHash FromTy DL, Idx) →
  hashidx_c (typeHash FromTy DL) Idx
  ∈ at2 (foldl (λ m (T : typeidx_t),
                  if bool_decide (typeHash T.1 DL = typeHash FromTy DL)
                     && bool_decide (T.2 = Idx)
                  then m
                  else insert2 m (typeHash T.1 DL) T.2
                               (hashidx_c (typeHash FromTy DL) Idx))
               m TyChain)
        (typeHash y.1 DL) y.2.
Proof.
  intros Hy Hne.
  assert (∀ l m0,
            hashidx_c (typeHash FromTy DL) Idx ∈ at2 m0 (typeHash y.1 DL) y.2 →
            hashidx_c (typeHash FromTy DL) Idx
            ∈ at2 (foldl (λ m (T : typeidx_t),
                  if bool_decide (typeHash T.1 DL = typeHash FromTy DL)
                     && bool_decide (T.2 = Idx)
                  then m
                  else insert2 m (typeHash T.1 DL) T.2
                               (hashidx_c (typeHash FromTy DL) Idx))
                         m0 l)
                  (typeHash y.1 DL) y.2) as Hkeep.
  { induction l as [|z l IH]; intros m0 Hin; simpl; [done|].
    apply IH. destruct (_ && _); [done|]. by apply at2_insert2_grows. }
  revert m. induction TyChain as [|z l IH]; intros m.
  { by apply elem_of_nil in Hy. }
  simpl. apply elem_of_cons in Hy as [->|Hy]; [|by apply IH].
  apply Hkeep.
  destruct (bool_decide (typeHash z.1 DL = typeHash FromTy DL)
            && bool_decide (z.2 = Idx)) eqn:Hsame.
  { apply andb_prop in Hsame
      as [H1%bool_decide_eq_true H2%bool_decide_eq_true].
    destruct Hne. by rewrite H1, H2. }
  rewrite at2_insert2, decide_True by done. set_solver.
Qed.

Lemma propagateType_records (st : MLTA) (PO base : Value) (T : Ty)
    (idx0 i1 : Value) (rest : list Value) (FromTy : Ty) (Idx : Z)
    (DL : DataLayout) :
  noEmptyPhi ir = true →
  kind (node ir PO) = KGEP base T idx0 (i1 :: rest) →
  zeroIndex ir idx0 →
  (typeHash T DL, layerIndex cfg ir i1) ≠ (typeHash FromTy DL, Idx) →
  on_return (λ st', hashidx_c (typeHash FromTy DL) Idx
                    ∈ at2 (typeIdxPropMap st') (typeHash T DL)
                          (layerIndex cfg ir i1))
            (propagateType cfg ir st PO FromTy DL Idx).
Proof.
  intros Hphi Hk Hz Hne. unfold propagateType.
  eapply on_return_bind; [by eapply getBaseTypeChain_first|].
  intros [[TyChain Complete] st1] Hin. simpl in Hin. simpl.
  by apply (propagateChain_records _ TyChain DL FromTy Idx _ Hin).
Qed.

Lemma propagateLayers_records (st : MLTA) (PO base : Value) (T : Ty)
    (idx0 i1 : Value) (rest : list Value) (TyList : list typeidx_t)
    (x : typeidx_t) (DL : DataLayout) :
  noEmptyPhi ir = true →
  kind (node ir PO) = KGEP base T idx0 (i1 :: rest) →
  zeroIndex ir idx0 →
  x ∈ TyList →
  (typeHash T DL, layerIndex cfg ir i1) ≠ (typeHash x.1 DL, x.2) →
  on_return (λ st', hashidx_c (typeHash x.1 DL) x.2
                    ∈ at2 (typeIdxPropMap st') (typeHash T DL)
                          (layerIndex cfg ir i1))
            (propagateLayers cfg ir st PO TyList DL).
Proof.
  intros Hphi Hk Hz Hx Hne. revert st.
  induction TyList as [|y l IH]; intros st.
  { by apply elem_of_nil in Hx. }
  simpl. destruct (decide (y = x)) as [->|Hyx].
  - eapply on_return_bind; [by eapply propagateType_records|].
    intros st1 Hst1. cbn beta in Hst1.
    eapply on_return_weaken; [apply propagateLayers_flows|].
    intros st' Hst'. apply flowWrites_frame in Hst' as (Hgrow & _).
    by apply (Hgrow _ _).
  - apply elem_of_cons in Hx as [->|Hx]; [done|].
    eapply on_return_bind with (P := λ _, True).
    { by destruct (propagateType _ _ _ _ _ _ _). }
    intros st1 _. by apply IH.
Qed.

Lemma propagateValue_records (st : MLTA) (PO base VO G2 base2 : Value)
    (T T2 : Ty) (idx0 i1 idx0' j1 : Value) (rest rest2 : list Value)
    (DL : DataLayout) :
  noEmptyPhi ir = true →
  kind (node ir VO) = KLoad G2 →
  kind (node ir G2) = KGEP base2 T2 idx0' (j1 :: rest2) →
  zeroIndex ir idx0' →
  kind (node ir PO) = KGEP base T idx0 (i1 :: rest) →
  zeroIndex ir idx0 →
  (typeHash T DL, layerIndex cfg ir i1)
  ≠ (typeHash T2 DL, layerIndex cfg ir j1) →
  on_return (λ r, hashidx_c (typeHash T2 DL) (layerIndex cfg ir j1)
                  ∈ at2 (typeIdxPropMap r.1) (typeHash T DL)
                        (layerIndex cfg ir i1))
            (propagateValue cfg ir DefaultIdx st PO VO DL).
Proof.
  intros Hphi HVO HG2 Hz' HPO Hz Hne. unfold propagateValue.
  unfold isConstantAggregate, isConstantData. rewrite HVO. cbn [orb].
  eapply on_return_bind.
  { apply (nextLayerBaseType_load _ st VO G2 base2 T2 idx0' j1 rest2 None
             HVO HG2 Hz'). }
  intros [[[ret TyList] NextV] Vis] Hin. simpl in Hin.
  destruct TyList as [|y l]; [by apply elem_of_nil in Hin|].
  eapply on_return_bind.
  { apply (propagateLayers_records st PO base T idx0 i1 rest (y :: l)
             (typeidx_c T2 (layerIndex cfg ir j1)) DL Hphi HPO Hz Hin Hne). }
  by intros st1 Hst1.
Qed.

Lemma propInstructions_records (DL : DataLayout) (acc : MLTA * gset Value)
    (Is : list Value) (Inst PO base VO G2 base2 : Value)
    (T T2 : Ty) (idx0 i1 idx0' j1 : Value) (rest rest2 : list Value) :
  noEmptyPhi ir = true →
  Inst ∈ Is →
  kind (node ir Inst) = KStore VO PO →
  kind (node ir VO) = KLoad G2 →
  kind (node ir G2) = KGEP base2 T2 idx0' (j1 :: rest2) →
  zeroIndex ir idx0' →
  kind (node ir PO) = KGEP base T idx0 (i1 :: rest) →
  zeroIndex ir idx0 →
  (typeHash T DL, layerIndex cfg ir i1)
  ≠ (typeHash T2 DL, layerIndex cfg ir j1) →
  on_return (λ r, hashidx_c (typeHash T2 DL) (layerIndex cfg ir j1)
                  ∈ at2 (typeIdxPropMap r.1) (typeHash T DL)
                        (layerIndex cfg ir i1))
            (propInstructions cfg ir getName DefaultIdx DL acc Is).
Proof.
  intros Hphi Hin Hk HVO HG2 Hz' HPO Hz Hne. revert acc.
  induction Is as [|I' Is IH]; intros [st CastSet].
  { by apply elem_of_nil in Hin. }
  cbn [propInstructions]. destruct (decide (I' = Inst)) as [->|HI].
  - unfold propInstruction at 1, propOperands. rewrite Hk.
    cbn [mbind res_bind].
    eapply on_return_bind.
    { eapply on_return_bind.
      - by eapply (propagateValue_records st PO base VO G2 base2 T T2).
      - intros [st1 skip] Hst1. simpl in Hst1.
        instantiate (1 := λ r, hashidx_c (typeHash T2 DL)
                                         (layerIndex cfg ir j1)
                               ∈ at2 (typeIdxPropMap r.1) (typeHash T DL)
                                     (layerIndex cfg ir i1)).
        by simpl. }
    intros [st1 Cs] Hst1. simpl in Hst1.
    eapply on_return_weaken; [apply propInstructions_flows|].
    intros r Hr. simpl in Hr. apply flowWrites_frame in Hr as (Hgrow & _).
    by apply (Hgrow _ _).
  - apply elem_of_cons in Hin as [->|Hin]; [done|].
    eapply on_return_bind with (P := λ _, True).
    { by destruct (propInstruction _ _ _ _ _ _ _). }
    intros acc1 _. by apply IH.
Qed.

End CopyFacts.

Section CopyTheorems.
Context `{!Host}.

(** X27: [typePropInFunction] records what a store copies: for a store in
    [F] of a value that is loaded through a GEP into the type [T2] to a
    pointer that is a GEP into the type [T], both with a first index 0,
    the pair of [T2] and its index is, at the return, an edge of
    [typeIdxPropMap] under the pair of [T] and its index, unless the two
    pairs are the same. *)
Theorem typePropInFunction_records_store (cfg : Config) (ir : IR)
    (getName : FuncId → string) (DefaultIdx : Z) (st : MLTA) (Fn : FuncId)
    (DL : DataLayout) (Inst PO base VO G2 base2 : Value)
    (T T2 : Ty) (idx0 i1 idx0' j1 : Value) (rest rest2 : list Value) :
  noEmptyPhi ir = true →
  Inst ∈ instructions (func ir Fn) →
  kind (node ir Inst) = KStore VO PO →
  kind (node ir VO) = KLoad G2 →
  kind (node ir G2) = KGEP base2 T2 idx0' (j1 :: rest2) →
  zeroIndex ir idx0' →
  kind (node ir PO) = KGEP base T idx0 (i1 :: rest) →
  zeroIndex ir idx0 →
  (typeHash T DL, layerIndex cfg ir i1)
  ≠ (typeHash T2 DL, layerIndex cfg ir j1) →
  on_return (λ r, hashidx_c (typeHash T2 DL) (layerIndex cfg ir j1)
                  ∈ at2 (typeIdxPropMap r.2) (typeHash T DL)
                        (layerIndex cfg ir i1))
            (typePropInFunction cfg ir getName DefaultIdx st Fn DL).
Proof.
  intros Hphi Hin Hk HVO HG2 Hz' HPO Hz Hne. unfold typePropInFunction.
  eapply on_return_bind.
  { by eapply (propInstructions_records cfg ir getName DefaultIdx DL (st, ∅)
                 _ Inst PO base VO G2 base2 T T2). }
  intros [st1 CastSet] Hst1. simpl in Hst1.
  eapply on_return_bind with (P := λ _, True).
  { by destruct (castLoop _ _). }
  by intros _ _.
Qed.

End CopyTheorems.

(** The store of [flowIR] copies field 2 of [%A] to field 1 of [%V]. *)
Lemma typePropInFunction_records_store_witness :
  on_return (λ r, hashidx_c (@typeHash toyHost tA 1%positive)
                            (layerIndex soundSensitive flowIR two32)
                  ∈ at2 (typeIdxPropMap r.2) (@typeHash toyHost tV 1%positive)
                        (layerIndex soundSensitive flowIR one32))
    (@typePropInFunction toyHost soundSensitive flowIR noNames anyField
       emptyMLTA flowFunction 1%positive).
Proof.
  apply (@typePropInFunction_records_store toyHost soundSensitive flowIR
           noNames anyField emptyMLTA flowFunction 1%positive flowStore
           flowSlot flowSlotBase flowLoad flowField flowFieldBase tV tA
           zero64 one32 zero64 two32 [] []).
  - reflexivity.
  - by vm_compute; do 3 right; left.
  - reflexivity.
  - reflexivity.
  - reflexivity.
  - exists 64%N, 0%Z. split; reflexivity.
  - reflexivity.
  - exists 64%N, 0%Z. split; reflexivity.
  - by vm_compute.
Defined.

(** ** A call through one field: the resolver keeps what was confined *)

Section FieldCallFacts.
Context `{!Host}.
Variable cfg : Config.
Variable ir : IR.

Lemma firstFieldLayers_no_casts (GEP : Value) (ETy : Ty) :
  noCastUsers ir GEP = true → firstFieldLayers ir GEP ETy = [].
Proof.
  intros Hno. unfold firstFieldLayers. destruct ETy; try done.
  destruct (struct_body _ _ _) as [|Ty0 ?]; [done|].
  unfold noCastUsers in Hno.
  induction (users ir GEP) as [|U Us IH]; simpl in *; [done|].
  apply andb_prop in Hno as [HU HUs]. rewrite (IH HUs), app_nil_r.
  unfold isBitCastOperator in HU. by destruct (kind (node ir U)).
Qed.

Lemma getGEPLayerTypes_single (st : MLTA) (GEP PO : Value) (ETy : Ty)
    (idx0 i1 : Value) (TyList : list typeidx_t) :
  zeroIndex ir idx0 →
  noCastUsers ir GEP = true →
  on_return (λ r : bool * list typeidx_t,
               r = (true, TyList ++ [typeidx_c ETy (layerIndex cfg ir i1)]))
            (getGEPLayerTypes cfg ir st GEP PO ETy idx0 [i1] TyList).
Proof.
  intros (w0 & z0 & Hc & Hz) Hno. unfold getGEPLayerTypes, gepIndices.
  rewrite Hc. rewrite decide_False by (by rewrite Hz; intros []).
  cbn [mbind res_bind fmap list_fmap tail gepWalk].
  destruct (match ETy with StructTy _ _ => _ | _ => _ end) as [SubTy| |];
    simpl; [|done..].
  rewrite firstFieldLayers_no_casts by done. simpl.
  unfold layerIndex. destruct (MLTA_FIELD_INSENSITIVE cfg); [done|].
  by destruct (asConstantInt ir i1) as [[w z]|].
Qed.

Lemma nextLayerBaseType_load_single (fuel : nat) (st : MLTA)
    (VO G base : Value) (T : Ty) (idx0 i1 : Value) (NextV : option Value) :
  kind (node ir VO) = KLoad G →
  kind (node ir G) = KGEP base T idx0 [i1] →
  zeroIndex ir idx0 →
  noCastUsers ir G = true →
  on_return (λ r : layer,
               r.1.1.2 = [typeidx_c T (layerIndex cfg ir i1)]
               ∧ r.1.2 = Some base)
            (nextLayerBaseType cfg ir fuel st (Some VO) [] NextV ∅).
Proof.
  intros HVO HG Hz Hno. destruct fuel as [|fuel]; [done|].
  cbn [nextLayerBaseType]. rewrite HVO. rewrite decide_False by set_solver.
  destruct fuel as [|fuel]; [done|].
  cbn [nextLayerBaseType]. rewrite HG.
  rewrite decide_False.
  2:{ intros Hin. assert (G = VO) as Heq by set_solver.
      rewrite Heq, HVO in HG. done. }
  eapply on_return_bind; [by apply getGEPLayerTypes_single|].
  by intros [ret TyList] [= -> ->].
Qed.

Lemma nextLayerBaseType_argument (fuel : nat) (st : MLTA) (V : Value)
    (TyList : list typeidx_t) (NextV : option Value) (Visited : gset Value) :
  kind (node ir V) = KArgument →
  on_return (λ r : layer, r.1.1.2 = TyList)
            (nextLayerBaseType cfg ir fuel st (Some V) TyList NextV Visited).
Proof.
  intros Hk. destruct fuel as [|fuel]; [done|].
  cbn [nextLayerBaseType]. by rewrite Hk.
Qed.

(** The walk of the resolver from the callee of such a call: the
    function stays in [FS]. *)
Lemma whileLayers_keeps_confined (MAX : Z) (n : nat) (st : MLTA)
    (DL : DataLayout) (callee G base : Value) (T : Ty) (idx0 i1 : Value)
    (p : hashidx_t) (CF : FuncId) (NextV : option Value) (w : Walk) :
  kind (node ir callee) = KLoad G →
  kind (node ir G) = KGEP base T idx0 [i1] →
  zeroIndex ir idx0 →
  noCastUsers ir G = true →
  kind (node ir base) = KArgument →
  rtc (propEdge st) (hashidx_c (typeHash T DL) (layerIndex cfg ir i1)) p →
  CF ∈ confinedTo st p →
  CF ∈ FS w →
  CV w = Some callee ∨ CV w = Some base →
  (Matched w !! typeIdxHash T DL (layerIndex cfg ir i1) = None
   ∨ ∃ X, Matched w !! typeIdxHash T DL (layerIndex cfg ir i1) = Some X
          ∧ CF ∈ X) →
  on_return (λ w', CF ∈ FS w') (whileLayers cfg ir MAX n st DL NextV w).
Proof.
  intros Hcallee HG Hz Hno Hbase Hp HCF.
  revert NextV w. induction n as [|n IH]; intros NextV w HFS HCV HM; [done|].
  rewrite whileLayers_S.
  destruct (negb _); [by simpl|]. destruct (decide _) as [|Hmax]; [by simpl|].
  destruct (_ && _); [by simpl|].
  destruct HCV as [HCV|HCV]; rewrite HCV.
  2:{ eapply on_return_bind; [by apply nextLayerBaseType_argument|].
      intros [[[ret TyList] NextV'] Vis] HT. simpl in HT. subst TyList.
      by simpl. }
  eapply on_return_bind.
  { by apply (nextLayerBaseType_load_single _ st callee G base T idx0 i1). }
  intros [[[ret TyList] NextV'] Vis] [HT HN]. simpl in HT, HN. subst.
  cbn [forLayers]. rewrite decide_False by done.
  set (TyIdx := typeidx_c T (layerIndex cfg ir i1)).
  assert (on_return (λ r, CF ∈ FS r.1
                          ∧ (CV r.1 = Some callee ∨ CV r.1 = Some base)
                          ∧ (Matched r.1 !! typeIdxHash T DL (layerIndex cfg ir i1) = None
                             ∨ ∃ X, Matched r.1 !! typeIdxHash T DL (layerIndex cfg ir i1) = Some X
                                    ∧ CF ∈ X))
                    (layerStep cfg st DL (Some base) TyIdx w)) as Hstep.
  { destruct HM as [HM|(X & HM & HX)].
    - eapply on_return_weaken;
        [apply yields_on_return,
               (layerStep_sets cfg st DL (Some base) TyIdx w HM)|].
      intros r [(_ & -> & _ & -> & ->)|(X & -> & _ & -> & -> & Hdir & Hdep)].
      + split; [done|]. split; [by left|by left].
      + assert (CF ∈ X) as HX.
        { apply rtc_tc in Hp as [<-|Hp].
          - apply Hdir. by apply confinedTo_getTargets.
          - by apply (Hdep p). }
        split; [set_solver|]. split; [by right|]. right. exists X.
        split; [apply lookup_insert_eq|done].
    - unfold layerStep. cbn [TyIdx typeidx_c fst snd]. rewrite HM.
      cbn [mbind res_bind]. rewrite intersectFuncSets_inter.
      destruct (SOUND_MODE cfg && _); simpl;
        (split; [set_solver|]; split; [by right|]; right; exists X; done). }
  eapply on_return_bind.
  { eapply on_return_bind; [exact Hstep|].
    intros [w1 go] (H1 & H2 & H3). simpl in *.
    instantiate (1 := λ w1, CF ∈ FS w1
                          ∧ (CV w1 = Some callee ∨ CV w1 = Some base)
                          ∧ (Matched w1 !! typeIdxHash T DL (layerIndex cfg ir i1) = None
                             ∨ ∃ X, Matched w1 !! typeIdxHash T DL (layerIndex cfg ir i1) = Some X
                                    ∧ CF ∈ X)).
    by destruct go. }
  intros w1 (H1 & H2 & H3). by apply IH.
Qed.

End FieldCallFacts.

Section FieldCallTheorem.
Context `{!Host}.

(** X28: the resolver keeps what the collection has confined.  For a
    call in a function whose callee is loaded through a GEP, with the
    indices 0 and [i1], into the type [T] from an argument (a GEP that no
    bitcast uses), [findCalleesWithMLTA] comes to its end, and its answer
    holds every function of the seed that is confined to the pair of [T]
    and the index of [i1], to the any-field pair of a type, or to a pair
    from which types propagate to the pair of [T], when the cache has no
    entry for that layer at the call. *)
Theorem findCalleesWithMLTA_keeps_confined (cfg : Config) (ir : IR)
    (MAX_TYPE_LAYER : Z) (st : MLTA) (CI : Value) (FTy : Ty)
    (args : list Value) (callee : Value) (caller : FuncId)
    (G base : Value) (T : Ty) (idx0 i1 : Value) (p : hashidx_t)
    (CF : FuncId) :
  kind (node ir CI) = KCall FTy args callee →
  parent (node ir CI) = Some caller →
  kind (node ir callee) = KLoad G →
  kind (node ir G) = KGEP base T idx0 [i1] →
  zeroIndex ir idx0 →
  noCastUsers ir G = true →
  kind (node ir base) = KArgument →
  MatchedFuncsMap st
    !! typeIdxHash T (DLMap (getParent (func ir caller))) (layerIndex cfg ir i1)
  = None →
  rtc (propEdge st)
      (hashidx_c (typeHash T (DLMap (getParent (func ir caller))))
                 (layerIndex cfg ir i1)) p →
  CF ∈ confinedTo st p →
  CF ∈ seedOf st CI →
  returns (λ r, CF ∈ r.1.2)
          (findCalleesWithMLTA cfg ir MAX_TYPE_LAYER st CI).
Proof.
  intros Hk Hp Hcallee HG Hz Hno Hbase HM Hrtc HCF Hseed.
  unfold findCalleesWithMLTA. unfold seedOf in Hseed. rewrite Hk, Hp.
  destruct (decide _) as [He|He]; [by rewrite He in Hseed|].
  eapply returns_bind.
  { apply returns_split.
    - by apply whileLayers_layer_fuel.
    - apply (whileLayers_keeps_confined cfg ir _ _ st _ callee G base T idx0
               i1 p CF); try done.
      + by left.
      + by left. }
  by intros w Hw.
Qed.

End FieldCallTheorem.

(** The collection over [tableIR] gives [tableTables]; the call through
    field 1 of [%V] is resolved to function 102, the entry of the table
    under that field. *)
Lemma findCalleesWithMLTA_keeps_confined_witness :
  @collect toyHost soundSensitive tableIR tableSeed tableSteps
  = Ret tableTables
  ∧ calleesOf (@findCalleesWithMLTA toyHost soundSensitive tableIR 10
                 tableTables tableCall)
    = Ret {[ f102 ]}
  ∧ returns (λ r, f102 ∈ r.1.2)
      (@findCalleesWithMLTA toyHost soundSensitive tableIR 10 tableTables
         tableCall).
Proof.
  split; [by vm_compute|]. split; [by vm_compute|].
  apply (@findCalleesWithMLTA_keeps_confined toyHost soundSensitive tableIR
           10 tableTables tableCall fnTy [] tableCallee tableCaller
           tableField tableArg tV zero64 one32 (tyCode tV, 1%Z) f102).
  - reflexivity.
  - reflexivity.
  - reflexivity.
  - reflexivity.
  - exists 64%N, 0%Z. split; reflexivity.
  - reflexivity.
  - reflexivity.
  - by vm_compute.
  - apply rtc_refl.
  - by vm_compute.
  - by vm_compute.
Defined.

(** ** What escapes, and what is capped *)

Section EscapeFacts.
Context `{!Host}.
Variable cfg : Config.
Variable ir : IR.
Variable getName : FuncId → string.
Variable DefaultIdx : Z.

Lemma escapeType_records (st : MLTA) (PO base : Value) (T : Ty)
    (idx0 i1 : Value) (rest : list Value) (DL : DataLayout) :
  noEmptyPhi ir = true →
  kind (node ir PO) = KGEP base T idx0 (i1 :: rest) →
  zeroIndex ir idx0 →
  on_return (λ st', typeIdxHash T DL (layerIndex cfg ir i1)
                    ∈ typeEscapeSet st')
            (escapeType cfg ir st PO DL).
Proof.
  intros Hphi Hk Hz. unfold escapeType.
  eapply on_return_bind; [by eapply getBaseTypeChain_first|].
  intros [[TyChain Complete] st1] Hin. simpl in Hin. simpl.
  apply elem_of_union. left. apply elem_of_list_to_set.
  apply list_elem_of_fmap. by exists (typeidx_c T (layerIndex cfg ir i1)).
Qed.

Lemma propagateValue_escapes (st : MLTA) (PO base VO : Value) (T E : Ty)
    (idx0 i1 : Value) (rest : list Value) (DL : DataLayout) :
  noEmptyPhi ir = true →
  kind (node ir VO) = KArgument →
  parent (node ir VO) = None →
  getType ir VO = PointerTy E →
  isCompositeType E = false →
  getFuncPtrType ir (stripPointerCasts VO) = None →
  kind (node ir PO) = KGEP base T idx0 (i1 :: rest) →
  zeroIndex ir idx0 →
  on_return (λ r, typeIdxHash T DL (layerIndex cfg ir i1)
                  ∈ typeEscapeSet r.1)
            (propagateValue cfg ir DefaultIdx st PO VO DL).
Proof.
  intros Hphi HVO Hpar HT HE HFP HPO Hz. unfold propagateValue.
  unfold isConstantAggregate, isConstantData. rewrite HVO. cbn [orb].
  unfold value_fuel. cbn [nextLayerBaseType getBaseType]. rewrite HVO.
  cbn [mbind res_bind].
  rewrite decide_False by set_solver. rewrite HT.
  cbn [isCompositeType isStructTy isArrayTy isVectorTy orb].
  rewrite HE. unfold recoverBaseType. rewrite Hpar. cbn [mbind res_bind].
  rewrite HFP. cbn [isPointerTy negb].
  eapply on_return_bind; [by eapply escapeType_records|].
  by intros st1 Hst1.
Qed.

Lemma propInstructions_escapes (DL : DataLayout) (acc : MLTA * gset Value)
    (Is : list Value) (Inst PO base VO : Value) (T E : Ty)
    (idx0 i1 : Value) (rest : list Value) :
  noEmptyPhi ir = true →
  Inst ∈ Is →
  kind (node ir Inst) = KStore VO PO →
  kind (node ir VO) = KArgument →
  parent (node ir VO) = None →
  getType ir VO = PointerTy E →
  isCompositeType E = false →
  getFuncPtrType ir (stripPointerCasts VO) = None →
  kind (node ir PO) = KGEP base T idx0 (i1 :: rest) →
  zeroIndex ir idx0 →
  on_return (λ r, typeIdxHash T DL (layerIndex cfg ir i1)
                  ∈ typeEscapeSet r.1)
            (propInstructions cfg ir getName DefaultIdx DL acc Is).
Proof.
  intros Hphi Hin Hk HVO Hpar HT HE HFP HPO Hz. revert acc.
  induction Is as [|I' Is IH]; intros [st CastSet].
  { by apply elem_of_nil in Hin. }
  cbn [propInstructions]. destruct (decide (I' = Inst)) as [->|HI].
  - unfold propInstruction at 1, propOperands. rewrite Hk.
    cbn [mbind res_bind].
    eapply on_return_bind.
    { eapply on_return_bind.
      - by eapply (propagateValue_escapes st PO base VO T E).
      - intros [st1 skip] Hst1. simpl in Hst1.
        instantiate (1 := λ r, typeIdxHash T DL (layerIndex cfg ir i1)
                               ∈ typeEscapeSet r.1).
        by simpl. }
    intros [st1 Cs] Hst1. simpl in Hst1.
    eapply on_return_weaken; [apply propInstructions_flows|].
    intros r Hr. simpl in Hr.
    apply flowWrites_frame in Hr as (_ & _ & Hgrow & _).
    by apply Hgrow.
  - apply elem_of_cons in Hin as [->|Hin]; [done|].
    eapply on_return_bind with (P := λ _, True).
    { by destruct (propInstruction _ _ _ _ _ _ _). }
    intros acc1 _. by apply IH.
Qed.

(** The chain of a GEP with the indices 0 and [i1] from an argument. *)
Lemma chainLoop_argument (n : nat) (st : MLTA) (PO base : Value) (T : Ty)
    (idx0 i1 : Value) :
  kind (node ir PO) = KGEP base T idx0 [i1] →
  zeroIndex ir idx0 →
  noCastUsers ir PO = true →
  kind (node ir base) = KArgument →
  on_return (λ r, r = ([typeidx_c T (layerIndex cfg ir i1)], Some base))
            (chainLoop cfg ir n st (Some PO) [] None ∅).
Proof.
  intros Hk Hz Hno Hbase. destruct n as [|n]; [done|]. rewrite chainLoop_S.
  unfold value_fuel at 1. cbn [nextLayerBaseType]. rewrite Hk.
  rewrite decide_False by set_solver.
  pose proof (getGEPLayerTypes_single cfg ir st PO base T idx0 i1 [] Hz Hno)
    as Hg.
  destruct (getGEPLayerTypes _ _ _ _ _ _ _ _ _) as [[ret TyList]| |];
    [|done..].
  simpl in Hg. injection Hg as -> ->. cbn [mbind res_bind app].
  destruct n as [|n]; [done|]. rewrite chainLoop_S.
  unfold value_fuel. cbn [nextLayerBaseType]. by rewrite Hbase.
Qed.

End EscapeFacts.

Section EscapeTheorems.
Context `{!Host}.

(** X29: [typePropInFunction] records what escapes: for a store in [F] of
    an argument that is a pointer to no composite type and to no
    function, to a pointer that is a GEP into the type [T] with a first
    index 0, the hash of the pair of [T] and the index of the GEP's
    second index is in [typeEscapeSet] at the return. *)
Theorem typePropInFunction_records_escape (cfg : Config) (ir : IR)
    (getName : FuncId → string) (DefaultIdx : Z) (st : MLTA) (Fn : FuncId)
    (DL : DataLayout) (Inst PO base VO : Value) (T E : Ty)
    (idx0 i1 : Value) (rest : list Value) :
  noEmptyPhi ir = true →
  Inst ∈ instructions (func ir Fn) →
  kind (node ir Inst) = KStore VO PO →
  kind (node ir VO) = KArgument →
  parent (node ir VO) = None →
  getType ir VO = PointerTy E →
  isCompositeType E = false →
  getFuncPtrType ir (stripPointerCasts VO) = None →
  kind (node ir PO) = KGEP base T idx0 (i1 :: rest) →
  zeroIndex ir idx0 →
  on_return (λ r, typeIdxHash T DL (layerIndex cfg ir i1)
                  ∈ typeEscapeSet r.2)
            (typePropInFunction cfg ir getName DefaultIdx st Fn DL).
Proof.
  intros Hphi Hin Hk HVO Hpar HT HE HFP HPO Hz. unfold typePropInFunction.
  eapply on_return_bind.
  { by eapply (propInstructions_escapes cfg ir getName DefaultIdx DL (st, ∅)
                 _ Inst PO base VO T E). }
  intros [st1 CastSet] Hst1. simpl in Hst1.
  eapply on_return_bind with (P := λ _, True).
  { by destruct (castLoop _ _). }
  by intros _ _.
Qed.

(** X30: the chain of a pointer into a struct that comes from outside is
    not complete.  For a GEP with the indices 0 and [i1] into the type
    [T] whose pointer operand is an argument of pointer type (and which
    no bitcast uses), [getBaseTypeChain] returns or stops on an assertion
    of the walker; when it returns, the chain ends with the pair of [T]
    and the index of [i1], [Complete] is false, and the hash of [T] is in
    [typeCapSet]. *)
Theorem getBaseTypeChain_argument (cfg : Config) (ir : IR) (st : MLTA)
    (Chain : list typeidx_t) (PO base : Value) (T : Ty) (idx0 i1 : Value)
    (DL : DataLayout) :
  kind (node ir PO) = KGEP base T idx0 [i1] →
  zeroIndex ir idx0 →
  noCastUsers ir PO = true →
  kind (node ir base) = KArgument →
  isPointerTy (getType ir base) = true →
  returns (λ r, last r.1.1 = Some (typeidx_c T (layerIndex cfg ir i1))
                ∧ r.1.2 = false
                ∧ typeHash T DL ∈ typeCapSet r.2)
          (getBaseTypeChain cfg ir st Chain (Some PO) DL).
Proof.
  intros Hk Hz Hno Hbase Hptr.
  assert (unvisited ir ∅ < value_fuel ir) as Hfuel.
  { unfold value_fuel. pose proof (unvisited_le ir ∅). lia. }
  unfold getBaseTypeChain.
  eapply returns_bind with (P := λ _, True).
  { by apply getBaseType_terminates. }
  intros [BTy Vis] _.
  eapply returns_bind.
  { apply returns_split; [by apply chainLoop_terminates|].
    by apply (chainLoop_argument cfg ir _ st PO base T idx0 i1). }
  intros [TyList NextV] [= -> ->].
  cbn [returns fst snd]. rewrite last_snoc.
  unfold chainComplete, isArgument. rewrite Hbase, Hptr. cbn [andb].
  split; [done|]. split; [done|]. simpl. set_solver.
Qed.

End EscapeTheorems.

(** The store of [escapeIR] lets field 1 of [%V] escape. *)
Lemma typePropInFunction_records_escape_witness :
  (r ← @typePropInFunction toyHost soundSensitive escapeIR noNames anyField
         emptyMLTA escapeFunction 1%positive;
   Ret (typeEscapeSet r.2))
  = Ret {[ @typeIdxHash toyHost tV 1%positive 1%Z ]}
  ∧ on_return (λ r, @typeIdxHash toyHost tV 1%positive
                      (layerIndex soundSensitive escapeIR one32)
                    ∈ typeEscapeSet r.2)
      (@typePropInFunction toyHost soundSensitive escapeIR noNames anyField
         emptyMLTA escapeFunction 1%positive).
Proof.
  split; [by vm_compute|].
  apply (@typePropInFunction_records_escape toyHost soundSensitive escapeIR
           noNames anyField emptyMLTA escapeFunction 1%positive escapeStore
           escapeSlot escapeBase escapePointer tV i8 zero64 one32 []).
  - reflexivity.
  - by vm_compute; right; left.
  - reflexivity.
  - reflexivity.
  - reflexivity.
  - reflexivity.
  - reflexivity.
  - reflexivity.
  - reflexivity.
  - exists 64%N, 0%Z. split; reflexivity.
Defined.

(** The chain of the pointer that the store of [confineIR] writes to. *)
Lemma getBaseTypeChain_argument_witness :
  returns (λ r, last r.1.1
                = Some (typeidx_c tV (layerIndex soundSensitive confineIR one32))
                ∧ r.1.2 = false
                ∧ @typeHash toyHost tV 1%positive ∈ typeCapSet r.2)
    (@getBaseTypeChain toyHost soundSensitive confineIR emptyMLTA []
       (Some confineSlot) 1%positive).
Proof.
  apply (@getBaseTypeChain_argument toyHost soundSensitive confineIR
           emptyMLTA [] confineSlot confineBase tV zero64 one32 1%positive).
  - reflexivity.
  - exists 64%N, 0%Z. split; reflexivity.
  - reflexivity.
  - reflexivity.
  - reflexivity.
Defined.
